(** * Time-dependent Schroedinger equation simulator: the solver core

    A shallow embedding of the numerical core of the quantum TDSE simulator
    (the parameter system, the split-operator solver, the wavefunction
    initializers, the potential generators and the wavefunction utilities)
    together with the properties its specification states about them and
    further properties the code itself shows.

    Numbers.  The TypeScript code computes with JavaScript numbers.  The
    code is embedded once, over an interface [JSNum] of the operations it
    uses, and read at two instances:

    - [Exact]: the real numbers, every operation exact.  This is the
      reading at which the algebraic properties are proved.  It has no NaN
      and no infinity; where JavaScript would produce one (a division by
      zero, the square root of a negative number) the reals give 0 instead,
      so a theorem proved at [Exact] either carries the hypothesis that the
      divisor is not zero or goes through a guard of the code that takes
      the same branch for NaN and for 0.
    - [IEEE]: binary64 floating point, the numbers JavaScript has, on which
      the code can be run on a concrete input, and at which the properties
      that are about NaN and the zeros are proved.  The transcendental
      functions, which Rocq's primitive floats lack, are arguments of the
      instance.

    The host.  The transforms of the FFT object ([fft.js]), the evaluation
    of a JavaScript source text ([new Function]) and the printing of a
    number belong to the host, not to the repository: they are the
    interfaces [FFT] and [Host], and a property holds for every
    implementation of them unless it says what it asks of one.  The host
    also answers for what the embedding of the language leaves out: the
    patterns [new RegExp] compiles beyond the part of the pattern language
    that is compiled here, and the lower case of a text beyond ASCII.  The
    test of its size by the constructor of the FFT object is embedded
    ([FFT_new]).

    Errors.  A function that can throw returns a [completion]; one that
    also assigns to [this] returns the new object together with it.

    Layout.  The code comes first, in the order of the source files; the
    properties follow. *)

From Stdlib Require Import Floats Uint63.
From Stdlib Require Import List String Ascii Bool Arith PeanoNat Lia ZArith.
From Stdlib Require Import Permutation Sorted.
From Stdlib Require Import Reals Lra.
Import ListNotations.

(* [String] also has a [length]; arrays are lists. *)
#[local] Abbreviation length := List.length (only parsing).

(** ** JavaScript numbers *)

Class JSNum : Type := {
  number : Type;
  (** an integer literal, or a loop counter used as a number *)
  lit : Z -> number;
  (** the literal [0.5] *)
  half : number;
  (** what arithmetic sees when it reads [undefined] (a typed array read
      out of range): NaN *)
  NaN : number;
  nadd : number -> number -> number;
  nsub : number -> number -> number;
  nmul : number -> number -> number;
  ndiv : number -> number -> number;
  nneg : number -> number;
  nlt : number -> number -> bool;
  nle : number -> number -> bool;
  isFinite : number -> bool;
  Math_PI : number;
  Math_sqrt : number -> number;
  Math_cos : number -> number;
  Math_sin : number -> number;
  Math_exp : number -> number;
  Math_abs : number -> number;
  (** [Math.pow(b, e)] for a literal exponent [e] *)
  Math_pow : number -> nat -> number;
  Math_max : number -> number -> number;
  Math_min : number -> number -> number
}.

Declare Scope js_scope.
Delimit Scope js_scope with js.
Notation "a + b" := (nadd a b) : js_scope.
Notation "a - b" := (nsub a b) : js_scope.
Notation "a * b" := (nmul a b) : js_scope.
Notation "a / b" := (ndiv a b) : js_scope.
Notation "- a" := (nneg a) : js_scope.
Notation "a <? b" := (nlt a b) (at level 70, no associativity) : js_scope.
Notation "a <=? b" := (nle a b) (at level 70, no associativity) : js_scope.
Notation "a >? b" := (nlt b a) (at level 70, no associativity) : js_scope.
Notation "a >=? b" := (nle b a) (at level 70, no associativity) : js_scope.

Definition of_nat {N : JSNum} (i : nat) : number := lit (Z.of_nat i).

(** *** Exact real arithmetic *)

Definition Rltb (a b : R) : bool := if Rlt_dec a b then true else false.
Definition Rleb (a b : R) : bool := if Rle_dec a b then true else false.

Definition Exact : JSNum := {|
  number := R;
  lit := IZR;
  half := (1 / 2)%R;
  NaN := 0%R;
  nadd := Rplus;
  nsub := Rminus;
  nmul := Rmult;
  ndiv := Rdiv;
  nneg := Ropp;
  nlt := Rltb;
  nle := Rleb;
  isFinite := fun _ => true;
  Math_PI := PI;
  Math_sqrt := sqrt;
  Math_cos := cos;
  Math_sin := sin;
  Math_exp := exp;
  Math_abs := Rabs;
  Math_pow := pow;
  Math_max := Rmax;
  Math_min := Rmin
|}.

(** *** IEEE 754 binary64 *)

Definition float_of_Z (z : Z) : float :=
  match z with
  | Z0 => PrimFloat.zero
  | Zpos _ => PrimFloat.of_uint63 (Uint63.of_Z z)
  | Zneg p => PrimFloat.opp (PrimFloat.of_uint63 (Uint63.of_Z (Zpos p)))
  end.

(** [Math.max]: NaN when an argument is NaN, and [+0] is larger than [-0]. *)
Definition float_max (a b : float) : float :=
  if (PrimFloat.is_nan a || PrimFloat.is_nan b)%bool then PrimFloat.nan
  else if PrimFloat.ltb a b then b
  else if PrimFloat.ltb b a then a
  else if PrimFloat.get_sign a then b else a.

(** [Math.min]: NaN when an argument is NaN, and [-0] is smaller than [+0]. *)
Definition float_min (a b : float) : float :=
  if (PrimFloat.is_nan a || PrimFloat.is_nan b)%bool then PrimFloat.nan
  else if PrimFloat.ltb a b then a
  else if PrimFloat.ltb b a then b
  else if PrimFloat.get_sign a then a else b.

Definition IEEE (fcos fsin fexp : float -> float) (fpow : float -> nat -> float)
    (fpi : float) : JSNum := {|
  number := float;
  lit := float_of_Z;
  half := 0.5%float;
  NaN := PrimFloat.nan;
  nadd := PrimFloat.add;
  nsub := PrimFloat.sub;
  nmul := PrimFloat.mul;
  ndiv := PrimFloat.div;
  nneg := PrimFloat.opp;
  nlt := PrimFloat.ltb;
  nle := PrimFloat.leb;
  isFinite := PrimFloat.is_finite;
  Math_PI := fpi;
  Math_sqrt := PrimFloat.sqrt;
  Math_cos := fcos;
  Math_sin := fsin;
  Math_exp := fexp;
  Math_abs := PrimFloat.abs;
  Math_pow := fpow;
  Math_max := float_max;
  Math_min := float_min
|}.

(** ** Typed arrays and counting loops *)

Section Arrays.
Context {N : JSNum}.

(** [new Float64Array(n)] *)
Definition Float64Array (n : nat) : list number := repeat (lit 0) n.

(** [a[i]] read as a number: out of range the read is [undefined]. *)
Definition get (a : list number) (i : nat) : number := nth i a NaN.

(** [a[i] = v]: a typed array ignores a write out of range. *)
Fixpoint set (a : list number) (i : nat) (v : number) : list number :=
  match a, i with
  | [], _ => []
  | _ :: t, O => v :: t
  | h :: t, S j => h :: set t j v
  end.

(** [for (let i = lo; i < lo + n; i++) body], on the variables [s] the
    body assigns. *)
Definition for_loop {S : Type} (lo n : nat) (body : nat -> S -> S) (s : S) : S :=
  fold_left (fun s i => body i s) (seq lo n) s.

End Arrays.

(** ** Exceptions *)

(** The errors the core throws, by the place that throws them; the host's
    own errors (a [SyntaxError] or [ReferenceError] of the evaluated text)
    are [HostError]. *)
Inductive JSError : Type :=
| HostError
| EmptyExpression
| InvalidCharacters
| NonFiniteResult
| FailedToEvaluate (cause : JSError)
| CustomFunctionNotProvided
| DimensionMismatch (got expected : nat)
| InvalidFFTSize.

Inductive completion (A : Type) : Type :=
| Normal (a : A)
| Throw (e : JSError).
Arguments Normal {A} a.
Arguments Throw {A} e.

(** A counting loop whose body may throw: the first throw ends the loop. *)
Definition for_loop_try {S : Type} (lo n : nat) (body : nat -> S -> completion S)
    (s : S) : completion S :=
  fold_left (fun acc i => match acc with
                          | Normal s => body i s
                          | Throw e => Throw e
                          end) (seq lo n) (Normal s).

(** ** The parameter system ([parameters.ts]) *)

Section Parameters.
Context {N : JSNum}.

(** The interface [Parameter] (the word itself is reserved here). *)
Record Param : Type := {
  p_name : string;
  p_value : number;
  p_min : number;
  p_max : number;
  p_step : number;
  p_description : option string
}.

(** [{ [parameterName]: Parameter }]: the object's values in insertion
    order, which is the order [Object.values] enumerates them in. *)
Definition ParameterSet : Type := list Param.

Definition createParameter (name : string) (value min max step : number)
    (description : option string) : Param :=
  {| p_name := name;
     p_value := Math_max min (Math_min max value);
     p_min := min;
     p_max := max;
     p_step := step;
     p_description := description |}.

Definition updateParameter (parameter : Param) (newValue : number) : Param :=
  {| p_name := p_name parameter;
     p_value := Math_max (p_min parameter) (Math_min (p_max parameter) newValue);
     p_min := p_min parameter;
     p_max := p_max parameter;
     p_step := p_step parameter;
     p_description := p_description parameter |}.

End Parameters.

(** ** Strings and regular expressions

    A JavaScript string is a [string]; the functions that scan one work on
    its list of characters.  The regular expressions of the core use
    literals, character classes, concatenation, the greedy star, the word
    boundary, a negative lookahead and the two anchors, with the flag [g];
    [exec] is the backtracking matcher of the language for that
    fragment. *)

Definition code (c : ascii) : nat := nat_of_ascii c.

Definition is_upper (c : ascii) : bool := (65 <=? code c) && (code c <=? 90).
Definition is_lower (c : ascii) : bool := (97 <=? code c) && (code c <=? 122).
(** [[a-zA-Z]] *)
Definition is_letter (c : ascii) : bool := is_lower c || is_upper c.
(** [\d] *)
Definition is_digit (c : ascii) : bool := (48 <=? code c) && (code c <=? 57).
(** [[a-zA-Z0-9]] *)
Definition is_alnum (c : ascii) : bool := is_letter c || is_digit c.
(** [\w] *)
Definition is_word_char (c : ascii) : bool := is_alnum c || (code c =? 95).
(** [\s], among the characters below 256 *)
Definition is_space (c : ascii) : bool :=
  ((9 <=? code c) && (code c <=? 13)) || (code c =? 32) || (code c =? 160).

Definition toLowerCase_char (c : ascii) : ascii :=
  if is_upper c then ascii_of_nat (code c + 32) else c.

(** [s.toLowerCase()] for a text [s] of ASCII characters, as every match
    of the two patterns of the extractors is. *)
Definition toLowerCase (s : string) : string :=
  string_of_list_ascii (map toLowerCase_char (list_ascii_of_string s)).

Fixpoint trim_start (s : list ascii) : list ascii :=
  match s with
  | c :: t => if is_space c then trim_start t else s
  | [] => []
  end.

(** [s.trim()] *)
Definition trim (s : string) : string :=
  string_of_list_ascii
    (rev (trim_start (rev (trim_start (list_ascii_of_string s))))).

Inductive regex : Type :=
| Eps                             (* the empty pattern *)
| Chr (c : ascii)                 (* a literal character *)
| Cls (f : ascii -> bool)         (* a character class *)
| Seq (r1 r2 : regex)
| Star (r : regex)                (* r*, greedy *)
| WordB                           (* \b *)
| NotFollowedBy (r : regex)       (* (?!r) *)
| Bol                             (* ^ *)
| Eol.                            (* $ *)

(** A position in the subject: the character before it, if any, and the
    text from it on. *)
Definition cursor : Type := (option ascii * list ascii)%type.

Definition word_before (p : cursor) : bool :=
  match fst p with Some c => is_word_char c | None => false end.
Definition word_after (p : cursor) : bool :=
  match snd p with c :: _ => is_word_char c | [] => false end.
Definition at_word_boundary (p : cursor) : bool :=
  xorb (word_before p) (word_after p).

Definition or_else {A : Type} (a b : option A) : option A :=
  match a with Some _ => a | None => b end.

(** [rmatch r p k]: match [r] at [p], then the rest of the pattern [k];
    alternatives are tried in the order of the language (the star takes as
    many iterations as it can first, and an iteration that consumes nothing
    is refused). *)
Fixpoint rmatch (r : regex) (p : cursor) (k : cursor -> option cursor)
    : option cursor :=
  match r with
  | Eps => k p
  | Chr c =>
      match snd p with
      | a :: s => if Ascii.eqb a c then k (Some a, s) else None
      | [] => None
      end
  | Cls f =>
      match snd p with
      | a :: s => if f a then k (Some a, s) else None
      | [] => None
      end
  | Seq r1 r2 => rmatch r1 p (fun q => rmatch r2 q k)
  | Star r1 =>
      (fix star (fuel : nat) (p : cursor) {struct fuel} : option cursor :=
         match fuel with
         | O => k p
         | S fuel' =>
             or_else
               (rmatch r1 p (fun q =>
                  if length (snd q) <? length (snd p) then star fuel' q
                  else None))
               (k p)
         end) (length (snd p)) p
  | WordB => if at_word_boundary p then k p else None
  | NotFollowedBy r1 =>
      match rmatch r1 p (fun q => Some q) with
      | Some _ => None
      | None => k p
      end
  | Bol => match fst p with None => k p | Some _ => None end
  | Eol => match snd p with [] => k p | _ :: _ => None end
  end.

(** The match of [r] that starts at [p], if there is one: the position
    after it. *)
Definition exec (r : regex) (p : cursor) : option cursor :=
  rmatch r p (fun q => Some q).

(** The matches of [r] in [s] from left to right ([skip] characters of the
    current match are still to be passed). *)
Fixpoint scan_matches (r : regex) (prev : option ascii) (s : list ascii)
    (skip : nat) : list (list ascii) :=
  match s with
  | [] =>
      match skip with
      | O => match exec r (prev, []) with Some _ => [[]] | None => [] end
      | S _ => []
      end
  | c :: s' =>
      match skip with
      | S n => scan_matches r (Some c) s' n
      | O =>
          match exec r (prev, s) with
          | Some (_, rest) =>
              let len := length s - length rest in
              firstn len s :: scan_matches r (Some c) s' (len - 1)
          | None => scan_matches r (Some c) s' 0
          end
      end
  end.

(** The text [s] with every match of [r] replaced by [rep]. *)
Fixpoint scan_replace (r : regex) (rep : list ascii) (prev : option ascii)
    (s : list ascii) (skip : nat) : list ascii :=
  match s with
  | [] =>
      match skip with
      | O => match exec r (prev, []) with Some _ => rep | None => [] end
      | S _ => []
      end
  | c :: s' =>
      match skip with
      | S n => scan_replace r rep (Some c) s' n
      | O =>
          match exec r (prev, s) with
          | Some (_, rest) =>
              rep ++ match length s - length rest with
                     | O => c :: scan_replace r rep (Some c) s' 0
                     | S m => scan_replace r rep (Some c) s' m
                     end
          | None => c :: scan_replace r rep (Some c) s' 0
          end
      end
  end.

(** [s.match(/r/g) || []] *)
Definition String_match (s : string) (r : regex) : list string :=
  map string_of_list_ascii (scan_matches r None (list_ascii_of_string s) 0).

(** [s.replace(/r/g, rep)], for a replacement text without [$]. *)
Definition String_replace (s : string) (r : regex) (rep : string) : string :=
  string_of_list_ascii
    (scan_replace r (list_ascii_of_string rep) None (list_ascii_of_string s) 0).

Fixpoint scan_test (r : regex) (prev : option ascii) (s : list ascii) : bool :=
  match exec r (prev, s) with
  | Some _ => true
  | None => match s with
            | [] => false
            | c :: s' => scan_test r (Some c) s'
            end
  end.

(** [/r/.test(s)] *)
Definition RegExp_test (r : regex) (s : string) : bool :=
  scan_test r None (list_ascii_of_string s).

(** The pattern that matches the text [w] literally. *)
Fixpoint literal (w : list ascii) : regex :=
  match w with
  | [] => Eps
  | c :: t => Seq (Chr c) (literal t)
  end.

(** [\bw\b] *)
Definition whole_word (w : string) : regex :=
  Seq WordB (Seq (literal (list_ascii_of_string w)) WordB).

(** [\bf\s*\(], the call of the function named [f] *)
Definition call_of (f : string) : regex :=
  Seq WordB (Seq (literal (list_ascii_of_string f))
               (Seq (Star (Cls is_space)) (Chr "("%char))).

(** *** Patterns compiled from a text

    [new RegExp(source, 'g')] compiles the text [source].  The part of the
    pattern language that is compiled here:

    - a character other than the syntax characters
      [^ $ \ . * + ? ( ) [ ] { } |] stands for itself;
    - [.] is any character but a line terminator;
    - [\d \D \w \W \s \S] are the character classes, [\b \B ^ $] the
      assertions, and a backslash before a syntax character or [/] makes
      that character stand for itself;
    - [*] and [+] after one of the above that consumes a character repeat
      it, greedily.

    Every other text, among them the texts that are no pattern, is left to
    the host: [RegExp_parse] returns [None] for it. *)

Inductive token : Type :=
| TAtom (r : regex)         (* matches one character *)
| TAssert (r : regex)       (* matches no character *)
| TStar
| TPlus
| TOther.

Definition is_syntax_char (c : ascii) : bool :=
  existsb (Ascii.eqb c)
    ["^"; "$"; "\"; "."; "*"; "+"; "?"; "("; ")"; "["; "]"; "{"; "}"; "|"]%char.

(** The line terminators among the characters below 256. *)
Definition is_line_terminator (c : ascii) : bool :=
  (code c =? 10) || (code c =? 13).

(** The token of a backslash and the character [c]. *)
Definition escape (c : ascii) : token :=
  if Ascii.eqb c "b" then TAssert WordB
  else if Ascii.eqb c "B" then TAssert (NotFollowedBy WordB)
  else if Ascii.eqb c "d" then TAtom (Cls is_digit)
  else if Ascii.eqb c "D" then TAtom (Cls (fun a => negb (is_digit a)))
  else if Ascii.eqb c "w" then TAtom (Cls is_word_char)
  else if Ascii.eqb c "W" then TAtom (Cls (fun a => negb (is_word_char a)))
  else if Ascii.eqb c "s" then TAtom (Cls is_space)
  else if Ascii.eqb c "S" then TAtom (Cls (fun a => negb (is_space a)))
  else if is_syntax_char c || Ascii.eqb c "/" then TAtom (Chr c)
  else TOther.

Fixpoint tokens (source : list ascii) : list token :=
  match source with
  | [] => []
  | c :: t =>
      if Ascii.eqb c "\" then
        match t with
        | [] => [TOther]
        | e :: t' => escape e :: tokens t'
        end
      else if Ascii.eqb c "." then
        TAtom (Cls (fun a => negb (is_line_terminator a))) :: tokens t
      else if Ascii.eqb c "*" then TStar :: tokens t
      else if Ascii.eqb c "+" then TPlus :: tokens t
      else if Ascii.eqb c "^" then TAssert Bol :: tokens t
      else if Ascii.eqb c "$" then TAssert Eol :: tokens t
      else if is_syntax_char c then TOther :: tokens t
      else TAtom (Chr c) :: tokens t
  end.

(** The pattern of a list of tokens: the sequence of its terms. *)
Fixpoint compile (ts : list token) : option regex :=
  match ts with
  | [] => Some Eps
  | TAtom r :: t =>
      match t with
      | TStar :: t' => option_map (Seq (Star r)) (compile t')
      | TPlus :: t' => option_map (Seq (Seq r (Star r))) (compile t')
      | _ => option_map (Seq r) (compile t)
      end
  | TAssert r :: t => option_map (Seq r) (compile t)
  | TStar :: _ | TPlus :: _ | TOther :: _ => None
  end.

Definition RegExp_parse (source : string) : option regex :=
  compile (tokens (list_ascii_of_string source)).

(** [[...new Set(names)]]: the names without repetition, each at its first
    occurrence. *)
Fixpoint Set_values (seen names : list string) : list string :=
  match names with
  | [] => []
  | n :: t =>
      if existsb (String.eqb n) seen then Set_values seen t
      else n :: Set_values (n :: seen) t
  end.

Definition Set_has (s : list string) (n : string) : bool :=
  existsb (String.eqb n) s.

(** [(?!\s*\()] *)
Definition not_a_call : regex :=
  NotFollowedBy (Seq (Star (Cls is_space)) (Chr "("%char)).

Definition extractParameterNames (expression : string) : list string :=
  let parameterPattern :=
    Seq WordB (Seq (Cls is_letter) (Seq (Star (Cls is_alnum)) not_a_call)) in
  let matches := String_match expression parameterPattern in
  let reservedKeywords :=
    ["x"; "t"; "i"; "pi"; "e"; "sin"; "cos"; "tan"; "sinh"; "cosh"; "tanh";
     "exp"; "sqrt"; "abs"; "log"; "ln"; "true"; "false"; "if"; "else"]%string in
  let potentialParameters :=
    filter (fun name => negb (Set_has reservedKeywords (toLowerCase name))
                        && (1 <? String.length name)) matches in
  Set_values [] potentialParameters.

Definition extractSingleLetterVariables (expression : string) : list string :=
  let singleLetterPattern := Seq WordB (Seq (Cls is_letter) not_a_call) in
  let matches := String_match expression singleLetterPattern in
  let builtInVariables := ["x"; "t"; "i"]%string in
  let potentialParameters :=
    filter (fun letter => negb (Set_has builtInVariables (toLowerCase letter)))
           matches in
  Set_values [] potentialParameters.

(** [/^[a-zA-Z][a-zA-Z0-9]*$/] *)
Definition namePattern : regex :=
  Seq Bol (Seq (Cls is_letter) (Seq (Star (Cls is_alnum)) Eol)).

Definition isValidParameterName (name : string) : bool :=
  RegExp_test namePattern name && (1 <? String.length name).

(** [s.includes(sub)] *)
Fixpoint String_includes (s sub : string) : bool :=
  String.prefix sub s
  || match s with
     | EmptyString => false
     | String _ t => String_includes t sub
     end.

(** ** The host *)

(** What the call of a compiled text returns: a number, or a value of
    another type. *)
Inductive JSValue {N : JSNum} : Type :=
| VNumber (v : number)
| VOther.

Class Host {N : JSNum} : Type := {
  (** the text of a number in a template literal *)
  Number_toString : number -> string;
  (** [new Function('Math', `return ${text}`)(Math)] *)
  Function_call : string -> completion JSValue;
  (** [text.replace(new RegExp(source, 'g'), replacement)] for a [source]
      that [RegExp_parse] leaves to the host: the constructor throws a
      [SyntaxError] when [source] is no pattern *)
  RegExp_replace : string -> string -> string -> completion string;
  (** [text.toLowerCase()] for a [text] with a character beyond ASCII *)
  Unicode_toLowerCase : string -> string
}.

Section Substitution.
Context {N : JSNum} {H : Host}.
Open Scope string_scope.

(** [text.replace(new RegExp(source, 'g'), replacement)], for a
    replacement text without [$]. *)
Definition replace_RegExp (text source replacement : string)
    : completion string :=
  match RegExp_parse source with
  | Some pattern => Normal (String_replace text pattern replacement)
  | None => RegExp_replace source text replacement
  end.

(** The pattern of a parameter is compiled from its name, whatever the
    name is; when a name is no pattern the constructor throws, and so does
    the substitution. *)
Definition substituteParameters (expression : string) (parameters : ParameterSet)
    : completion string :=
  fold_left
    (fun result param =>
       match result with
       | Throw e => Throw e
       | Normal result =>
           replace_RegExp result ("\b" ++ p_name param ++ "\b")
             ("(" ++ Number_toString (p_value param) ++ ")")
       end)
    parameters (Normal expression).

End Substitution.

(** *** Suggestions, parameter objects and validation *)

Section ParameterTools.
Context {N : JSNum} {H : Host}.
Open Scope string_scope.
Open Scope js_scope.

(** The literal [0.1]: one tenth, rounded once. *)
Definition tenth : number := lit 1 / lit 10.

Definition getSuggestedParameters (expression : string) : list Param :=
  let suggestions := [] in
  let singleLetters := extractSingleLetterVariables expression in
  let suggestions :=
    fold_left
      (fun suggestions letter =>
         (suggestions
          ++ [createParameter letter (lit 1) (lit (-10)) (lit 10) tenth None])%list)
      singleLetters suggestions in
  let multiCharParams := extractParameterNames expression in
  fold_left
    (fun suggestions param =>
       (suggestions
        ++ [createParameter param (lit 1) (lit (-10)) (lit 10) tenth None])%list)
    multiCharParams suggestions.

(** A parameter set with its keys: the own properties of the object in the
    order [Object.values] enumerates them.  The keys are names that start
    with a letter, so none of them is an array index or [__proto__]. *)
Definition ParameterObject : Type := list (string * Param).

Definition Object_values (o : ParameterObject) : ParameterSet := map snd o.

Definition Object_keys (o : ParameterObject) : list string := map fst o.

(** [o[key] = v]: a key the object has keeps its place. *)
Fixpoint Object_set (o : ParameterObject) (key : string) (v : Param)
    : ParameterObject :=
  match o with
  | [] => [(key, v)]
  | (k, w) :: t =>
      if String.eqb k key then (k, v) :: t else (k, w) :: Object_set t key v
  end.

(** The own property [key] of [o]. *)
Fixpoint Object_own (o : ParameterObject) (key : string) : option Param :=
  match o with
  | [] => None
  | (k, w) :: t => if String.eqb k key then Some w else Object_own t key
  end.

(** The properties every object inherits from [Object.prototype]. *)
Definition Object_prototype : list string :=
  ["constructor"; "hasOwnProperty"; "isPrototypeOf"; "propertyIsEnumerable";
   "toLocaleString"; "toString"; "valueOf"; "__defineGetter__";
   "__defineSetter__"; "__lookupGetter__"; "__lookupSetter__";
   "__proto__"].

(** [!o[key]]: a parameter is an object and an inherited property is a
    function or an object, all of which are truthy; a key that is neither
    own nor inherited reads [undefined]. *)
Definition Object_lacks (o : ParameterObject) (key : string) : bool :=
  match Object_own o key with
  | Some _ => false
  | None => negb (Set_has Object_prototype key)
  end.

Definition createParameterSet (suggestions : list Param) : ParameterObject :=
  fold_left
    (fun parameterSet param => Object_set parameterSet (p_name param) param)
    suggestions [].

(** The text of the field [error] of a validation result. *)
Inductive ValidationError : Type :=
| MissingParametersError (missingParameters : list string)
    (* `Missing parameters: ${missingParameters.join(', ')}` *)
| NonFiniteError      (* 'Expression evaluates to non-finite number' *)
| CaughtError (e : JSError).
    (* the message of the error that was caught *)

Record ParameterValidation : Type := {
  valid : bool;
  error : option ValidationError;
  missingParameters : option (list string)
}.

Definition validateParameterExpression (expression : string)
    (parameters : ParameterObject) : ParameterValidation :=
  let singleLetterParams := extractSingleLetterVariables expression in
  let allParams :=
    (extractParameterNames expression ++ singleLetterParams)%list in
  let missing :=
    filter (fun paramName => Object_lacks parameters paramName) allParams in
  if (0 <? length missing)%nat then
    {| valid := false; error := Some (MissingParametersError missing);
       missingParameters := Some missing |}
  else
    match substituteParameters expression (Object_values parameters) with
    | Throw e =>
        {| valid := false; error := Some (CaughtError e);
           missingParameters := None |}
    | Normal substitutedExpression =>
        match Function_call substitutedExpression with
        | Throw e =>
            {| valid := false; error := Some (CaughtError e);
               missingParameters := None |}
        | Normal testEval =>
            match testEval with
            | VNumber v =>
                if isFinite v then
                  {| valid := true; error := None; missingParameters := None |}
                else
                  {| valid := false; error := Some NonFiniteError;
                     missingParameters := None |}
            | VOther =>
                {| valid := false; error := Some NonFiniteError;
                   missingParameters := None |}
            end
        end
    end.

Definition formatParameterValue (param : Param) : string :=
  Number_toString (p_value param).

Record AtBound : Type := { atMin : bool; atMax : bool }.

(** The literal [1e-10] is the quotient of 1 by [1e10], rounded once. *)
Definition isParameterAtBound (param : Param) : AtBound :=
  let epsilon := lit 1 / lit 10000000000 in
  {| atMin := Math_abs (p_value param - p_min param) <? epsilon;
     atMax := Math_abs (p_value param - p_max param) <? epsilon |}.

(** The three letters beyond ASCII the detection looks for, as the bytes
    of their UTF-8 encoding: no text of ASCII characters includes them. *)
Definition letter_omega : string :=
  String (ascii_of_nat 207) (String (ascii_of_nat 137) EmptyString).
Definition letter_sigma : string :=
  String (ascii_of_nat 207) (String (ascii_of_nat 131) EmptyString).
Definition letter_hbar : string :=
  String (ascii_of_nat 226)
    (String (ascii_of_nat 132) (String (ascii_of_nat 143) EmptyString)).

(** [text.toLowerCase()]: the letters of ASCII are lowered here, and a
    text with a character beyond ASCII is left to the host. *)
Definition String_toLowerCase (text : string) : string :=
  if forallb (fun c => code c <? 128)%nat (list_ascii_of_string text)
  then toLowerCase text
  else Unicode_toLowerCase text.

Definition detectParameterType (paramName : string) : Param :=
  let lowerName := String_toLowerCase paramName in
  let includes := String_includes lowerName in
  if includes "amp" || includes "a" then
    createParameter paramName (lit 1) (lit (-5)) (lit 5) tenth
      (Some "Amplitude")
  else if includes "freq" || includes "k" then
    createParameter paramName (lit 1) (lit (-10)) (lit 10) tenth
      (Some "Frequency")
  else if includes "phase" || includes "phi" then
    createParameter paramName (lit 0) (- Math_PI * lit 2) (Math_PI * lit 2)
      tenth (Some "Phase")
  else if includes "offset" || includes "b" then
    createParameter paramName (lit 0) (lit (-10)) (lit 10) tenth
      (Some "Offset")
  else if includes "scale" || includes "c" then
    createParameter paramName (lit 1) (lit (-5)) (lit 5) tenth (Some "Scale")
  else if includes "omega" || includes letter_omega then
    createParameter paramName (lit 1) (lit 0) (lit 10) tenth
      (Some "Angular frequency")
  else if includes "sigma" || includes letter_sigma then
    createParameter paramName (lit 1) tenth (lit 10) tenth
      (Some "Standard deviation")
  else if includes "center" || includes "x0" then
    createParameter paramName (lit 0) (lit (-10)) (lit 10) tenth
      (Some "Center position")
  else if includes "mass" || String.eqb lowerName "m" then
    createParameter paramName (lit 1) tenth (lit 10) tenth (Some "Mass")
  else if includes "hbar" || includes letter_hbar then
    createParameter paramName (lit 1) tenth (lit 5) tenth
      (Some "Reduced Planck constant")
  else
    createParameter paramName (lit 1) (lit (-10)) (lit 10) tenth
      (Some "Custom parameter").

End ParameterTools.

(** ** The split-operator solver ([tdse-solver.ts]) *)

(** The FFT object of [fft.js], for an instance of size [n]: both methods
    take an interleaved array (real part, imaginary part, ...) and return
    the array they fill. *)
Class FFT {N : JSNum} : Type := {
  transform : nat -> list number -> list number;
  inverseTransform : nat -> list number -> list number
}.

(** [size | 0]: the number read as a 32-bit integer. *)
Definition ToInt32 (size : nat) : Z :=
  ((Z.of_nat size + 2 ^ 31) mod 2 ^ 32 - 2 ^ 31)%Z.

(** [new FFT(size)]: the constructor of [fft.js] keeps [size | 0] and
    throws ('FFT size must be a power of two and bigger than 1') when that
    is at most 1 or has a bit in common with its predecessor. *)
Definition FFT_new (size : nat) : completion unit :=
  let size := ToInt32 size in
  if ((size <=? 1) || negb (Z.land size (size - 1) =? 0))%Z
  then Throw InvalidFFTSize
  else Normal tt.

Section Solver.
Context {N : JSNum} {F : FFT}.
Open Scope js_scope.

Record SimulationParameters : Type := {
  gridSize : nat;
  xMin : number;
  xMax : number;
  dt : number;
  hbar : number;
  mass : number
}.

Record WavefunctionState : Type := {
  real : list number;
  imag : list number;
  time : number
}.

Record TDSESolver : Type := {
  params : SimulationParameters;
  this_x : list number;
  this_dx : number;
  this_k : list number;
  this_dk : number;
  expVhalf_real : list number;
  expVhalf_imag : list number;
  expT_real : list number;
  expT_imag : list number;
  potential : list number
}.

(** [Math.pow(2, Math.ceil(Math.log2(gridSize)))] for a grid size that is a
    natural number: the logarithm of 0 is minus infinity, and 2 to that
    power is 0. *)
Definition pow2_ceil_log2 (gridSize : nat) : nat :=
  match gridSize with
  | O => O
  | S _ => 2 ^ Nat.log2_up gridSize
  end.

Definition updateKineticOperator (this : TDSESolver) : TDSESolver :=
  let dt := dt (params this) in
  let hbar := hbar (params this) in
  let mass := mass (params this) in
  let n := gridSize (params this) in
  let '(expT_real, expT_imag) :=
    for_loop 0 n
      (fun i '(expT_real, expT_imag) =>
         let phase :=
           - hbar * get (this_k this) i * get (this_k this) i * dt
           / (lit 2 * mass) in
         (set expT_real i (Math_cos phase), set expT_imag i (Math_sin phase)))
      (expT_real this, expT_imag this) in
  {| params := params this; this_x := this_x this; this_dx := this_dx this;
     this_k := this_k this; this_dk := this_dk this;
     expVhalf_real := expVhalf_real this; expVhalf_imag := expVhalf_imag this;
     expT_real := expT_real; expT_imag := expT_imag;
     potential := potential this |}.

(** The statements of the constructor that follow the construction of the
    two FFT objects: the grids and the operators.  The two loops that fill
    [k] run over [i < n / 2] and over [n / 2 <= i < n]; for an odd size the
    second one would start at an index no typed array has. *)
Definition TDSESolver_fields (params : SimulationParameters) : TDSESolver :=
  let n := pow2_ceil_log2 (gridSize params) in
  let params :=
    {| gridSize := n; xMin := xMin params; xMax := xMax params;
       dt := dt params; hbar := hbar params; mass := mass params |} in
  let dx := (xMax params - xMin params) / of_nat n in
  let x :=
    for_loop 0 n (fun i x => set x i (xMin params + of_nat i * dx))
      (Float64Array n) in
  let dk := lit 2 * Math_PI / (xMax params - xMin params) in
  let k := Float64Array n in
  let k := for_loop 0 ((n + 1) / 2)%nat (fun i k => set k i (of_nat i * dk)) k in
  let k :=
    if Nat.even n then
      for_loop (n / 2)%nat (n - n / 2)%nat
        (fun i k => set k i ((of_nat i - of_nat n) * dk)) k
    else k in
  updateKineticOperator
    {| params := params; this_x := x; this_dx := dx; this_k := k; this_dk := dk;
       expVhalf_real := Float64Array n; expVhalf_imag := Float64Array n;
       expT_real := Float64Array n; expT_imag := Float64Array n;
       potential := Float64Array n |}.

(** [new TDSESolver(params)]: the grid size is rounded, the two FFT objects
    are constructed, which throws for a size the FFT refuses, and the
    fields are filled. *)
Definition TDSESolver_new (params : SimulationParameters)
    : completion TDSESolver :=
  let n := pow2_ceil_log2 (gridSize params) in
  match FFT_new n with            (* this.fft = new FFT(n) *)
  | Throw e => Throw e
  | Normal _ =>
      match FFT_new n with        (* this.ifft = new FFT(n) *)
      | Throw e => Throw e
      | Normal _ => Normal (TDSESolver_fields params)
      end
  end.

(** [setPotential(V)]: the solver after the call, and how the call ended. *)
Definition setPotential (this : TDSESolver) (V : list number)
    : TDSESolver * completion unit :=
  if negb (length V =? gridSize (params this))%nat then
    (this, Throw (DimensionMismatch (length V) (gridSize (params this))))
  else
    let dt := dt (params this) in
    let hbar := hbar (params this) in
    let n := gridSize (params this) in
    let '(expVhalf_real, expVhalf_imag) :=
      for_loop 0 n
        (fun i '(expVhalf_real, expVhalf_imag) =>
           let phase := - get V i * dt / (lit 2 * hbar) in
           (set expVhalf_real i (Math_cos phase),
            set expVhalf_imag i (Math_sin phase)))
        (expVhalf_real this, expVhalf_imag this) in
    ({| params := params this; this_x := this_x this; this_dx := this_dx this;
        this_k := this_k this; this_dk := this_dk this;
        expVhalf_real := expVhalf_real; expVhalf_imag := expVhalf_imag;
        expT_real := expT_real this; expT_imag := expT_imag this;
        potential := V |}, Normal tt).

(** The pointwise complex product of [psi] with the operator [(op_real,
    op_imag)], in place. *)
Definition applyOperator (n : nat) (op_real op_imag : list number)
    (psi : list number * list number) : list number * list number :=
  for_loop 0 n
    (fun i '(psi_real, psi_imag) =>
       let re := get psi_real i in
       let im := get psi_imag i in
       let c := get op_real i in
       let s := get op_imag i in
       (set psi_real i (re * c - im * s), set psi_imag i (re * s + im * c)))
    psi.

Definition applyPotentialOperator (this : TDSESolver)
    (psi : list number * list number) : list number * list number :=
  applyOperator (gridSize (params this)) (expVhalf_real this) (expVhalf_imag this)
    psi.

Definition applyKineticOperator (this : TDSESolver)
    (psi_k : list number * list number) : list number * list number :=
  applyOperator (gridSize (params this)) (expT_real this) (expT_imag this) psi_k.

(** The array of length [2 n] that holds [re[i]] at [2 i] and [im[i]] at
    [2 i + 1]. *)
Definition interleave (n : nat) (re im : list number) : list number :=
  for_loop 0 n
    (fun i a => set (set a (2 * i) (get re i)) (2 * i + 1) (get im i))
    (Float64Array (2 * n)).

(** The sum [normalize] and [getTotalProbability] accumulate. *)
Definition sum_density (n : nat) (re im : list number) : number :=
  for_loop 0 n
    (fun i norm => norm + (get re i * get re i + get im i * get im i)) (lit 0).

(** The value [normalize] divides by. *)
Definition norm_of (this : TDSESolver) (state : WavefunctionState) : number :=
  Math_sqrt
    (sum_density (gridSize (params this)) (real state) (imag state)
     * this_dx this).

(** Both arrays divided by [norm], entry by entry, in place. *)
Definition divide_by (n : nat) (norm : number) (re im : list number)
    : list number * list number :=
  for_loop 0 n
    (fun i '(re, im) => (set re i (get re i / norm), set im i (get im i / norm)))
    (re, im).

Definition normalize (this : TDSESolver) (state : WavefunctionState)
    : WavefunctionState :=
  let n := gridSize (params this) in
  let norm := norm_of this state in
  if norm >? lit 0 then
    let '(re, im) := divide_by n norm (real state) (imag state) in
    {| real := re; imag := im; time := time state |}
  else state.

(** The body of [step] up to its last statement, the call of [normalize]. *)
Definition evolve (this : TDSESolver) (state : WavefunctionState)
    : WavefunctionState :=
  let n := gridSize (params this) in
  (* Step 1: potential operator, half step *)
  let '(re, im) := applyPotentialOperator this (real state, imag state) in
  (* Step 2: to momentum space *)
  let psi_interleaved := interleave n re im in
  let psi_k := transform n psi_interleaved in
  let '(psi_k_real, psi_k_imag) :=
    for_loop 0 n
      (fun i '(kr, ki) =>
         (set kr i (get psi_k (2 * i)), set ki i (get psi_k (2 * i + 1))))
      (Float64Array n, Float64Array n) in
  (* Step 3: kinetic operator *)
  let '(psi_k_real, psi_k_imag) :=
    applyKineticOperator this (psi_k_real, psi_k_imag) in
  (* Step 4: back to position space *)
  let psi_k_interleaved := interleave n psi_k_real psi_k_imag in
  let psi_out := inverseTransform n psi_k_interleaved in
  let '(re, im) :=
    for_loop 0 n
      (fun i '(re, im) =>
         (set re i (get psi_out (2 * i) / of_nat n),
          set im i (get psi_out (2 * i + 1) / of_nat n)))
      (re, im) in
  (* Step 5: potential operator, half step *)
  let '(re, im) := applyPotentialOperator this (re, im) in
  {| real := re; imag := im; time := time state + dt (params this) |}.

Definition step (this : TDSESolver) (state : WavefunctionState)
    : WavefunctionState :=
  normalize this (evolve this state).

Definition getProbabilityDensity (this : TDSESolver) (state : WavefunctionState)
    : list number :=
  let n := gridSize (params this) in
  for_loop 0 n
    (fun i prob =>
       set prob i (get (real state) i * get (real state) i
                   + get (imag state) i * get (imag state) i))
    (Float64Array n).

Definition getTotalProbability (this : TDSESolver) (state : WavefunctionState)
    : number :=
  sum_density (gridSize (params this)) (real state) (imag state) * this_dx this.

(** [getEnergy(state)]: the kinetic part from the transform of the state,
    the potential part from the stored potential. *)
Definition getEnergy (this : TDSESolver) (state : WavefunctionState) : number :=
  let n := gridSize (params this) in
  let hbar := hbar (params this) in
  let mass := mass (params this) in
  let psi_interleaved := interleave n (real state) (imag state) in
  let psi_k := transform n psi_interleaved in
  let kineticEnergy :=
    for_loop 0 n
      (fun i kineticEnergy =>
         let re := get psi_k (2 * i) / of_nat n in
         let im := get psi_k (2 * i + 1) / of_nat n in
         kineticEnergy
         + (re * re + im * im) * hbar * hbar
           * get (this_k this) i * get (this_k this) i / (lit 2 * mass))
      (lit 0) in
  let kineticEnergy := kineticEnergy * this_dx this in
  let potentialEnergy :=
    for_loop 0 n
      (fun i potentialEnergy =>
         let prob :=
           get (real state) i * get (real state) i
           + get (imag state) i * get (imag state) i in
         potentialEnergy + prob * get (potential this) i)
      (lit 0) in
  let potentialEnergy := potentialEnergy * this_dx this in
  kineticEnergy + potentialEnergy.

(** [checkBoundaries(state, threshold)].  The number of points looked at
    from each edge is [Math.floor(n * 0.1)]: for a grid size [n] below
    [2^49] that is the integer quotient of [n] by 10, because the number
    [0.1] exceeds one tenth by less than one part in [2^54]. *)
Definition checkBoundaries (this : TDSESolver) (state : WavefunctionState)
    (threshold : number) : bool :=
  let n := gridSize (params this) in
  let boundarySize := (n / 10)%nat in
  let boundaryProb :=
    for_loop 0 boundarySize
      (fun i boundaryProb =>
         let boundaryProb :=
           boundaryProb
           + (get (real state) i * get (real state) i
              + get (imag state) i * get (imag state) i) in
         let j := (n - 1 - i)%nat in
         boundaryProb
         + (get (real state) j * get (real state) j
            + get (imag state) j * get (imag state) j))
      (lit 0) in
  let boundaryProb := boundaryProb * this_dx this in
  boundaryProb >? threshold.

End Solver.

(** ** The wavefunction initializers ([tdse-solver.ts]) *)

Section Initializers.
Context {N : JSNum} {F : FFT} {H : Host}.
Open Scope js_scope.

Definition createGaussianWavepacket (solver : TDSESolver) (x0 sigma k0 : number)
    : WavefunctionState :=
  let n := length (this_x solver) in
  let '(re, im) :=
    for_loop 0 n
      (fun i '(re, im) =>
         let x := get (this_x solver) i in
         let gaussian :=
           Math_exp (- Math_pow (x - x0) 2 / (lit 4 * sigma * sigma)) in
         (set re i (gaussian * Math_cos (k0 * x)),
          set im i (gaussian * Math_sin (k0 * x))))
      (Float64Array n, Float64Array n) in
  let norm := Math_sqrt (sum_density n re im * this_dx solver) in
  let '(re, im) := divide_by n norm re im in
  {| real := re; imag := im; time := lit 0 |}.

Definition createPlaneWave (solver : TDSESolver) (amplitude k0 : number)
    : WavefunctionState :=
  let n := length (this_x solver) in
  let '(re, im) :=
    for_loop 0 n
      (fun i '(re, im) =>
         let x := get (this_x solver) i in
         (set re i (amplitude * Math_cos (k0 * x)),
          set im i (amplitude * Math_sin (k0 * x))))
      (Float64Array n, Float64Array n) in
  let norm := Math_sqrt (sum_density n re im * this_dx solver) in
  let '(re, im) := divide_by n norm re im in
  {| real := re; imag := im; time := lit 0 |}.

Definition createBoundState (solver : TDSESolver) (n L : number)
    : WavefunctionState :=
  let nPoints := length (this_x solver) in
  let '(re, im) :=
    for_loop 0 nPoints
      (fun i '(re, im) =>
         let x := get (this_x solver) i in
         if (x >? lit 0) && (x <? L) then
           (set re i (Math_sqrt (lit 2 / L) * Math_sin (n * Math_PI * x / L)),
            set im i (lit 0))
         else (set re i (lit 0), set im i (lit 0)))
      (Float64Array nPoints, Float64Array nPoints) in
  let norm := Math_sqrt (sum_density nPoints re im * this_dx solver) in
  let '(re, im) := divide_by nPoints norm re im in
  {| real := re; imag := im; time := lit 0 |}.

Definition is_blank (s : string) : bool := String.eqb (trim s) "".

(** The functions of [Math] the wavefunction evaluator renames, in the
    order of its replacements. *)
Definition wavefunction_calls : list (string * string) :=
  [("sin", "Math.sin("); ("cos", "Math.cos("); ("tan", "Math.tan(");
   ("sinh", "Math.sinh("); ("cosh", "Math.cosh("); ("tanh", "Math.tanh(");
   ("exp", "Math.exp("); ("sqrt", "Math.sqrt("); ("abs", "Math.abs(");
   ("log", "Math.log("); ("ln", "Math.log(")]%string.

Definition rename_calls (calls : list (string * string)) (evalExpr : string)
    : string :=
  fold_left (fun e fm => String_replace e (call_of (fst fm)) (snd fm)) calls
    evalExpr.

(** [/\bpi\b/gi] *)
Definition pi_pattern : regex :=
  Seq WordB
    (Seq (Cls (fun c => Ascii.eqb (toLowerCase_char c) "p"))
       (Seq (Cls (fun c => Ascii.eqb (toLowerCase_char c) "i")) WordB)).

Definition parens (v : number) : string :=
  ("(" ++ Number_toString v ++ ")")%string.

(** The replacements the evaluator of [parseComplexFunction] makes in
    [evalExpr], the expression after the substitution of the parameters,
    at [x = xVal], [t = tVal]. *)
Definition wavefunction_replacements (evalExpr : string) (xVal tVal : number)
    : string :=
  let evalExpr := String_replace evalExpr (whole_word "x") (parens xVal) in
  let evalExpr := String_replace evalExpr (whole_word "t") (parens tVal) in
  let evalExpr := String_replace evalExpr (whole_word "i") "(1)" in
  let evalExpr := String_replace evalExpr (Chr "^") "**" in
  let evalExpr := rename_calls wavefunction_calls evalExpr in
  let evalExpr := String_replace evalExpr pi_pattern "Math.PI" in
  String_replace evalExpr (whole_word "e") "Math.E".

(** The text the evaluator hands to the host for [expr]; the substitution
    of the parameters may throw. *)
Definition wavefunction_text (parameters : ParameterSet) (expr : string)
    (xVal tVal : number) : completion string :=
  match substituteParameters expr parameters with
  | Throw e => Throw e
  | Normal evalExpr => Normal (wavefunction_replacements evalExpr xVal tVal)
  end.

(** [typeof result !== 'number' || !isFinite(result)] throws. *)
Definition finite_number (result : JSValue) : completion number :=
  match result with
  | VNumber v => if isFinite v then Normal v else Throw NonFiniteResult
  | VOther => Throw NonFiniteResult
  end.

(** The [safeEval] of [parseComplexFunction]: whatever is thrown inside is
    caught and thrown again inside a new error. *)
Definition safeEval_wavefunction (parameters : ParameterSet) (expr : string)
    (xVal tVal : number) : completion number :=
  if is_blank expr then Normal (lit 0)
  else
    match wavefunction_text parameters expr xVal tVal with
    | Throw e => Throw (FailedToEvaluate e)
    | Normal evalExpr =>
        match Function_call evalExpr with
        | Throw e => Throw (FailedToEvaluate e)
        | Normal result =>
            match finite_number result with
            | Normal v => Normal v
            | Throw e => Throw (FailedToEvaluate e)
            end
        end
    end.

Definition parseComplexFunction (realExpr imagExpr : string) (x t : number)
    (parameters : ParameterSet) : completion (number * number) :=
  match (if is_blank realExpr then Normal (lit 0)
         else safeEval_wavefunction parameters realExpr x t) with
  | Throw e => Throw e
  | Normal real =>
      match (if is_blank imagExpr then Normal (lit 0)
             else safeEval_wavefunction parameters imagExpr x t) with
      | Throw e => Throw e
      | Normal imag => Normal (real, imag)
      end
  end.

Definition createCustomWavefunction (solver : TDSESolver)
    (realExpr imagExpr : string) (parameters : ParameterSet)
    : WavefunctionState :=
  let n := length (this_x solver) in
  let '(re, im) :=
    for_loop 0 n
      (fun i '(re, im) =>
         let x := get (this_x solver) i in
         match parseComplexFunction realExpr imagExpr x (lit 0) parameters with
         | Normal (real, imag) => (set re i real, set im i imag)
         | Throw _ => (set re i (lit 0), set im i (lit 0))
         end)
      (Float64Array n, Float64Array n) in
  let norm := Math_sqrt (sum_density n re im * this_dx solver) in
  if norm >? lit 0 then
    let '(re, im) := divide_by n norm re im in
    {| real := re; imag := im; time := lit 0 |}
  else {| real := re; imag := im; time := lit 0 |}.

End Initializers.

(** ** The potential generators ([potentials.ts]) *)

Inductive PotentialType : Type :=
| free | barrier | well | harmonic | custom_function | custom_draw.

Section Potentials.
Context {N : JSNum} {H : Host}.
Open Scope js_scope.

(** A control point [{ x, y }] of a drawn potential. *)
Record Point : Type := { pt_x : number; pt_y : number }.

Record PotentialConfig : Type := {
  type : PotentialType;
  v0 : option number;
  x0 : option number;
  width : option number;
  omega : option number;
  customFunction : option string;
  customPoints : option (list Point)
}.

(** [value ?? default] *)
Definition or_default {A : Type} (value : option A) (default : A) : A :=
  match value with Some v => v | None => default end.

Definition createFreePotential (x : list number) : list number :=
  Float64Array (length x).

Definition createBarrierPotential (x : list number) (v0 x0 width : number)
    : list number :=
  let halfWidth := width / lit 2 in
  for_loop 0 (length x)
    (fun i V =>
       if Math_abs (get x i - x0) <? halfWidth then set V i v0
       else set V i (lit 0))
    (Float64Array (length x)).

Definition createWellPotential (x : list number) (v0 x0 width : number)
    : list number :=
  let halfWidth := width / lit 2 in
  for_loop 0 (length x)
    (fun i V =>
       if Math_abs (get x i - x0) <? halfWidth then set V i (- v0)
       else set V i (lit 0))
    (Float64Array (length x)).

Definition createHarmonicPotential (x : list number) (mass omega x0 : number)
    : list number :=
  for_loop 0 (length x)
    (fun i V =>
       let dx := get x i - x0 in
       set V i (half * mass * omega * omega * dx * dx))
    (Float64Array (length x)).

(** The functions of [Math] the potential evaluator renames, in the order
    of its replacements. *)
Definition potential_calls : list (string * string) :=
  [("sin", "Math.sin("); ("cos", "Math.cos("); ("tan", "Math.tan(");
   ("exp", "Math.exp("); ("sqrt", "Math.sqrt("); ("abs", "Math.abs(");
   ("log", "Math.log("); ("ln", "Math.log(");
   ("sinh", "Math.sinh("); ("cosh", "Math.cosh("); ("tanh", "Math.tanh(")]%string.

(** The replacements the evaluator of [createCustomFunctionPotential]
    makes in [evalExpr], the expression after the substitution of the
    parameters, at [x = xVal]. *)
Definition potential_replacements (evalExpr : string) (xVal : number) : string :=
  let evalExpr := String_replace evalExpr (whole_word "x") (parens xVal) in
  let evalExpr := String_replace evalExpr (Chr "^") "**" in
  let evalExpr := rename_calls potential_calls evalExpr in
  let evalExpr := String_replace evalExpr pi_pattern "Math.PI" in
  String_replace evalExpr (whole_word "e") "Math.E".

(** The text the evaluator hands to the host for [expr] at [x = xVal]; the
    substitution of the parameters may throw. *)
Definition potential_text (parameters : ParameterSet) (expr : string)
    (xVal : number) : completion string :=
  match substituteParameters expr parameters with
  | Throw e => Throw e
  | Normal evalExpr => Normal (potential_replacements evalExpr xVal)
  end.

(** [/^[\d\s\+\-\*\/\.\(\)\w\^\s]*$/] *)
Definition safe_characters : regex :=
  Seq Bol
    (Seq (Star (Cls (fun c =>
                  is_digit c || is_space c || is_word_char c
                  || existsb (Ascii.eqb c)
                       ["+"; "-"; "*"; "/"; "."; "("; ")"; "^"]%char)))
       Eol).

(** The [safeEval] of [createCustomFunctionPotential]: what is thrown
    inside is logged and thrown again as it is. *)
Definition safeEval_potential (parameters : ParameterSet) (expr : string)
    (xVal : number) : completion number :=
  if is_blank expr then Throw EmptyExpression
  else
    match potential_text parameters expr xVal with
    | Throw e => Throw e
    | Normal evalExpr =>
        if negb (RegExp_test safe_characters evalExpr) then
          Throw InvalidCharacters
        else
          match Function_call evalExpr with
          | Throw e => Throw e
          | Normal result => finite_number result
          end
    end.

Definition createCustomFunctionPotential (x : list number)
    (functionString : string) (parameters : ParameterSet)
    : completion (list number) :=
  for_loop_try 0 (length x)
    (fun i V =>
       match safeEval_potential parameters functionString (get x i) with
       | Normal v => Normal (set V i v)
       | Throw error => Throw (FailedToEvaluate error)
       end)
    (Float64Array (length x)).

(** [list.sort(cmp)]: the stable sort, by insertion of each element after
    the elements that do not compare greater. *)
Fixpoint sort_insert {A : Type} (cmp : A -> A -> number) (e : A) (l : list A)
    : list A :=
  match l with
  | [] => [e]
  | y :: t =>
      if cmp y e >? lit 0 then e :: y :: t else y :: sort_insert cmp e t
  end.

Definition Array_sort {A : Type} (cmp : A -> A -> number) (l : list A) : list A :=
  fold_left (fun sorted e => sort_insert cmp e sorted) l [].

(** The search loop of [createDrawnPotential]: the first [j] with
    [sortedPoints[j].x <= xi <= sortedPoints[j + 1].x], counted from [j]. *)
Fixpoint find_segment (xi : number) (sortedPoints : list Point) (j : nat)
    : option nat :=
  match sortedPoints with
  | p :: ((q :: _) as rest) =>
      if (xi >=? pt_x p) && (xi <=? pt_x q) then Some j
      else find_segment xi rest (S j)
  | _ => None
  end.

Definition point_at (points : list Point) (j : nat) : Point :=
  nth j points {| pt_x := NaN; pt_y := NaN |}.

(** The value [createDrawnPotential] assigns to [V[i]] at [xi = x[i]]: the
    body of its loop. *)
Definition drawn_value (sortedPoints : list Point) (xi : number) : number :=
  let last := (length sortedPoints - 1)%nat in
  let '(leftIdx, rightIdx) :=
    match find_segment xi sortedPoints 0 with
    | Some j => (j, S j)
    | None => (O, last)
    end in
  if xi <=? pt_x (point_at sortedPoints 0) then pt_y (point_at sortedPoints 0)
  else if xi >=? pt_x (point_at sortedPoints last) then
    pt_y (point_at sortedPoints last)
  else
    let x1 := pt_x (point_at sortedPoints leftIdx) in
    let x2 := pt_x (point_at sortedPoints rightIdx) in
    let y1 := pt_y (point_at sortedPoints leftIdx) in
    let y2 := pt_y (point_at sortedPoints rightIdx) in
    let t := (xi - x1) / (x2 - x1) in
    y1 + t * (y2 - y1).

Definition createDrawnPotential (x : list number) (points : list Point)
    : list number :=
  let V := Float64Array (length x) in
  if (length points =? 0)%nat then V
  else
    let sortedPoints := Array_sort (fun a b => pt_x a - pt_x b) points in
    for_loop 0 (length x)
      (fun i V => set V i (drawn_value sortedPoints (get x i))) V.

(** [generatePotential(x, config, mass, parameters)] *)
Definition generatePotential (x : list number) (config : PotentialConfig)
    (mass : number) (parameters : ParameterSet) : completion (list number) :=
  match type config with
  | free => Normal (createFreePotential x)
  | barrier =>
      Normal (createBarrierPotential x (or_default (v0 config) (lit 5))
                (or_default (x0 config) (lit 0))
                (or_default (width config) (lit 2)))
  | well =>
      Normal (createWellPotential x (or_default (v0 config) (lit 5))
                (or_default (x0 config) (lit 0))
                (or_default (width config) (lit 2)))
  | harmonic =>
      Normal (createHarmonicPotential x mass (or_default (omega config) (lit 1))
                (or_default (x0 config) (lit 0)))
  | custom_function =>
      match customFunction config with
      | None => Throw CustomFunctionNotProvided
      | Some f =>
          if String.eqb f "" then Throw CustomFunctionNotProvided
          else createCustomFunctionPotential x f parameters
      end
  | custom_draw =>
      match customPoints config with
      | None => Normal (createFreePotential x)
      | Some points =>
          if (length points =? 0)%nat then Normal (createFreePotential x)
          else Normal (createDrawnPotential x points)
      end
  end.

    (* the message of the error that was caught *)







End Potentials.

(** ** The wavefunction utilities ([wavefunctions.ts]) *)

Module Wavefunctions.
Section Wavefunctions.
Context {N : JSNum} {H : Host}.
Open Scope string_scope.

(** The functions of [Math] the evaluator renames, in the order of its
    replacements. *)
Definition calls : list (string * string) :=
  [("sin", "Math.sin("); ("cos", "Math.cos("); ("tan", "Math.tan(");
   ("exp", "Math.exp("); ("sqrt", "Math.sqrt("); ("abs", "Math.abs(");
   ("log", "Math.log("); ("ln", "Math.log(");
   ("sinh", "Math.sinh("); ("cosh", "Math.cosh("); ("tanh", "Math.tanh(")].

(** The replacements [safeEval] makes in [evalExpr], the expression after
    the substitution of the parameters, at [x = xVal], [t = tVal]. *)
Definition replacements (evalExpr : string) (xVal tVal : number) : string :=
  let evalExpr := String_replace evalExpr (whole_word "x") (parens xVal) in
  let evalExpr := String_replace evalExpr (whole_word "t") (parens tVal) in
  let evalExpr := String_replace evalExpr (whole_word "i") "(1)" in
  let evalExpr := String_replace evalExpr (Chr "^") "**" in
  let evalExpr := rename_calls calls evalExpr in
  let evalExpr := String_replace evalExpr pi_pattern "Math.PI" in
  String_replace evalExpr (whole_word "e") "Math.E".

(** The text [safeEval] hands to the host for [expr]; the substitution of
    the parameters may throw. *)
Definition text (parameters : ParameterSet) (expr : string)
    (xVal tVal : number) : completion string :=
  match substituteParameters expr parameters with
  | Throw e => Throw e
  | Normal evalExpr => Normal (replacements evalExpr xVal tVal)
  end.

(** The [safeEval] of this file: what is thrown inside is logged and thrown
    again as it is. *)
Definition safeEval (parameters : ParameterSet) (expr : string)
    (xVal tVal : number) : completion number :=
  if is_blank expr then Throw EmptyExpression
  else
    match text parameters expr xVal tVal with
    | Throw e => Throw e
    | Normal evalExpr =>
        if negb (RegExp_test safe_characters evalExpr) then
          Throw InvalidCharacters
        else
          match Function_call evalExpr with
          | Throw e => Throw e
          | Normal result => finite_number result
          end
    end.

(** What the body of [parseComplexFunction] throws before it is wrapped. *)
Inductive Cause : Type :=
| NoComponent
    (* 'At least one component (real or imaginary) must be specified' *)
| OfSafeEval (e : JSError).

(** How a call of [parseComplexFunction] ends: with [{ real, imag }], or
    with the error
    [`Failed to evaluate wavefunction at x=${x}, t=${t}: ${error}`]. *)
Inductive Parsed : Type :=
| Returned (real imag : number)
| Failed (error : Cause).

Definition parseComplexFunction (realExpr imagExpr : string) (x t : number)
    (parameters : ParameterSet) : Parsed :=
  if negb (is_blank realExpr) && negb (is_blank imagExpr) then
    match safeEval parameters realExpr x t with
    | Throw e => Failed (OfSafeEval e)
    | Normal real =>
        match safeEval parameters imagExpr x t with
        | Throw e => Failed (OfSafeEval e)
        | Normal imag => Returned real imag
        end
    end
  else if negb (is_blank realExpr) then
    match safeEval parameters realExpr x t with
    | Throw e => Failed (OfSafeEval e)
    | Normal real => Returned real (lit 0)
    end
  else if negb (is_blank imagExpr) then
    match safeEval parameters imagExpr x t with
    | Throw e => Failed (OfSafeEval e)
    | Normal imag => Returned (lit 0) imag
    end
  else Failed NoComponent.

(** The text of the field [error] of a validation result. *)
Inductive WavefunctionError : Type :=
| NothingSpecified
    (* 'At least one component (real or imaginary) must be specified' *)
| NotFiniteValuesAt (testX : number)
    (* `Wavefunction does not evaluate to finite values at x=${testX}` *)
| InvalidAt (testX : number) (error : Cause).
    (* `Invalid expression at x=${testX}: ${error}` *)

Record WavefunctionValidation : Type := {
  valid : bool;
  error : option WavefunctionError;
  examples : list string
}.

Definition examples_invalid : list string :=
  ["exp(-x^2/2)"; "exp(i*x)"; "exp(-x^2/2)*exp(i*x)"; "A*exp(-x^2/2)";
   "A*cos(k*x)"].

Definition examples_valid : list string :=
  ["exp(-x^2/2)"; "exp(i*x)"; "exp(-x^2/2)*exp(i*x)";
   "sqrt(2)*sin(n*pi*x/L)"; "A*exp(-x^2/2)";
   "A*exp(-(x-x0)^2/(2*sigma^2))"; "A*cos(k*x+phi)"].

(** The sample values [[0, 1, -1, 0.5]]. *)
Definition testValues : list number := [lit 0; lit 1; lit (-1); half].

(** The loop of [validateWavefunctionFunctions] over the sample values. *)
Fixpoint validate_wavefunction_samples (realExpr imagExpr : string)
    (parameters : ParameterSet) (samples : list number)
    : WavefunctionValidation :=
  match samples with
  | [] => {| valid := true; error := None; examples := examples_valid |}
  | testX :: rest =>
      match parseComplexFunction realExpr imagExpr testX (lit 0) parameters with
      | Returned real imag =>
          if negb (isFinite real) || negb (isFinite imag) then
            {| valid := false; error := Some (NotFiniteValuesAt testX);
               examples := examples_invalid |}
          else validate_wavefunction_samples realExpr imagExpr parameters rest
      | Failed e =>
          {| valid := false; error := Some (InvalidAt testX e);
             examples := examples_invalid |}
      end
  end.

(** [!realExpr && !imagExpr] is the test that both texts are empty; a text
    of spaces passes it. *)
Definition validateWavefunctionFunctions (realExpr imagExpr : string)
    (parameters : ParameterSet) : WavefunctionValidation :=
  if String.eqb realExpr "" && String.eqb imagExpr "" then
    {| valid := false; error := Some NothingSpecified;
       examples := examples_invalid |}
  else validate_wavefunction_samples realExpr imagExpr parameters testValues.

End Wavefunctions.
End Wavefunctions.

(** * Properties *)

(** ** Arrays and loops *)

Section ArrayFacts.
Context {N : JSNum}.

Lemma length_Float64Array n : length (Float64Array n) = n.
Proof. apply repeat_length. Qed.

Lemma get_Float64Array n i : i < n -> get (Float64Array n) i = lit 0.
Proof.
  intros Hi. unfold get, Float64Array.
  rewrite nth_repeat_lt by exact Hi. reflexivity.
Qed.

Lemma length_set (a : list number) i v : length (set a i v) = length a.
Proof.
  revert i; induction a as [|h t IH]; intros [|j]; simpl; auto.
Qed.

Lemma get_set_same (a : list number) i v :
  i < length a -> get (set a i v) i = v.
Proof.
  unfold get. revert i; induction a as [|h t IH]; intros [|j]; simpl; intros Hi;
    try lia; auto.
  apply IH; lia.
Qed.

Lemma get_set_other (a : list number) i j v :
  i <> j -> get (set a i v) j = get a j.
Proof.
  unfold get. revert i j; induction a as [|h t IH]; intros [|i] [|j]; simpl;
    intros Hij; try congruence; auto.
Qed.

Lemma for_loop_S {S : Type} lo n (body : nat -> S -> S) s :
  for_loop lo (Datatypes.S n) body s = body (lo + n) (for_loop lo n body s).
Proof.
  unfold for_loop. rewrite seq_S, fold_left_app. reflexivity.
Qed.

(** The induction principle of a counting loop: an invariant [P j s] of the
    variables after [j] iterations. *)
Lemma for_loop_ind {S : Type} (P : nat -> S -> Prop) lo n
    (body : nat -> S -> S) s :
  P 0 s ->
  (forall j t, j < n -> P j t -> P (Datatypes.S j) (body (lo + j) t)) ->
  P n (for_loop lo n body s).
Proof.
  intros H0 Hstep. induction n as [|n IH].
  - exact H0.
  - rewrite for_loop_S. apply Hstep; [lia|]. apply IH.
    intros j t Hj. apply Hstep. lia.
Qed.

(** A loop that assigns [a[i] = f i] for [lo <= i < lo + n] keeps the
    length of [a], sets those entries and leaves the others. *)
Lemma fill_loop (f : nat -> number) lo n (a : list number) :
  lo + n <= length a ->
  let a' := for_loop lo n (fun i a => set a i (f i)) a in
  length a' = length a /\
  (forall i, lo <= i < lo + n -> get a' i = f i) /\
  (forall i, ~ lo <= i < lo + n -> get a' i = get a i).
Proof.
  intros Hlen. cbv zeta.
  apply (for_loop_ind
           (fun j b => length b = length a /\
                       (forall i, lo <= i < lo + j -> get b i = f i) /\
                       (forall i, ~ lo <= i < lo + j -> get b i = get a i))).
  - repeat split; auto. intros i Hi. lia.
  - intros j b Hj (Hl & Hin & Hout). repeat split.
    + rewrite length_set. exact Hl.
    + intros i Hi. destruct (Nat.eq_dec i (lo + j)) as [->|Hne].
      * apply get_set_same. lia.
      * rewrite get_set_other by congruence. apply Hin. lia.
    + intros i Hi. rewrite get_set_other by lia. apply Hout. lia.
Qed.

End ArrayFacts.

(** ** Parameters: clamping *)

Section ParameterFacts.
#[local] Existing Instance Exact.
Open Scope R_scope.

(** What [Math.max(lo, Math.min(hi, v))] is when [lo <= hi]. *)
Lemma clamp_cases (lo hi v : R) :
  lo <= hi ->
  lo <= Rmax lo (Rmin hi v) <= hi /\
  (lo <= v <= hi -> Rmax lo (Rmin hi v) = v) /\
  (v < lo -> Rmax lo (Rmin hi v) = lo) /\
  (hi < v -> Rmax lo (Rmin hi v) = hi).
Proof.
  intros Hle. unfold Rmax, Rmin.
  destruct (Rle_dec hi v); destruct (Rle_dec lo hi); destruct (Rle_dec lo v);
    repeat split; intros; lra.
Qed.

(** C9, as the code has it.  For a parameter whose range is not empty
    ([min <= max]), [updateParameter] returns a parameter whose value is
    the new value clamped into the range (the new value itself when it is
    inside, the nearer bound when it is outside) and whose name, bounds,
    step and description are those of the argument; and a parameter made
    by [createParameter] with [min <= max] has its value inside its range
    as well. *)
Theorem updateParameter_clamps (p : Param) (v : R) :
  p_min p <= p_max p ->
  let q := updateParameter p v in
  (p_min p <= p_value q <= p_max p) /\
  (p_min p <= v <= p_max p -> p_value q = v) /\
  (v < p_min p -> p_value q = p_min p) /\
  (p_max p < v -> p_value q = p_max p) /\
  p_name q = p_name p /\ p_min q = p_min p /\ p_max q = p_max p /\
  p_step q = p_step p /\ p_description q = p_description p /\
  (forall name value step description,
     let c := createParameter name value (p_min p) (p_max p) step description in
     p_min c <= p_value c <= p_max c).
Proof.
  intros Hle q.
  destruct (clamp_cases (p_min p) (p_max p) v Hle) as (Hin & Hmid & Hlo & Hhi).
  split; [exact Hin|]. split; [exact Hmid|]. split; [exact Hlo|].
  split; [exact Hhi|]. repeat (split; [reflexivity|]).
  intros name value step description c. simpl.
  apply (clamp_cases (p_min p) (p_max p) value Hle).
Qed.

Definition amplitude_preset : Param :=
  createParameter "A" 1 (-5) 5 (1 / 10) (Some "Amplitude parameter"%string).

Lemma updateParameter_clamps_witness :
  p_value (updateParameter amplitude_preset 7) = 5.
Proof.
  assert (Hle : p_min amplitude_preset <= p_max amplitude_preset)
    by (simpl; lra).
  destruct (updateParameter_clamps amplitude_preset 7 Hle)
    as (_ & _ & _ & Hhi & _).
  apply Hhi. simpl. lra.
Defined.

(** C9 as it is stated fails for a range that is empty: no value lies in
    it, and the clamp returns its lower bound. *)
Definition inverted_range : Param :=
  createParameter "A" 1 10 (-10) (1 / 10) None.

Lemma clamp_inverted_range :
  p_value inverted_range = 10 /\
  ~ (p_min inverted_range <= p_value inverted_range <= p_max inverted_range) /\
  p_value (updateParameter inverted_range 0) = 10 /\
  ~ (p_min inverted_range
     <= p_value (updateParameter inverted_range 0)
     <= p_max inverted_range).
Proof.
  assert (E1 : Rmax 10 (Rmin (-10) 1) = 10).
  { unfold Rmax, Rmin.
    destruct (Rle_dec (-10) 1); destruct (Rle_dec 10 (-10));
      try destruct (Rle_dec 10 1); lra. }
  assert (E2 : Rmax 10 (Rmin (-10) 0) = 10).
  { unfold Rmax, Rmin.
    destruct (Rle_dec (-10) 0); destruct (Rle_dec 10 (-10));
      try destruct (Rle_dec 10 0); lra. }
  simpl. rewrite E1, E2. repeat split; try lra.
Qed.

End ParameterFacts.

(** ** The solver: construction and [setPotential] *)

(** [loop_invariant P]: for the first loop of the goal, the invariant [P]
    holds when it ends, once it is shown to hold at the start and to be kept
    by an iteration. *)
Ltac loop_invariant P :=
  match goal with
  | |- context [for_loop ?lo ?n ?body ?s] =>
      let Hloop := fresh "Hloop" in
      assert (Hloop : P n (for_loop lo n body s));
      [apply (for_loop_ind P lo n body s) | ]
  end.

Section SolverFacts.
Context {N : JSNum}.
Open Scope nat_scope.

Lemma length_fill (g : nat -> list number -> number) lo n (a : list number) :
  length (for_loop lo n (fun i a => set a i (g i a)) a) = length a.
Proof.
  apply (for_loop_ind (fun _ b => length b = length a)); [reflexivity|].
  intros j b _ Hb. rewrite length_set. exact Hb.
Qed.

(** The arrays of a solver all have the length of its grid. *)
Definition solver_wf (this : TDSESolver) : Prop :=
  let n := gridSize (params this) in
  length (this_x this) = n /\ length (this_k this) = n /\
  length (expVhalf_real this) = n /\ length (expVhalf_imag this) = n /\
  length (expT_real this) = n /\ length (expT_imag this) = n /\
  length (potential this) = n.

Lemma updateKineticOperator_frame (this : TDSESolver) :
  let this' := updateKineticOperator this in
  params this' = params this /\ this_x this' = this_x this /\
  this_dx this' = this_dx this /\ this_k this' = this_k this /\
  this_dk this' = this_dk this /\
  expVhalf_real this' = expVhalf_real this /\
  expVhalf_imag this' = expVhalf_imag this /\
  potential this' = potential this /\
  length (expT_real this') = length (expT_real this) /\
  length (expT_imag this') = length (expT_imag this).
Proof.
  unfold updateKineticOperator.
  loop_invariant (fun (_ : nat) (ab : list number * list number) =>
    length (fst ab) = length (expT_real this) /\
    length (snd ab) = length (expT_imag this)).
  - split; reflexivity.
  - intros j [a b] _ [Ha Hb]. simpl in *. rewrite !length_set. auto.
  - destruct (for_loop _ _ _ _) as [re im]. simpl in *.
    destruct Hloop as [Hr Hi]. repeat split; assumption.
Qed.

Lemma TDSESolver_fields_gridSize (p : SimulationParameters) :
  gridSize (params (TDSESolver_fields p)) = pow2_ceil_log2 (gridSize p).
Proof.
  unfold TDSESolver_fields.
  match goal with |- context [updateKineticOperator ?s] =>
    destruct (updateKineticOperator_frame s) as (-> & _) end.
  reflexivity.
Qed.

Lemma TDSESolver_fields_wf (p : SimulationParameters) : solver_wf (TDSESolver_fields p).
Proof.
  unfold solver_wf. rewrite TDSESolver_fields_gridSize.
  unfold TDSESolver_fields.
  set (n := pow2_ceil_log2 (gridSize p)).
  match goal with |- context [updateKineticOperator ?s] => set (s0 := s) end.
  destruct (updateKineticOperator_frame s0)
    as (_ & -> & _ & -> & _ & -> & -> & -> & -> & ->).
  subst s0. cbn [this_x this_k expVhalf_real expVhalf_imag expT_real expT_imag
                 potential].
  rewrite !length_Float64Array.
  split; [rewrite length_fill; apply length_Float64Array|].
  split; [|repeat split; reflexivity].
  destruct (Nat.even n); rewrite !length_fill; apply length_Float64Array.
Qed.

Lemma pow2_ceil_log2_spec (g : nat) :
  1 <= g ->
  pow2_ceil_log2 g = 2 ^ Nat.log2_up g /\ g <= pow2_ceil_log2 g /\
  (forall e, g <= 2 ^ e -> pow2_ceil_log2 g <= 2 ^ e).
Proof.
  intros Hg. destruct g as [|g']; [lia|]. cbn [pow2_ceil_log2].
  split; [reflexivity|]. split.
  - destruct (Nat.eq_dec (S g') 1) as [->|Hne]; [simpl; lia|].
    apply Nat.log2_up_spec. lia.
  - intros e He. apply Nat.pow_le_mono_r; [lia|].
    apply Nat.log2_up_le_pow2; [lia|exact He].
Qed.

(** *** What the FFT constructor accepts *)

Lemma ToInt32_small (size : nat) :
  (Z.of_nat size < 2 ^ 31)%Z -> ToInt32 size = Z.of_nat size.
Proof.
  intros Hs. unfold ToInt32.
  rewrite Z.mod_small; [ring|]. split; [lia|].
  change (2 ^ 32)%Z with (2 ^ 31 + 2 ^ 31)%Z. lia.
Qed.

Lemma Z_of_nat_pow2 (e : nat) : Z.of_nat (2 ^ e) = (2 ^ Z.of_nat e)%Z.
Proof. rewrite Nat2Z.inj_pow. reflexivity. Qed.

Lemma FFT_new_small (size : nat) :
  size <= 1 -> FFT_new size = Throw InvalidFFTSize.
Proof.
  intros Hs. unfold FFT_new. cbv zeta.
  rewrite ToInt32_small by (change (2 ^ 31)%Z with 2147483648%Z; lia).
  replace (Z.of_nat size <=? 1)%Z with true by (symmetry; apply Z.leb_le; lia).
  reflexivity.
Qed.

Lemma FFT_new_pow2 (e : nat) :
  1 <= e <= 30 -> FFT_new (2 ^ e) = Normal tt.
Proof.
  intros He. unfold FFT_new. cbv zeta.
  assert (Hlt : (2 ^ Z.of_nat e < 2 ^ 31)%Z)
    by (apply Z.pow_lt_mono_r; lia).
  assert (Hgt : (2 ^ 1 <= 2 ^ Z.of_nat e)%Z)
    by (apply Z.pow_le_mono_r; lia).
  rewrite ToInt32_small by (rewrite Z_of_nat_pow2; exact Hlt).
  rewrite Z_of_nat_pow2.
  replace (2 ^ Z.of_nat e <=? 1)%Z with false
    by (symmetry; apply Z.leb_gt; change (2 ^ 1)%Z with 2%Z in Hgt; lia).
  replace (2 ^ Z.of_nat e - 1)%Z with (Z.ones (Z.of_nat e))
    by (rewrite Z.ones_equiv; lia).
  rewrite Z.land_ones by lia. rewrite Z.mod_same by lia. reflexivity.
Qed.

Lemma FFT_new_large (e : nat) :
  31 <= e -> FFT_new (2 ^ e) = Throw InvalidFFTSize.
Proof.
  intros He. unfold FFT_new. cbv zeta.
  assert (E : (ToInt32 (2 ^ e) <= 1)%Z).
  { unfold ToInt32. rewrite Z_of_nat_pow2.
    replace (Z.of_nat e) with (31 + Z.of_nat (e - 31))%Z by lia.
    rewrite Z.pow_add_r by lia.
    destruct (e - 31) as [|d].
    - change (2 ^ 31 * 2 ^ Z.of_nat 0 + 2 ^ 31)%Z with (2 ^ 32)%Z.
      rewrite Z.mod_same by lia. lia.
    - replace (2 ^ 31 * 2 ^ Z.of_nat (S d))%Z
        with (2 ^ Z.of_nat d * 2 ^ 32)%Z.
      + rewrite Z.add_comm, Z.mod_add by lia.
        rewrite Z.mod_small by lia. lia.
      + replace (Z.of_nat (S d)) with (1 + Z.of_nat d)%Z by lia.
        rewrite Z.pow_add_r by lia.
        change (2 ^ 32)%Z with (2 ^ 31 * 2 ^ 1)%Z. ring. }
  replace (ToInt32 (2 ^ e) <=? 1)%Z with true
    by (symmetry; apply Z.leb_le; exact E).
  reflexivity.
Qed.

Lemma pow2_ceil_log2_small (g : nat) : g <= 1 -> pow2_ceil_log2 g <= 1.
Proof. destruct g as [|[|g]]; cbn; lia. Qed.

(** The constructor returns for the requested sizes from 2 to [2 ^ 30], and
    the solver it returns is the one its statements after the FFT objects
    fill in; for every other size it throws. *)
Lemma TDSESolver_new_returns (p : SimulationParameters) :
  2 <= gridSize p <= 2 ^ 30 ->
  TDSESolver_new p = Normal (TDSESolver_fields p).
Proof.
  intros [Hlo Hhi]. unfold TDSESolver_new. cbv zeta.
  destruct (pow2_ceil_log2_spec (gridSize p)) as (-> & _ & _); [lia|].
  assert (He : 1 <= Nat.log2_up (gridSize p) <= 30).
  { split.
    - apply Nat.log2_up_pos. lia.
    - apply Nat.log2_up_le_pow2; [lia|exact Hhi]. }
  rewrite (FFT_new_pow2 _ He). reflexivity.
Qed.

Lemma TDSESolver_new_throws (p : SimulationParameters) :
  gridSize p <= 1 \/ 2 ^ 30 < gridSize p ->
  TDSESolver_new p = Throw InvalidFFTSize.
Proof.
  intros [Hlo|Hhi]; unfold TDSESolver_new; cbv zeta.
  - rewrite (FFT_new_small _ (pow2_ceil_log2_small _ Hlo)). reflexivity.
  - destruct (pow2_ceil_log2_spec (gridSize p)) as (-> & _ & _).
    { pose proof (Nat.pow_nonzero 2 30). lia. }
    rewrite FFT_new_large; [reflexivity|].
    apply Nat.nle_gt. intros Hle.
    assert (Nat.log2_up (gridSize p) <= 30) by lia.
    apply Nat.log2_up_le_pow2 in H; [|pose proof (Nat.pow_nonzero 2 30); lia].
    lia.
Qed.

Lemma TDSESolver_new_Normal (p : SimulationParameters) (this : TDSESolver) :
  TDSESolver_new p = Normal this ->
  this = TDSESolver_fields p /\ 2 <= gridSize p <= 2 ^ 30.
Proof.
  intros E.
  destruct (Nat.le_gt_cases (gridSize p) 1) as [Hlo|Hlo].
  { rewrite TDSESolver_new_throws in E by (left; exact Hlo). discriminate. }
  destruct (Nat.le_gt_cases (gridSize p) (2 ^ 30)) as [Hhi|Hhi].
  - rewrite TDSESolver_new_returns in E by (split; [exact Hlo|exact Hhi]).
    injection E as <-. split; [reflexivity|]. split; [exact Hlo|exact Hhi].
  - rewrite TDSESolver_new_throws in E by (right; exact Hhi). discriminate.
Qed.

(** C6, as the code has it.  For a requested grid size from 2 to [2 ^ 30]
    the constructor returns, and the grid size of the solver is 2 to the
    power [ceil (log2 gridSize)]: a power of two, at least the requested
    size, and at most every power of two that is at least the requested
    size.  A requested size that is a power of two is kept.  The arrays
    [x] and [k] have that length. *)
Theorem constructor_rounds_gridSize_up (p : SimulationParameters) :
  2 <= gridSize p <= 2 ^ 30 ->
  exists this,
    TDSESolver_new p = Normal this /\
    let n := gridSize (params this) in
    n = 2 ^ Nat.log2_up (gridSize p) /\
    gridSize p <= n /\
    (forall e, gridSize p <= 2 ^ e -> n <= 2 ^ e) /\
    (forall e, gridSize p = 2 ^ e -> n = gridSize p) /\
    length (this_x this) = n /\ length (this_k this) = n.
Proof.
  intros Hg. exists (TDSESolver_fields p).
  split; [apply TDSESolver_new_returns; exact Hg|].
  cbv zeta. rewrite TDSESolver_fields_gridSize.
  destruct (pow2_ceil_log2_spec (gridSize p)) as (Hpow & Hge & Hmin);
    [destruct Hg; lia|].
  destruct (TDSESolver_fields_wf p) as (Hx & Hk & _).
  rewrite TDSESolver_fields_gridSize in Hx, Hk.
  repeat split; auto.
  intros e He. apply Nat.le_antisymm; [|exact Hge].
  rewrite He at 2. apply Hmin. lia.
Qed.

Lemma setPotential_throws (this : TDSESolver) (V : list number) :
  length V <> gridSize (params this) ->
  setPotential this V
  = (this, Throw (DimensionMismatch (length V) (gridSize (params this)))).
Proof.
  intros Hne. unfold setPotential. apply Nat.eqb_neq in Hne. rewrite Hne.
  reflexivity.
Qed.

Lemma setPotential_stores (this : TDSESolver) (V : list number) :
  let n := gridSize (params this) in
  let phase i := (- get V i * dt (params this) / (lit 2 * hbar (params this)))%js in
  length (expVhalf_real this) = n -> length (expVhalf_imag this) = n ->
  length V = n ->
  exists this',
    setPotential this V = (this', Normal tt) /\
    potential this' = V /\
    (forall i, i < n ->
       get (expVhalf_real this') i = Math_cos (phase i) /\
       get (expVhalf_imag this') i = Math_sin (phase i)) /\
    length (expVhalf_real this') = n /\ length (expVhalf_imag this') = n /\
    params this' = params this /\ this_x this' = this_x this /\
    this_dx this' = this_dx this /\ this_k this' = this_k this /\
    this_dk this' = this_dk this /\
    expT_real this' = expT_real this /\ expT_imag this' = expT_imag this.
Proof.
  intros n phase Hr Hi Heq. unfold setPotential. fold n.
  apply Nat.eqb_eq in Heq. rewrite Heq. cbn [negb].
  loop_invariant (fun (j : nat) (ab : list number * list number) =>
    length (fst ab) = n /\ length (snd ab) = n /\
    forall i, i < j -> get (fst ab) i = Math_cos (phase i) /\
                       get (snd ab) i = Math_sin (phase i)).
  - simpl. repeat split; auto; lia.
  - intros j [a b] Hj (Ha & Hb & Hin). cbn [fst snd Nat.add] in *.
    rewrite !length_set. split; [exact Ha|]. split; [exact Hb|].
    intros i Hlt. destruct (Nat.eq_dec i j) as [->|Hne].
    + rewrite !get_set_same by lia. split; reflexivity.
    + rewrite !get_set_other by congruence. apply Hin. lia.
  - destruct (for_loop _ _ _ _) as [re im]. cbn [fst snd] in Hloop.
    destruct Hloop as (Ha & Hb & Hin).
    eexists. split; [reflexivity|]. cbn. repeat split; auto; apply Hin; auto.
Qed.

(** C5.  On a solver whose operator arrays have the length of the grid
    (as the constructor makes them), [setPotential(V)] throws exactly when
    the length of [V] is not the grid size, and then leaves the solver as it
    was; otherwise it stores [V], sets the half-step operator at every
    index [i] of the grid to the cosine and the sine of
    [-V[i] * dt / (2 * hbar)], and leaves the rest of the solver as it
    was. *)
Theorem setPotential_spec (this : TDSESolver) (V : list number) :
  length (expVhalf_real this) = gridSize (params this) ->
  length (expVhalf_imag this) = gridSize (params this) ->
  let n := gridSize (params this) in
  let phase i := (- get V i * dt (params this) / (lit 2 * hbar (params this)))%js in
  (length V <> n <-> exists e, snd (setPotential this V) = Throw e) /\
  (length V <> n ->
   setPotential this V = (this, Throw (DimensionMismatch (length V) n))) /\
  (length V = n ->
   exists this',
     setPotential this V = (this', Normal tt) /\
     potential this' = V /\
     (forall i, i < n ->
        get (expVhalf_real this') i = Math_cos (phase i) /\
        get (expVhalf_imag this') i = Math_sin (phase i)) /\
     length (expVhalf_real this') = n /\ length (expVhalf_imag this') = n /\
     params this' = params this /\ this_x this' = this_x this /\
     this_dx this' = this_dx this /\ this_k this' = this_k this /\
     this_dk this' = this_dk this /\
     expT_real this' = expT_real this /\ expT_imag this' = expT_imag this).
Proof.
  intros Hr Hi n phase. split; [|split].
  - split.
    + intros Hne. rewrite (setPotential_throws this V Hne). cbn. eauto.
    + intros [e He] Heq.
      destruct (setPotential_stores this V Hr Hi Heq) as (this' & E & _).
      rewrite E in He. discriminate.
  - apply setPotential_throws.
  - apply setPotential_stores; assumption.
Qed.

End SolverFacts.

(** ** Whole-word replacement *)

Section WholeWord.

(** The rest of [s] after the prefix [w], when [s] starts with [w]. *)
Fixpoint strip_prefix (w s : list ascii) : option (list ascii) :=
  match w, s with
  | [], _ => Some s
  | c :: w', a :: s' => if Ascii.eqb a c then strip_prefix w' s' else None
  | _ :: _, [] => None
  end.

(** The character before the position reached after reading [w]. *)
Fixpoint last_of (prev : option ascii) (w : list ascii) : option ascii :=
  match w with
  | [] => prev
  | c :: w' => last_of (Some c) w'
  end.

Definition outside_word_start (s : list ascii) : bool :=
  match s with [] => true | c :: _ => negb (is_word_char c) end.

Definition outside_word_end (s : list ascii) : bool :=
  outside_word_start (rev s).

Lemma strip_prefix_app w rest : strip_prefix w (w ++ rest) = Some rest.
Proof.
  induction w as [|c w IH]; simpl; [reflexivity|].
  rewrite Ascii.eqb_refl. exact IH.
Qed.

Lemma strip_prefix_Some w s rest : strip_prefix w s = Some rest -> s = w ++ rest.
Proof.
  revert s; induction w as [|c w IH]; intros s Hs; simpl in *.
  - congruence.
  - destruct s as [|a s]; [discriminate|].
    destruct (Ascii.eqb a c) eqn:E; [|discriminate].
    apply Ascii.eqb_eq in E. subst a. f_equal. apply IH. exact Hs.
Qed.

Lemma rmatch_literal w prev s k :
  rmatch (literal w) (prev, s) k =
  match strip_prefix w s with
  | Some rest => k (last_of prev w, rest)
  | None => None
  end.
Proof.
  revert prev s; induction w as [|c w IH]; intros prev s; simpl.
  - reflexivity.
  - destruct s as [|a s]; [reflexivity|].
    destruct (Ascii.eqb a c) eqn:E; [|reflexivity].
    rewrite IH. apply Ascii.eqb_eq in E. subst a. reflexivity.
Qed.

Lemma exec_whole_word name prev s :
  exec (whole_word name) (prev, s) =
  if at_word_boundary (prev, s) then
    match strip_prefix (list_ascii_of_string name) s with
    | Some rest =>
        if at_word_boundary (last_of prev (list_ascii_of_string name), rest)
        then Some (last_of prev (list_ascii_of_string name), rest)
        else None
    | None => None
    end
  else None.
Proof.
  unfold exec, whole_word. cbn [rmatch].
  destruct (at_word_boundary (prev, s)); [|reflexivity].
  rewrite rmatch_literal.
  destruct (strip_prefix _ s); reflexivity.
Qed.

Variable w : list ascii.
Hypothesis w_word : forallb is_word_char w = true.
Hypothesis w_nonempty : w <> [].

Lemma last_of_word prev u :
  forallb is_word_char u = true -> u <> [] ->
  match last_of prev u with Some c => is_word_char c = true | None => False end.
Proof.
  revert prev; induction u as [|c u IH]; intros prev Hu Hne; [congruence|].
  simpl in *. apply andb_prop in Hu as [Hc Hu].
  destruct u as [|d u]; [exact Hc|].
  apply IH; [exact Hu|discriminate].
Qed.

(** A word cannot reach across a character that is not a word character. *)
Lemma strip_prefix_before c a b :
  is_word_char c = false ->
  strip_prefix w (a ++ c :: b) =
  option_map (fun r => r ++ c :: b) (strip_prefix w a).
Proof.
  intros Hc. clear w_nonempty. revert a.
  induction w as [|y w' IH]; intros a; simpl.
  - reflexivity.
  - simpl in w_word. apply andb_prop in w_word as [Hy Hw'].
    destruct a as [|z a]; simpl.
    + destruct (Ascii.eqb c y) eqn:E; [|reflexivity].
      apply Ascii.eqb_eq in E. congruence.
    + destruct (Ascii.eqb z y); [|reflexivity]. apply IH. exact Hw'.
Qed.

Lemma word_after_before q c a b :
  is_word_char c = false ->
  word_after (q, a ++ c :: b) = word_after (q, a).
Proof.
  intros Hc. destruct a; simpl; [exact Hc|reflexivity].
Qed.

(** The word that starts a text is determined by the text. *)
Lemma word_prefix_unique u v r1 r2 :
  forallb is_word_char u = true -> forallb is_word_char v = true ->
  outside_word_start r1 = true -> outside_word_start r2 = true ->
  u ++ r1 = v ++ r2 -> u = v /\ r1 = r2.
Proof.
  revert v; induction u as [|y u IH]; intros v Hu Hv H1 H2 E.
  - destruct v as [|z v]; [auto|].
    simpl in *. subst r1. simpl in H1.
    apply andb_prop in Hv as [Hz _]. rewrite Hz in H1. discriminate.
  - destruct v as [|z v].
    + simpl in *. subst r2. simpl in H2.
      apply andb_prop in Hu as [Hy _]. rewrite Hy in H2. discriminate.
    + simpl in *. injection E as -> E.
      apply andb_prop in Hu as [_ Hu]. apply andb_prop in Hv as [_ Hv].
      destruct (IH v Hu Hv H1 H2 E) as [-> ->]. auto.
Qed.

Variable rep : list ascii.

Let R (name : string) (prev : option ascii) (s : list ascii) : list ascii :=
  scan_replace (whole_word name) rep prev s 0.

Variable name : string.
Hypothesis name_w : list_ascii_of_string name = w.

Lemma scan_skip r prev a b :
  scan_replace r rep prev (a ++ b) (length a) =
  scan_replace r rep (last_of prev a) b 0.
Proof.
  revert prev; induction a as [|c a IH]; intros prev; simpl; [reflexivity|].
  apply IH.
Qed.

Lemma R_nil prev : R name prev [] = [].
Proof.
  unfold R. cbn [scan_replace]. rewrite exec_whole_word, name_w.
  destruct (at_word_boundary (prev, [])); [|reflexivity].
  destruct w; [congruence|reflexivity].
Qed.

(** One step of the scan at the start of a text that is not empty. *)
Lemma R_cons prev c s :
  R name prev (c :: s) =
  match exec (whole_word name) (prev, c :: s) with
  | Some (q, rest) => rep ++ R name q rest
  | None => c :: R name (Some c) s
  end.
Proof.
  unfold R at 1. cbn [scan_replace].
  destruct (exec (whole_word name) (prev, c :: s)) as [[q rest]|] eqn:E;
    [|reflexivity].
  rewrite exec_whole_word, name_w in E.
  destruct (at_word_boundary (prev, c :: s)); [|discriminate].
  destruct (strip_prefix w (c :: s)) as [r|] eqn:Es; [|discriminate].
  destruct (at_word_boundary (last_of prev w, r)); [|discriminate].
  injection E as <- <-.
  apply strip_prefix_Some in Es.
  destruct w as [|y w'] eqn:Ew; [congruence|].
  simpl in Es. injection Es as <- Es. subst s.
  replace (length (c :: w' ++ r) - length r) with (S (length w'))
    by (cbn [length]; rewrite length_app; lia).
  f_equal. cbn [last_of]. unfold R. apply scan_skip.
Qed.

Lemma at_word_boundary_before prev c a b :
  is_word_char c = false ->
  at_word_boundary (prev, a ++ c :: b) = at_word_boundary (prev, a).
Proof.
  intros Hc. unfold at_word_boundary. rewrite word_after_before by exact Hc.
  reflexivity.
Qed.

(** Before a character that is not a word character, the pattern matches as
    it does at the end of the text. *)
Lemma exec_before prev c a b :
  is_word_char c = false ->
  exec (whole_word name) (prev, a ++ c :: b) =
  option_map (fun qr => (fst qr, snd qr ++ c :: b))
    (exec (whole_word name) (prev, a)).
Proof.
  intros Hc. rewrite !exec_whole_word, name_w.
  rewrite at_word_boundary_before by exact Hc.
  destruct (at_word_boundary (prev, a)); [|reflexivity].
  rewrite strip_prefix_before by exact Hc.
  destruct (strip_prefix w a) as [r|]; [|reflexivity]. cbn [option_map].
  rewrite at_word_boundary_before by exact Hc.
  destruct (at_word_boundary (last_of prev w, r)); reflexivity.
Qed.

(** The replacement splits at every character that is not a word
    character. *)
Lemma R_split c b : 
  is_word_char c = false ->
  forall a prev, R name prev (a ++ c :: b) = R name prev a ++ c :: R name (Some c) b.
Proof.
  intros Hc a. induction a as [a IH] using (induction_ltof1 _ (@length ascii)).
  unfold ltof in IH. intros prev.
  destruct a as [|x a'].
  - rewrite R_nil. cbn [app]. rewrite R_cons.
    change (c :: b) with ([] ++ c :: b). rewrite exec_before by exact Hc.
    rewrite exec_whole_word, name_w.
    destruct (at_word_boundary (prev, [])); [|reflexivity].
    destruct w; [congruence|reflexivity].
  - cbn [app]. rewrite !R_cons.
    change (x :: a' ++ c :: b) with ((x :: a') ++ c :: b).
    rewrite exec_before by exact Hc.
    destruct (exec (whole_word name) (prev, x :: a')) as [[q r]|] eqn:E;
      cbn [option_map fst snd].
    + rewrite <- app_assoc. f_equal. apply IH.
      rewrite exec_whole_word, name_w in E.
      destruct (at_word_boundary (prev, x :: a')); [|discriminate].
      destruct (strip_prefix w (x :: a')) as [r'|] eqn:Es; [|discriminate].
      destruct (at_word_boundary (last_of prev w, r')); [|discriminate].
      injection E as _ <-. apply strip_prefix_Some in Es. rewrite Es.
      rewrite length_app. destruct w; [congruence|]. cbn [length]. lia.
    + cbn [app]. f_equal. apply IH. cbn [length]. lia.
Qed.

(** Inside a word nothing is replaced. *)
Lemma R_inside_word u rest p :
  is_word_char p = true -> forallb is_word_char u = true ->
  R name (Some p) (u ++ rest) = u ++ R name (last_of (Some p) u) rest.
Proof.
  revert p; induction u as [|y u IH]; intros p Hp Hu; [reflexivity|].
  cbn [forallb] in Hu. apply andb_prop in Hu as [Hy Hu].
  cbn [app]. rewrite R_cons, exec_whole_word.
  unfold at_word_boundary at 1. cbn [word_before word_after fst snd].
  rewrite Hp, Hy. cbn [xorb]. cbn [last_of]. f_equal. apply IH; assumption.
Qed.

(** A whole word other than the name is left as it is. *)
Lemma R_other_word id rest prev :
  forallb is_word_char id = true -> id <> [] -> id <> w ->
  outside_word_start rest = true ->
  R name prev (id ++ rest) = id ++ R name (last_of prev id) rest.
Proof.
  intros Hid Hne Hdiff Hrest.
  destruct id as [|y u]; [congruence|].
  cbn [forallb] in Hid. apply andb_prop in Hid as [Hy Hu].
  cbn [app]. rewrite R_cons.
  destruct (exec (whole_word name) (prev, y :: u ++ rest)) as [[q r]|] eqn:E.
  - exfalso. rewrite exec_whole_word, name_w in E.
    destruct (at_word_boundary (prev, y :: u ++ rest)); [|discriminate].
    destruct (strip_prefix w (y :: u ++ rest)) as [r'|] eqn:Es; [|discriminate].
    destruct (at_word_boundary (last_of prev w, r')) eqn:Eb; [|discriminate].
    apply strip_prefix_Some in Es.
    pose proof (last_of_word prev w w_word w_nonempty) as Hlast.
    destruct (last_of prev w) as [l|]; [|contradiction].
    unfold at_word_boundary in Eb. cbn [word_before fst] in Eb.
    rewrite Hlast in Eb. cbn [xorb] in Eb. apply negb_true_iff in Eb.
    assert (Hr' : outside_word_start r' = true).
    { unfold word_after in Eb. cbn [snd] in Eb.
      destruct r'; [reflexivity|]. cbn [outside_word_start]. rewrite Eb.
      reflexivity. }
    apply Hdiff.
    apply (word_prefix_unique (y :: u) w rest r'); auto.
    cbn [forallb]. rewrite Hy, Hu. reflexivity.
  - f_equal. cbn [last_of]. apply R_inside_word; assumption.
Qed.

(** The scan does not look at what comes before a character that is not a
    word character. *)
Lemma R_outside_start s prev prev' :
  outside_word_start s = true -> R name prev s = R name prev' s.
Proof.
  destruct s as [|c b]; intros Hs.
  - rewrite !R_nil. reflexivity.
  - cbn [outside_word_start] in Hs. apply negb_true_iff in Hs.
    pose proof (R_split c b Hs [] prev) as H1.
    pose proof (R_split c b Hs [] prev') as H2.
    cbn [app] in H1, H2. rewrite H1, H2, !R_nil. reflexivity.
Qed.

Lemma outside_word_end_cases s :
  outside_word_end s = true ->
  s = [] \/ exists a c, s = a ++ [c] /\ is_word_char c = false.
Proof.
  unfold outside_word_end. intros Hs.
  destruct (rev s) as [|c l] eqn:E.
  - left. apply (f_equal (@rev ascii)) in E. rewrite rev_involutive in E.
    exact E.
  - right. exists (rev l), c. split.
    + apply (f_equal (@rev ascii)) in E. rewrite rev_involutive in E.
      exact E.
    + cbn [outside_word_start] in Hs. apply negb_true_iff in Hs. exact Hs.
Qed.

(** The replacement of the name around a whole word that is not the name:
    the word stays, and the text before it and the text after it are
    replaced as they are on their own. *)
Lemma R_around_word pre id post :
  outside_word_end pre = true ->
  forallb is_word_char id = true -> id <> [] -> id <> w ->
  outside_word_start post = true ->
  R name None (pre ++ id ++ post) = R name None pre ++ id ++ R name None post.
Proof.
  intros Hpre Hid Hne Hdiff Hpost.
  destruct (outside_word_end_cases pre Hpre) as [->|(a & c & -> & Hc)].
  - rewrite R_nil. cbn [app].
    rewrite R_other_word by assumption. f_equal.
    apply R_outside_start. exact Hpost.
  - rewrite <- !app_assoc. cbn [app].
    rewrite (R_split c (id ++ post) Hc a None).
    rewrite (R_split c [] Hc a None), R_nil.
    rewrite <- app_assoc. cbn [app]. do 2 f_equal.
    rewrite R_other_word by assumption. f_equal.
    apply R_outside_start. exact Hpost.
Qed.

(** The replacement keeps a text that ends, or starts, outside a word
    that way, when what is put in ends and starts outside a word. *)
Lemma R_outside_word_end s :
  outside_word_end s = true -> outside_word_end (R name None s) = true.
Proof.
  intros Hs. destruct (outside_word_end_cases s Hs) as [->|(a & c & -> & Hc)].
  - rewrite R_nil. reflexivity.
  - rewrite (R_split c [] Hc a None), R_nil.
    unfold outside_word_end. rewrite rev_app_distr. cbn.
    rewrite Hc. reflexivity.
Qed.

Lemma R_outside_word_start s :
  outside_word_start s = true -> outside_word_start (R name None s) = true.
Proof.
  destruct s as [|c b]; intros Hs.
  - rewrite R_nil. reflexivity.
  - pose proof Hs as Hc. cbn [outside_word_start] in Hc.
    apply negb_true_iff in Hc.
    pose proof (R_split c b Hc [] None) as H1. cbn [app] in H1.
    rewrite H1, R_nil. exact Hs.
Qed.

(** The scan looks at what comes before its start only to see whether it
    is a word character. *)
Lemma R_prev s prev prev' :
  word_before (prev, s) = word_before (prev', s) ->
  R name prev s = R name prev' s.
Proof.
  intros Hb. destruct s as [|c s']; [rewrite !R_nil; reflexivity|].
  rewrite !R_cons, !exec_whole_word, name_w.
  unfold at_word_boundary at 1 3. cbn [word_before word_after fst snd] in *.
  rewrite Hb.
  destruct w as [|y w']; [congruence|]. cbn [last_of]. reflexivity.
Qed.

(** Characters that are not word characters are copied. *)
Lemma R_punctuation a b prev :
  word_before (prev, a ++ b) = false ->
  forallb (fun c => negb (is_word_char c)) a = true ->
  R name prev (a ++ b) = a ++ R name None b.
Proof.
  revert prev; induction a as [|c a IH]; intros prev Hp Ha.
  - cbn [app]. apply R_prev. exact Hp.
  - cbn [forallb] in Ha. apply andb_prop in Ha as [Hc Ha].
    apply negb_true_iff in Hc. cbn [app].
    pose proof (R_split c (a ++ b) Hc [] prev) as E. cbn [app] in E.
    rewrite E, R_nil. cbn [app]. f_equal. apply IH; [exact Hc | exact Ha].
Qed.

End WholeWord.

(** ** Parameter substitution *)

(** A text of at least one character, all of them word characters. *)
Definition is_word (s : string) : bool :=
  match list_ascii_of_string s with
  | [] => false
  | c :: t => forallb is_word_char (c :: t)
  end.

Definition ends_outside_word (s : string) : bool :=
  outside_word_end (list_ascii_of_string s).

Definition starts_outside_word (s : string) : bool :=
  outside_word_start (list_ascii_of_string s).

Lemma chars_app (s1 s2 : string) :
  list_ascii_of_string (s1 ++ s2) =
  list_ascii_of_string s1 ++ list_ascii_of_string s2.
Proof.
  induction s1 as [|c s1 IH]; simpl; [reflexivity|]. rewrite IH. reflexivity.
Qed.

Lemma text_app (l1 l2 : list ascii) :
  string_of_list_ascii (l1 ++ l2) =
  (string_of_list_ascii l1 ++ string_of_list_ascii l2)%string.
Proof.
  induction l1 as [|c l1 IH]; simpl; [reflexivity|]. rewrite IH. reflexivity.
Qed.

Lemma is_word_chars (s : string) :
  is_word s = true ->
  forallb is_word_char (list_ascii_of_string s) = true /\
  list_ascii_of_string s <> [].
Proof.
  unfold is_word. destruct (list_ascii_of_string s); intros Hs;
    [discriminate|]. split; [exact Hs|discriminate].
Qed.

Lemma chars_inj (s1 s2 : string) :
  list_ascii_of_string s1 = list_ascii_of_string s2 -> s1 = s2.
Proof.
  intros E. rewrite <- (string_of_list_ascii_of_string s1),
    <- (string_of_list_ascii_of_string s2), E. reflexivity.
Qed.

(** One replacement of a name around a whole word that is not the name. *)
Lemma String_replace_around_word (name rep pre id post : string) :
  is_word name = true -> is_word id = true -> id <> name ->
  ends_outside_word pre = true -> starts_outside_word post = true ->
  String_replace (pre ++ id ++ post) (whole_word name) rep =
  (String_replace pre (whole_word name) rep ++ id
   ++ String_replace post (whole_word name) rep)%string /\
  ends_outside_word (String_replace pre (whole_word name) rep) = true /\
  starts_outside_word (String_replace post (whole_word name) rep) = true.
Proof.
  intros Hname Hid Hdiff Hpre Hpost.
  destruct (is_word_chars name Hname) as [Hw Hwne].
  destruct (is_word_chars id Hid) as [Hi Hine].
  unfold String_replace, ends_outside_word, starts_outside_word.
  rewrite !list_ascii_of_string_of_list_ascii.
  split; [|split].
  - rewrite !chars_app.
    rewrite (R_around_word (list_ascii_of_string name) Hw Hwne
               (list_ascii_of_string rep) name eq_refl
               (list_ascii_of_string pre) (list_ascii_of_string id)
               (list_ascii_of_string post)); auto.
    + rewrite !text_app, string_of_list_ascii_of_string. reflexivity.
    + intros E. apply Hdiff. apply chars_inj. exact E.
  - apply (R_outside_word_end (list_ascii_of_string name) Hw Hwne
             (list_ascii_of_string rep) name eq_refl). exact Hpre.
  - apply (R_outside_word_start (list_ascii_of_string name) Hw Hwne
             (list_ascii_of_string rep) name eq_refl). exact Hpost.
Qed.

(** *** The pattern compiled from a name that is a word *)

(** The pattern [RegExp_parse] makes of a text of word characters followed
    by [\b]. *)
Fixpoint compiled_word (w : list ascii) : regex :=
  match w with
  | [] => Seq WordB Eps
  | c :: t => Seq (Chr c) (compiled_word t)
  end.

Lemma word_char_plain (c : ascii) :
  is_word_char c = true ->
  Ascii.eqb c "\" = false /\ Ascii.eqb c "." = false /\
  Ascii.eqb c "*" = false /\ Ascii.eqb c "+" = false /\
  Ascii.eqb c "^" = false /\ Ascii.eqb c "$" = false /\
  is_syntax_char c = false.
Proof.
  destruct c as [[] [] [] [] [] [] [] []]; vm_compute; intros Hc;
    try discriminate Hc; repeat split.
Qed.

Lemma tokens_word_char (c : ascii) (t : list ascii) :
  is_word_char c = true -> tokens (c :: t) = TAtom (Chr c) :: tokens t.
Proof.
  intros Hc.
  destruct (word_char_plain c Hc) as (E1 & E2 & E3 & E4 & E5 & E6 & E7).
  cbn [tokens]. rewrite E1, E2, E3, E4, E5, E6, E7. reflexivity.
Qed.

Lemma tokens_word_boundary (t : list ascii) :
  tokens ("\"%char :: "b"%char :: t) = TAssert WordB :: tokens t.
Proof. reflexivity. Qed.

Lemma compile_atom (r : regex) (ts : list token) :
  match ts with TStar :: _ | TPlus :: _ => False | _ => True end ->
  compile (TAtom r :: ts) = option_map (Seq r) (compile ts).
Proof. destruct ts as [|[] ts']; cbn; intros Hts; try reflexivity; contradiction. Qed.

Lemma compile_word (w : list ascii) :
  forallb is_word_char w = true ->
  compile (tokens (w ++ ["\"; "b"]%char)) = Some (compiled_word w).
Proof.
  induction w as [|c w IH]; intros Hw; [reflexivity|].
  cbn [forallb] in Hw. apply andb_prop in Hw as [Hc Hw].
  cbn [app]. rewrite (tokens_word_char c _ Hc).
  rewrite compile_atom.
  - rewrite (IH Hw). reflexivity.
  - destruct w as [|c' w']; [exact I|].
    cbn [forallb] in Hw. apply andb_prop in Hw as [Hc' _].
    cbn [app]. rewrite (tokens_word_char c' _ Hc'). exact I.
Qed.

Lemma RegExp_parse_word (name : string) :
  forallb is_word_char (list_ascii_of_string name) = true ->
  RegExp_parse ("\b" ++ name ++ "\b")
  = Some (Seq WordB (compiled_word (list_ascii_of_string name))).
Proof.
  intros Hw. unfold RegExp_parse. rewrite !chars_app.
  change (list_ascii_of_string "\b") with ["\"; "b"]%char.
  cbn [app]. rewrite tokens_word_boundary. cbn [compile].
  rewrite (compile_word _ Hw). reflexivity.
Qed.

Lemma rmatch_compiled_word (w : list ascii) :
  forall p k,
    rmatch (compiled_word w) p k
    = rmatch (literal w) p (fun q => rmatch WordB q k).
Proof.
  induction w as [|c w IH]; intros p k; [reflexivity|].
  cbn [compiled_word literal rmatch].
  destruct (snd p) as [|a t]; [reflexivity|].
  destruct (Ascii.eqb a c); [apply IH|reflexivity].
Qed.

Lemma exec_compiled_word (name : string) (p : cursor) :
  exec (Seq WordB (compiled_word (list_ascii_of_string name))) p
  = exec (whole_word name) p.
Proof.
  unfold exec, whole_word. cbn [rmatch].
  destruct (at_word_boundary p); [apply rmatch_compiled_word|reflexivity].
Qed.

(** Two patterns with the same matches give the same replacements. *)
Lemma scan_replace_ext (r r' : regex) (rep : list ascii) :
  (forall p, exec r p = exec r' p) ->
  forall s prev skip,
    scan_replace r rep prev s skip = scan_replace r' rep prev s skip.
Proof.
  intros Hexec. induction s as [|c s IH]; intros prev skip.
  - cbn [scan_replace]. rewrite Hexec. reflexivity.
  - cbn [scan_replace]. destruct skip as [|n]; [|apply IH].
    rewrite Hexec. destruct (exec r' (prev, c :: s)) as [[q rest]|].
    + f_equal. destruct (length (c :: s) - length rest); rewrite IH; reflexivity.
    + rewrite IH. reflexivity.
Qed.

Section SubstitutionFacts.
Context {N : JSNum} {H : Host}.

(** For the name of a parameter that is a word, the replacement by the
    compiled pattern is the replacement of the whole words equal to the
    name, and the host is not asked. *)
Lemma replace_RegExp_word (text name replacement : string) :
  is_word name = true ->
  replace_RegExp text ("\b" ++ name ++ "\b") replacement
  = Normal (String_replace text (whole_word name) replacement).
Proof.
  intros Hname. destruct (is_word_chars name Hname) as [Hw _].
  unfold replace_RegExp. rewrite (RegExp_parse_word name Hw).
  unfold String_replace. f_equal. f_equal.
  apply scan_replace_ext. apply exec_compiled_word.
Qed.

(** What the substitution returns when the names of the parameters are
    words: every whole word that is the name of a parameter replaced, one
    parameter after the other. *)
Definition substitute_words (expression : string) (parameters : ParameterSet)
    : string :=
  fold_left
    (fun result param =>
       String_replace result (whole_word (p_name param))
         ("(" ++ Number_toString (p_value param) ++ ")"))
    parameters expression.

Lemma substituteParameters_words (parameters : ParameterSet) :
  Forall (fun p => is_word (p_name p) = true) parameters ->
  forall expression,
    substituteParameters expression parameters
    = Normal (substitute_words expression parameters).
Proof.
  unfold substituteParameters, substitute_words.
  induction 1 as [|p ps Hp Hps IH]; intros expression; [reflexivity|].
  cbn [fold_left]. rewrite (replace_RegExp_word _ _ _ Hp). apply IH.
Qed.

Lemma substitute_words_around_word (parameters : ParameterSet) :
  Forall (fun p => is_word (p_name p) = true) parameters ->
  forall pre id post : string,
  is_word id = true ->
  ends_outside_word pre = true -> starts_outside_word post = true ->
  ~ In id (map p_name parameters) ->
  substitute_words (pre ++ id ++ post) parameters =
  (substitute_words pre parameters ++ id
   ++ substitute_words post parameters)%string.
Proof.
  unfold substitute_words.
  induction 1 as [|p ps Hp Hps IH]; intros pre id post Hid Hpre Hpost Hnot.
  - reflexivity.
  - cbn [fold_left].
    destruct (String_replace_around_word (p_name p)
                ("(" ++ Number_toString (p_value p) ++ ")")%string
                pre id post Hp Hid) as (E & Hpre' & Hpost'); auto.
    { intros E. apply Hnot. left. symmetry. exact E. }
    rewrite E. apply IH; auto.
    intros Hin. apply Hnot. right. exact Hin.
Qed.

(** A text of characters that are not word characters. *)
Definition is_punctuation (s : string) : bool :=
  forallb (fun c => negb (is_word_char c)) (list_ascii_of_string s).

Lemma substitute_words_punctuation (parameters : ParameterSet) :
  Forall (fun p => is_word (p_name p) = true) parameters ->
  forall a b : string,
  is_punctuation a = true ->
  substitute_words (a ++ b) parameters
  = (a ++ substitute_words b parameters)%string.
Proof.
  unfold substitute_words.
  induction 1 as [|p ps Hp Hps IH]; intros a b Ha; [reflexivity|].
  cbn [fold_left]. rewrite <- IH by exact Ha. f_equal.
  destruct (is_word_chars (p_name p) Hp) as [Hw Hwne].
  unfold String_replace. rewrite (chars_app a b).
  rewrite (R_punctuation (list_ascii_of_string (p_name p)) Hw Hwne _
             (p_name p) eq_refl _ _ None eq_refl Ha).
  rewrite text_app, string_of_list_ascii_of_string. reflexivity.
Qed.

Lemma substitute_words_sqrt_k0 (parameters : ParameterSet) :
  Forall (fun p => is_word (p_name p) = true) parameters ->
  ~ In "sqrt"%string (map p_name parameters) ->
  ~ In "k0"%string (map p_name parameters) ->
  substitute_words "sqrt(k0)+k" parameters
  = ("sqrt(k0)+" ++ substitute_words "k" parameters)%string.
Proof.
  intros Hnames Hsqrt Hk0.
  change "sqrt(k0)+k"%string with ("" ++ "sqrt" ++ "(k0)+k")%string.
  rewrite (substitute_words_around_word parameters Hnames "" "sqrt"
             "(k0)+k") by (auto; reflexivity).
  change "(k0)+k"%string with ("(" ++ "k0" ++ ")+k")%string.
  rewrite (substitute_words_around_word parameters Hnames "(" "k0" ")+k")
    by (auto; reflexivity).
  change ")+k"%string with (")+" ++ "k")%string.
  rewrite (substitute_words_punctuation parameters Hnames ")+" "k")
    by reflexivity.
  change "("%string with ("(" ++ "")%string at 1.
  rewrite (substitute_words_punctuation parameters Hnames "(" "")
    by reflexivity.
  change ""%string with ("" ++ "")%string at 1.
  rewrite (substitute_words_punctuation parameters Hnames "" "")
    by reflexivity.
  assert (E : substitute_words "" parameters = ""%string).
  { clear -Hnames. unfold substitute_words.
    induction Hnames as [|p ps Hp Hps IH]; [reflexivity|].
    cbn [fold_left].
    destruct (is_word_chars (p_name p) Hp) as [Hw Hwne].
    unfold String_replace at 2. cbn [list_ascii_of_string].
    rewrite (R_nil (list_ascii_of_string (p_name p)) Hw Hwne _
               (p_name p) eq_refl None).
    exact IH. }
  rewrite E. reflexivity.
Qed.

(** The example of the specification: whatever the parameters are, as long
    as their names are words and none of them is named [sqrt] or [k0], the
    substitution returns, and in the expression [sqrt(k0)+k] it keeps
    [sqrt(k0)+] as it is: only the last word [k] is substituted. *)
Lemma substituteParameters_sqrt_k0 (parameters : ParameterSet) :
  Forall (fun p => is_word (p_name p) = true) parameters ->
  ~ In "sqrt"%string (map p_name parameters) ->
  ~ In "k0"%string (map p_name parameters) ->
  exists k',
    substituteParameters "k" parameters = Normal k' /\
    substituteParameters "sqrt(k0)+k" parameters
    = Normal ("sqrt(k0)+" ++ k')%string.
Proof.
  intros Hnames Hsqrt Hk0.
  exists (substitute_words "k" parameters).
  rewrite !(substituteParameters_words parameters Hnames).
  split; [reflexivity|]. f_equal.
  apply substitute_words_sqrt_k0; assumption.
Qed.

(** C7, as the code has it.  Substitution replaces whole words only when
    the names of the parameters are words.  Take parameters whose names
    are words (one character at least, every one of them a letter, a digit
    or an underscore), and an expression in which [id] stands as a whole
    word (the text before it ends outside a word, the text after it starts
    outside a word) and is not the name of a parameter: such as [sqrt], or
    [k0] when [k] is a parameter and [k0] is not.  Then, in whatever order
    the parameters are substituted, the substitution returns and [id]
    comes out unchanged at its place: the result is the substitution of
    the text before it, [id] itself, and the substitution of the text
    after it. *)
Theorem substituteParameters_whole_words (parameters : ParameterSet)
    (pre id post : string) :
  Forall (fun p => is_word (p_name p) = true) parameters ->
  is_word id = true ->
  ends_outside_word pre = true -> starts_outside_word post = true ->
  ~ In id (map p_name parameters) ->
  forall parameters', Permutation parameters parameters' ->
  exists pre' post',
    substituteParameters pre parameters' = Normal pre' /\
    substituteParameters post parameters' = Normal post' /\
    substituteParameters (pre ++ id ++ post) parameters'
    = Normal (pre' ++ id ++ post')%string.
Proof.
  intros Hnames Hid Hpre Hpost Hnot parameters' Hperm.
  assert (Hnames' : Forall (fun p => is_word (p_name p) = true) parameters')
    by (apply (Permutation_Forall Hperm); exact Hnames).
  exists (substitute_words pre parameters').
  exists (substitute_words post parameters').
  rewrite !(substituteParameters_words parameters' Hnames').
  split; [reflexivity|]. split; [reflexivity|]. f_equal.
  apply substitute_words_around_word; auto.
  intros Hin. apply Hnot.
  apply (Permutation_in id (Permutation_sym (Permutation_map p_name Hperm))).
  exact Hin.
Qed.

End SubstitutionFacts.

(** ** Parameter detection and evaluation on [A*sin(k*x+phi)] *)

(** C2, on the code.  On the expression [A*sin(k*x+phi)] the two
    extractors do not return the names [A], [k] and [phi]: the pattern of
    [extractParameterNames] has no word boundary at its end, so before the
    parenthesis of [sin(] it gives back one character and matches [si]; it
    then drops the one-letter names [A] and [k].  The pattern of
    [extractSingleLetterVariables] matches the first letter of every word,
    [s] of [sin] and [p] of [phi] among them. *)
Theorem extractors_on_sine_example :
  extractParameterNames "A*sin(k*x+phi)" = ["si"; "phi"]%string /\
  extractSingleLetterVariables "A*sin(k*x+phi)" = ["A"; "s"; "k"; "p"]%string.
Proof. split; vm_compute; reflexivity. Qed.

Section SineExample.
Context {N : JSNum} {H : Host}.

(** The bindings [{A: 2, k: 1, phi: 0}]. *)
Definition sine_bindings : ParameterSet :=
  [ {| p_name := "A"; p_value := lit 2; p_min := nneg (lit 5); p_max := lit 5;
       p_step := ndiv (lit 1) (lit 10); p_description := None |};
    {| p_name := "k"; p_value := lit 1; p_min := nneg (lit 10); p_max := lit 10;
       p_step := ndiv (lit 1) (lit 10); p_description := None |};
    {| p_name := "phi"; p_value := lit 0; p_min := nneg (lit 10);
       p_max := lit 10; p_step := ndiv (lit 1) (lit 10);
       p_description := None |} ].

(** The second half of C2: with [A = 2], [k = 1], [phi = 0] and [x = 0] the
    evaluator hands the text [(2)*Math.sin((1)*(0)+(0))] to the host, and
    returns the number the host computes for it (which is 0, the sine of 0
    being 0). *)
Lemma safeEval_on_sine_example (v : number) :
  Number_toString (lit 2) = "2"%string ->
  Number_toString (lit 1) = "1"%string ->
  Number_toString (lit 0) = "0"%string ->
  Function_call "(2)*Math.sin((1)*(0)+(0))" = Normal (VNumber v) ->
  isFinite v = true ->
  potential_text sine_bindings "A*sin(k*x+phi)" (lit 0)
  = Normal "(2)*Math.sin((1)*(0)+(0))"%string /\
  safeEval_potential sine_bindings "A*sin(k*x+phi)" (lit 0) = Normal v.
Proof.
  intros H2 H1 H0 Hcall Hfin.
  assert (E : potential_text sine_bindings "A*sin(k*x+phi)" (lit 0)
              = Normal "(2)*Math.sin((1)*(0)+(0))"%string).
  { unfold potential_text.
    rewrite substituteParameters_words by (repeat constructor).
    f_equal.
    unfold potential_replacements, parens, substitute_words, sine_bindings.
    cbn [fold_left p_name p_value]. rewrite H2, H1, H0.
    vm_compute. reflexivity. }
  split; [exact E|].
  unfold safeEval_potential.
  replace (is_blank "A*sin(k*x+phi)") with false by (vm_compute; reflexivity).
  rewrite E.
  replace (RegExp_test safe_characters "(2)*Math.sin((1)*(0)+(0))") with true
    by (vm_compute; reflexivity).
  cbn [negb]. rewrite Hcall. cbn [finite_number]. rewrite Hfin. reflexivity.
Qed.

End SineExample.

(** ** Loops that update two arrays entry by entry *)

Section PointwiseLoops.
Context {N : JSNum}.
Open Scope nat_scope.

(** A loop whose iteration [i] replaces the entries [i] of two arrays by
    values computed from those two entries. *)
Lemma pointwise_loop2 (f g : nat -> number -> number -> number) n
    (a b : list number) :
  n <= length a -> n <= length b ->
  let ab :=
    for_loop 0 n
      (fun i '(a, b) =>
         (set a i (f i (get a i) (get b i)), set b i (g i (get a i) (get b i))))
      (a, b) in
  length (fst ab) = length a /\ length (snd ab) = length b /\
  (forall i, i < n ->
     get (fst ab) i = f i (get a i) (get b i) /\
     get (snd ab) i = g i (get a i) (get b i)) /\
  (forall i, n <= i -> get (fst ab) i = get a i /\ get (snd ab) i = get b i).
Proof.
  intros Ha Hb. cbv zeta.
  apply (for_loop_ind
    (fun j (ab : list number * list number) =>
       length (fst ab) = length a /\ length (snd ab) = length b /\
       (forall i, i < j ->
          get (fst ab) i = f i (get a i) (get b i) /\
          get (snd ab) i = g i (get a i) (get b i)) /\
       (forall i, j <= i ->
          get (fst ab) i = get a i /\ get (snd ab) i = get b i))).
  - cbn [fst snd]. repeat split; auto; lia.
  - intros j [a' b'] Hj (Hla & Hlb & Hin & Hout). cbn [fst snd Nat.add] in *.
    rewrite !length_set. split; [exact Hla|]. split; [exact Hlb|]. split.
    + intros i Hi. destruct (Nat.eq_dec i j) as [->|Hne].
      * rewrite !get_set_same by lia.
        destruct (Hout j (Nat.le_refl j)) as [-> ->]. split; reflexivity.
      * rewrite !get_set_other by congruence. apply Hin. lia.
    + intros i Hi. rewrite !get_set_other by lia. apply Hout. lia.
Qed.

Lemma divide_by_spec n (norm : number) (re im : list number) :
  n <= length re -> n <= length im ->
  let ri := divide_by n norm re im in
  length (fst ri) = length re /\ length (snd ri) = length im /\
  (forall i, i < n ->
     get (fst ri) i = (get re i / norm)%js /\
     get (snd ri) i = (get im i / norm)%js).
Proof.
  intros Hr Hi.
  destruct (pointwise_loop2 (fun _ x _ => (x / norm)%js)
              (fun _ _ y => (y / norm)%js) n re im Hr Hi)
    as (H1 & H2 & H3 & _).
  cbv zeta. split; [exact H1|]. split; [exact H2|exact H3].
Qed.

Lemma applyOperator_spec n (op_real op_imag re im : list number) :
  n <= length re -> n <= length im ->
  let ri := applyOperator n op_real op_imag (re, im) in
  length (fst ri) = length re /\ length (snd ri) = length im /\
  (forall i, i < n ->
     get (fst ri) i
     = (get re i * get op_real i - get im i * get op_imag i)%js /\
     get (snd ri) i
     = (get re i * get op_imag i + get im i * get op_real i)%js).
Proof.
  intros Hr Hi.
  destruct (pointwise_loop2
              (fun i x y => (x * get op_real i - y * get op_imag i)%js)
              (fun i x y => (x * get op_imag i + y * get op_real i)%js)
              n re im Hr Hi)
    as (H1 & H2 & H3 & _).
  cbv zeta. split; [exact H1|]. split; [exact H2|exact H3].
Qed.

Lemma interleave_spec n (re im : list number) :
  length (interleave n re im) = 2 * n /\
  forall i, i < n ->
    get (interleave n re im) (2 * i) = get re i /\
    get (interleave n re im) (2 * i + 1) = get im i.
Proof.
  unfold interleave.
  apply (for_loop_ind
    (fun j (a : list number) =>
       length a = 2 * n /\
       forall i, i < j ->
         get a (2 * i) = get re i /\ get a (2 * i + 1) = get im i)).
  - split; [apply length_Float64Array|]. intros i Hi. lia.
  - intros j a Hj (Hlen & Hin). cbn [Nat.add]. rewrite !length_set.
    split; [exact Hlen|]. intros i Hi.
    destruct (Nat.eq_dec i j) as [->|Hne].
    + split.
      * rewrite get_set_other by lia. apply get_set_same. lia.
      * apply get_set_same. rewrite length_set. lia.
    + rewrite !get_set_other by lia. apply Hin. lia.
Qed.

End PointwiseLoops.

(** ** Custom functions: the two error policies *)

Section ErrorPolicies.
Context {N : JSNum} {H : Host}.
Open Scope nat_scope.

(** What the host throws, the evaluator of the potential throws. *)
Lemma safeEval_potential_host_throw parameters expr xVal text e :
  potential_text parameters expr xVal = Normal text ->
  Function_call text = Throw e ->
  exists e', safeEval_potential parameters expr xVal = Throw e'.
Proof.
  intros Htext Hcall. unfold safeEval_potential.
  destruct (is_blank expr); [eauto|]. rewrite Htext.
  destruct (negb _); [eauto|]. rewrite Hcall. eauto.
Qed.

(** What the substitution of the parameters throws, the evaluator of the
    potential throws. *)
Lemma safeEval_potential_pattern_throw parameters expr xVal e :
  is_blank expr = false ->
  substituteParameters expr parameters = Throw e ->
  safeEval_potential parameters expr xVal = Throw e.
Proof.
  intros Hblank Hsub. unfold safeEval_potential, potential_text.
  rewrite Hblank, Hsub. reflexivity.
Qed.

(** What the host throws for the real part, [parseComplexFunction]
    throws. *)
Lemma parseComplexFunction_host_throw parameters realExpr imagExpr x t
    text e :
  is_blank realExpr = false ->
  wavefunction_text parameters realExpr x t = Normal text ->
  Function_call text = Throw e ->
  exists e', parseComplexFunction realExpr imagExpr x t parameters = Throw e'.
Proof.
  intros Hblank Htext Hcall. unfold parseComplexFunction, safeEval_wavefunction.
  rewrite Hblank, Htext, Hcall. eauto.
Qed.

Lemma for_loop_try_throws {S : Type} (body : nat -> S -> completion S) n j s :
  j < n ->
  (forall t, exists e, body j t = Throw e) ->
  exists e, for_loop_try 0 n body s = Throw e.
Proof.
  intros Hj Hbody. unfold for_loop_try.
  replace n with (j + Datatypes.S (n - j - 1)) by lia.
  rewrite seq_app, fold_left_app. cbn [seq fold_left Nat.add].
  set (acc := fold_left _ (seq 0 j) (Normal s)).
  assert (Hthrow : exists e, match acc with
                             | Normal t => body j t
                             | Throw e => Throw e
                             end = Throw e).
  { destruct acc as [t|e]; [apply Hbody|eauto]. }
  destruct Hthrow as [e He]. rewrite He.
  exists e. clear. induction (seq _ _) as [|i l IH]; [reflexivity|exact IH].
Qed.

(** C3.  The two paths differ in what they do with an evaluation that
    fails, as the evaluation of an expression that mentions an unbound
    name does (the host throws a [ReferenceError]).

    - Wavefunction: [createCustomWavefunction] always returns a state; at
      a grid point where [parseComplexFunction] throws, its sample is
      (0, 0).
    - Potential: when the evaluation throws at a grid point,
      [createCustomFunctionPotential] throws, and so does
      [generatePotential] for a configuration of type [custom-function]
      with that expression: no array is returned.

    The division of zero by a positive norm is taken to be zero, as it is
    for real numbers and for floating-point numbers. *)
Theorem custom_function_error_policies (solver : TDSESolver)
    (realExpr imagExpr functionString : string) (parameters : ParameterSet)
    (x : list number) (config : PotentialConfig) (mass : number) :
  (forall d : number, (d >? lit 0)%js = true -> (lit 0 / d)%js = lit 0) ->
  (forall i e,
     i < length (this_x solver) ->
     parseComplexFunction realExpr imagExpr (get (this_x solver) i) (lit 0)
       parameters = Throw e ->
     let state := createCustomWavefunction solver realExpr imagExpr parameters in
     get (real state) i = lit 0 /\ get (imag state) i = lit 0) /\
  (forall j e,
     j < length x ->
     safeEval_potential parameters functionString (get x j) = Throw e ->
     type config = custom_function ->
     customFunction config = Some functionString ->
     (exists e',
        createCustomFunctionPotential x functionString parameters = Throw e') /\
     (exists e', generatePotential x config mass parameters = Throw e')).
Proof.
  intros Hdiv. split.
  - intros i e Hi Hthrow. unfold createCustomWavefunction. cbv zeta.
    set (n := length (this_x solver)) in *.
    loop_invariant (fun (j : nat) (ab : list number * list number) =>
      length (fst ab) = n /\ length (snd ab) = n /\
      (i < j -> get (fst ab) i = lit 0 /\ get (snd ab) i = lit 0)).
    + cbn [fst snd]. rewrite !length_Float64Array. repeat split; lia.
    + intros j [a b] Hj (Ha & Hb & Hin). cbn [fst snd Nat.add] in *.
      destruct (Nat.eq_dec i j) as [<-|Hne].
      * rewrite Hthrow. cbn [fst snd]. rewrite !length_set.
        split; [exact Ha|]. split; [exact Hb|]. intros _.
        rewrite !get_set_same by lia. split; reflexivity.
      * destruct (parseComplexFunction realExpr imagExpr
                    (get (this_x solver) j) (lit 0) parameters) as [[u v]|e0];
          cbn [fst snd]; rewrite !length_set;
          (split; [exact Ha|]); (split; [exact Hb|]); intros Hlt;
          rewrite !get_set_other by congruence; apply Hin; lia.
    + destruct (for_loop _ _ _ _) as [re im]. cbn [fst snd] in Hloop.
      destruct Hloop as (Hre & Him & Hzero). specialize (Hzero Hi).
      destruct Hzero as [Hr0 Hi0].
      match goal with |- context [if ?c then _ else _] => destruct c eqn:Hpos end.
      * destruct (divide_by_spec n
                    (Math_sqrt (sum_density n re im * this_dx solver)%js) re im)
          as (_ & _ & Hq); try lia.
        destruct (divide_by _ _ _ _) as [re' im']. cbn [real imag fst snd] in *.
        destruct (Hq i Hi) as [-> ->]. rewrite Hr0, Hi0.
        split; apply Hdiv; exact Hpos.
      * cbn [real imag]. auto.
  - intros j e Hj Hthrow Htype Hcustom.
    assert (Hc : exists e',
               createCustomFunctionPotential x functionString parameters
               = Throw e').
    { unfold createCustomFunctionPotential.
      apply for_loop_try_throws with (j := j); [exact Hj|].
      intros t. rewrite Hthrow. eauto. }
    split; [exact Hc|].
    unfold generatePotential. rewrite Htype, Hcustom.
    destruct (String.eqb functionString ""); [eauto|exact Hc].
Qed.

End ErrorPolicies.

(** ** Initializers whose samples are all zero *)

(** The default domain and constants of the application, on a grid of four
    points: x = -10, -5, 0, 5. *)
Definition coarse_grid {N : JSNum} : SimulationParameters :=
  {| gridSize := 4; xMin := lit (-10); xMax := lit 10;
     dt := ndiv (lit 5) (lit 1000); hbar := lit 1; mass := lit 1 |}.

Section ZeroSamples.
Variables (fcos fsin fexp : float -> float) (fpow : float -> nat -> float)
  (fpi : float).
#[local] Instance binary64 : JSNum := IEEE fcos fsin fexp fpow fpi.

(** C4, on the code, in floating point.  No point of the coarse grid lies
    strictly between 0 and the well width 4, so every sample of the bound
    state is zero and so is the norm; [createBoundState] divides by it all
    the same, and every entry of the state it returns is NaN.
    [createCustomWavefunction], which tests [norm > 0] before it divides,
    returns the zero samples (of two blank expressions, here) as they
    are. *)
Theorem createBoundState_divides_by_zero_norm :
  exists solver,
    TDSESolver_new coarse_grid = Normal solver /\
    this_x solver = [lit (-10); lit (-5); lit 0; lit 5] /\
    createBoundState solver (lit 1) (lit 4) =
      {| real := [NaN; NaN; NaN; NaN]; imag := [NaN; NaN; NaN; NaN];
         time := lit 0 |} /\
    forall H : Host,
      createCustomWavefunction solver "" "" [] =
      {| real := [lit 0; lit 0; lit 0; lit 0];
         imag := [lit 0; lit 0; lit 0; lit 0]; time := lit 0 |}.
Proof.
  exists (TDSESolver_fields coarse_grid). split; [|split; [|split]].
  - vm_compute. reflexivity.
  - vm_compute. reflexivity.
  - vm_compute. reflexivity.
  - intros H. vm_compute. reflexivity.
Qed.

End ZeroSamples.

(** ** Drawn potentials *)

Lemma Rltb_true (a b : R) : Rltb a b = true <-> (a < b)%R.
Proof. unfold Rltb. destruct (Rlt_dec a b); split; intros; auto; discriminate. Qed.

Lemma Rltb_false (a b : R) : Rltb a b = false <-> (b <= a)%R.
Proof.
  unfold Rltb. destruct (Rlt_dec a b); split; intros; auto; try discriminate;
    lra.
Qed.

Lemma Rleb_true (a b : R) : Rleb a b = true <-> (a <= b)%R.
Proof. unfold Rleb. destruct (Rle_dec a b); split; intros; auto; discriminate. Qed.

Lemma Rleb_false (a b : R) : Rleb a b = false <-> (b < a)%R.
Proof.
  unfold Rleb. destruct (Rle_dec a b); split; intros; auto; try discriminate;
    lra.
Qed.

(** [exact_arith] shows the operations of the instance [Exact] as the
    operations of the real numbers they are. *)
Ltac exact_arith :=
  change (@eq (@number Exact)) with (@eq R) in *;
  change (@nadd Exact) with Rplus in *;
  change (@nsub Exact) with Rminus in *;
  change (@nmul Exact) with Rmult in *;
  change (@ndiv Exact) with Rdiv in *;
  change (@nneg Exact) with Ropp in *;
  change (@nlt Exact) with Rltb in *;
  change (@nle Exact) with Rleb in *;
  change (@lit Exact) with IZR in *;
  change (@NaN Exact) with 0%R in *;
  change (@half Exact) with (1 / 2)%R in *;
  change (@Math_sqrt Exact) with sqrt in *;
  change (@Math_cos Exact) with cos in *;
  change (@Math_sin Exact) with sin in *;
  change (@Math_max Exact) with Rmax in *;
  change (@Math_min Exact) with Rmin in *;
  change (@of_nat Exact) with (fun i => IZR (Z.of_nat i)) in *;
  cbv beta in *.

Section DrawnPotential.
#[local] Existing Instance Exact.
Open Scope R_scope.

Definition by_x (a b : Point) : number := pt_x a - pt_x b.
Definition le_x (a b : Point) : Prop := pt_x a <= pt_x b.

Lemma sort_insert_perm e l : Permutation (sort_insert by_x e l) (e :: l).
Proof.
  induction l as [|y t IH]; cbn [sort_insert]; [reflexivity|].
  destruct (_ >? _)%js; [reflexivity|].
  rewrite IH. apply perm_swap.
Qed.

Lemma sort_insert_sorted e l :
  StronglySorted le_x l -> StronglySorted le_x (sort_insert by_x e l).
Proof.
  induction 1 as [|y t Ht IH Hy]; cbn [sort_insert].
  - constructor; constructor.
  - destruct (_ >? _)%js eqn:E.
    + unfold by_x in E. exact_arith. apply Rltb_true in E.
      constructor; [constructor; assumption|].
      constructor; [unfold le_x; lra|].
      apply Forall_impl with (P := le_x y); [|exact Hy].
      unfold le_x. intros a Ha. lra.
    + unfold by_x in E. exact_arith. apply Rltb_false in E.
      constructor; [exact IH|].
      apply (Permutation_Forall (Permutation_sym (sort_insert_perm e t))).
      constructor; [unfold le_x; lra|exact Hy].
Qed.

Lemma Array_sort_spec (points : list Point) :
  StronglySorted le_x (Array_sort by_x points) /\
  Permutation (Array_sort by_x points) points.
Proof.
  unfold Array_sort.
  assert (G : forall l acc,
             StronglySorted le_x acc ->
             StronglySorted le_x
               (fold_left (fun sorted e => sort_insert by_x e sorted) l acc) /\
             Permutation
               (fold_left (fun sorted e => sort_insert by_x e sorted) l acc)
               (acc ++ l)).
  { induction l as [|e l IH]; intros acc Hacc; cbn [fold_left].
    - rewrite app_nil_r. split; [exact Hacc|reflexivity].
    - destruct (IH (sort_insert by_x e acc) (sort_insert_sorted e acc Hacc))
        as [Hs Hp].
      split; [exact Hs|]. rewrite Hp, sort_insert_perm.
      apply Permutation_middle. }
  destruct (G points [] (SSorted_nil _)) as [Hs Hp]. split; assumption.
Qed.

(** In a sorted list the abscissas do not decrease with the index. *)
Lemma sorted_point_at (sp : list Point) :
  StronglySorted le_x sp ->
  forall i j, (i <= j < length sp)%nat ->
  pt_x (point_at sp i) <= pt_x (point_at sp j).
Proof.
  induction 1 as [|y t Ht IH Hy]; intros i j Hij; cbn [length] in Hij; [lia|].
  destruct i as [|i], j as [|j]; unfold point_at; cbn [nth]; try lia.
  - lra.
  - rewrite Forall_forall in Hy. apply Hy. apply nth_In. lia.
  - apply (IH i j). lia.
Qed.

Lemma find_segment_step xi (p q : Point) rest j :
  find_segment xi (p :: q :: rest) j =
  if ((xi >=? pt_x p)%js && (xi <=? pt_x q)%js)%bool then Some j
  else find_segment xi (q :: rest) (S j).
Proof. reflexivity. Qed.

(** What the search loop finds: the first segment that contains [xi]. *)
Lemma find_segment_spec xi (sp : list Point) j0 :
  match find_segment xi sp j0 with
  | Some j =>
      exists k, j = (j0 + k)%nat /\ (k + 1 < length sp)%nat /\
        pt_x (point_at sp k) <= xi <= pt_x (point_at sp (k + 1)) /\
        forall k', (k' < k)%nat ->
          ~ (pt_x (point_at sp k') <= xi <= pt_x (point_at sp (k' + 1)))
  | None =>
      forall k, (k + 1 < length sp)%nat ->
        ~ (pt_x (point_at sp k) <= xi <= pt_x (point_at sp (k + 1)))
  end.
Proof.
  revert j0; induction sp as [|p rest IH]; intros j0.
  - cbn. intros k Hk. lia.
  - destruct rest as [|q rest'].
    + cbn. intros k Hk. lia.
    + rewrite find_segment_step.
      destruct ((xi >=? pt_x p)%js && (xi <=? pt_x q)%js)%bool eqn:E.
      * destruct (andb_prop _ _ E) as [E1 E2]. exact_arith.
        apply Rleb_true in E1. apply Rleb_true in E2.
        exists 0%nat. split; [lia|]. split; [cbn; lia|]. split.
        -- unfold point_at. cbn. lra.
        -- intros k' Hk'. lia.
      * assert (Hno : ~ (pt_x p <= xi <= pt_x q)).
        { intros [H1 H2]. apply Rleb_true in H1. apply Rleb_true in H2.
          exact_arith. rewrite H1, H2 in E. discriminate. }
        specialize (IH (S j0)).
        destruct (find_segment xi (q :: rest') (S j0)) as [j|]; cbv iota.
        -- destruct IH as (k & -> & Hk & Hin & Hfirst).
           exists (S k). split; [lia|]. split; [cbn [length] in *; lia|].
           split; [exact Hin|].
           intros [|k'] Hk'; [exact Hno|]. apply Hfirst. lia.
        -- intros [|k] Hk; [exact Hno|]. apply IH. cbn [length] in *. lia.
Qed.

Lemma createDrawnPotential_get (x : list number) (points : list Point) i :
  points <> [] -> (i < length x)%nat ->
  get (createDrawnPotential x points) i
  = drawn_value (Array_sort by_x points) (get x i).
Proof.
  intros Hne Hi. unfold createDrawnPotential.
  destruct points as [|p0 ps]; [congruence|]. cbn [length Nat.eqb].
  change (fun a b : Point => (pt_x a - pt_x b)%js) with by_x.
  destruct (fill_loop
              (fun i => drawn_value (Array_sort by_x (p0 :: ps)) (get x i))
              0 (length x) (Float64Array (length x))) as (_ & Hin & _).
  { rewrite length_Float64Array. lia. }
  apply Hin. lia.
Qed.

(** C8, as the code has it.  The control points are sorted by abscissa
    (the sort is stable, so points with equal abscissas keep their order);
    the first sorted point has the smallest abscissa and the last one the
    largest.  At a grid point [xi]:
    - at or below the smallest abscissa the potential is the ordinate of the
      first sorted point;
    - above the smallest abscissa and at or above the largest one it is the
      ordinate of the last sorted point;
    - strictly between two adjacent sorted points it is the linear
      interpolation of their ordinates. *)
Theorem createDrawnPotential_piecewise_linear (x : list number)
    (points : list Point) (i : nat) :
  points <> [] -> (i < length x)%nat ->
  let sp := Array_sort (fun a b => (pt_x a - pt_x b)%js) points in
  let first := point_at sp 0 in
  let last := point_at sp (length sp - 1) in
  let xi := get x i in
  let V := createDrawnPotential x points in
  StronglySorted le_x sp /\ Permutation sp points /\
  (forall p, In p points -> pt_x first <= pt_x p <= pt_x last) /\
  (xi <= pt_x first -> get V i = pt_y first) /\
  (pt_x first < xi -> pt_x last <= xi -> get V i = pt_y last) /\
  (forall j, (j + 1 < length sp)%nat ->
     pt_x (point_at sp j) < xi < pt_x (point_at sp (j + 1)) ->
     get V i
     = pt_y (point_at sp j)
       + (xi - pt_x (point_at sp j))
         / (pt_x (point_at sp (j + 1)) - pt_x (point_at sp j))
         * (pt_y (point_at sp (j + 1)) - pt_y (point_at sp j))).
Proof.
  intros Hne Hi. change (fun a b : Point => (pt_x a - pt_x b)%js) with by_x.
  cbv zeta. rewrite (createDrawnPotential_get x points i Hne Hi).
  destruct (Array_sort_spec points) as [Hsorted Hperm].
  set (sp := Array_sort by_x points) in *.
  set (xi := get x i).
  assert (Hlen : (0 < length sp)%nat).
  { rewrite (Permutation_length Hperm). destruct points; [congruence|cbn; lia]. }
  assert (Hext : forall k, (k < length sp)%nat ->
            pt_x (point_at sp 0) <= pt_x (point_at sp k)
            <= pt_x (point_at sp (length sp - 1))).
  { intros k Hk. split; apply sorted_point_at; auto; lia. }
  split; [exact Hsorted|]. split; [exact Hperm|]. split; [|split; [|split]].
  - intros p Hp. apply (Permutation_in p (Permutation_sym Hperm)) in Hp.
    destruct (In_nth sp p {| pt_x := NaN; pt_y := NaN |} Hp) as (k & Hk & <-).
    apply (Hext k Hk).
  - intros Hlow. unfold drawn_value.
    destruct (match find_segment xi sp 0 with
              | Some j => (j, S j) | None => (0%nat, (length sp - 1)%nat)
              end) as [l r].
    exact_arith. apply Rleb_true in Hlow. rewrite Hlow. reflexivity.
  - intros Hlow Hhigh. unfold drawn_value.
    destruct (match find_segment xi sp 0 with
              | Some j => (j, S j) | None => (0%nat, (length sp - 1)%nat)
              end) as [l r].
    exact_arith. apply Rleb_false in Hlow. apply Rleb_true in Hhigh.
    rewrite Hlow, Hhigh. reflexivity.
  - intros j Hj [Hl Hr]. unfold drawn_value.
    pose proof (Hext j ltac:(lia)) as [Hfirst _].
    pose proof (Hext (j + 1)%nat Hj) as [_ Hlast].
    assert (Hlow : Rleb xi (pt_x (point_at sp 0)) = false)
      by (apply Rleb_false; lra).
    assert (Hhigh : Rleb (pt_x (point_at sp (length sp - 1))) xi = false)
      by (apply Rleb_false; lra).
    pose proof (find_segment_spec xi sp 0) as Hseg.
    destruct (find_segment xi sp 0) as [j'|].
    + destruct Hseg as (k & -> & Hk & Hin & Hmin). cbn [Nat.add].
      assert (k = j) as ->.
      { destruct (Nat.lt_trichotomy k j) as [Hlt|[Heq|Hgt]]; [|exact Heq|].
        - pose proof (sorted_point_at sp Hsorted (k + 1) j ltac:(lia)). lra.
        - exfalso. apply (Hmin j Hgt). lra. }
      exact_arith. rewrite Hlow, Hhigh.
      replace (S j) with (j + 1)%nat by lia. reflexivity.
    + exfalso. apply (Hseg j Hj). lra.
Qed.

(** Two control points drawn at the same abscissa 0, with the ordinates 1
    and 2, and the grid point 0. *)
Definition stacked_points : list Point :=
  [ {| pt_x := 0; pt_y := 1 |}; {| pt_x := 0; pt_y := 2 |} ].

(** C8 as it is stated fails where the grid point is at the largest
    abscissa and at the smallest one too: the test for the lower end comes
    first, and the potential is the ordinate of the first point, not of the
    last. *)
Lemma createDrawnPotential_stacked_points :
  let sp := Array_sort (fun a b => (pt_x a - pt_x b)%js) stacked_points in
  let last := point_at sp (length sp - 1) in
  let V := createDrawnPotential [0] stacked_points in
  get [0] 0 >= pt_x last /\ pt_y last = 2 /\ get V 0 = 1 /\
  get V 0 <> pt_y last.
Proof.
  cbv zeta. change (fun a b : Point => (pt_x a - pt_x b)%js) with by_x.
  assert (Hsp : Array_sort by_x stacked_points = stacked_points).
  { unfold Array_sort, stacked_points. cbn [fold_left sort_insert].
    unfold by_x. cbn [pt_x]. exact_arith.
    replace (Rltb 0 (0 - 0)) with false
      by (symmetry; apply Rltb_false; lra).
    reflexivity. }
  rewrite createDrawnPotential_get;
    [|unfold stacked_points; discriminate|cbn; lia].
  rewrite Hsp. unfold drawn_value, stacked_points, point_at, get.
  cbn [length Nat.sub nth pt_x pt_y find_segment].
  exact_arith.
  replace (Rleb 0 0) with true by (symmetry; apply Rleb_true; lra).
  cbn [andb]. repeat split; try lra.
Qed.

End DrawnPotential.

(** ** The time step on the state that is zero everywhere *)

Section ZeroArrays.
Context {N : JSNum}.

Lemma set_repeat (z : number) m i : set (repeat z m) i z = repeat z m.
Proof.
  revert i; induction m as [|m IH]; intros [|i]; cbn; auto.
  rewrite IH. reflexivity.
Qed.

Lemma set_zero m i : set (Float64Array m) i (lit 0) = Float64Array m.
Proof. apply set_repeat. Qed.

Lemma get_zero m i : (i < m)%nat -> get (Float64Array m) i = lit 0.
Proof. apply get_Float64Array. Qed.

(** A loop that maps the value [s] to itself in every iteration ends with
    [s]. *)
Lemma for_loop_fixed {S : Type} lo n (body : nat -> S -> S) (s : S) :
  (forall j, (j < n)%nat -> body (lo + j)%nat s = s) ->
  for_loop lo n body s = s.
Proof.
  intros Hbody.
  apply (for_loop_ind (fun _ t => t = s)); [reflexivity|].
  intros j t Hj ->. apply Hbody. exact Hj.
Qed.

End ZeroArrays.

(** The discrete Fourier transform of two samples, on interleaved arrays:
    the sums and the differences of the two samples, halved by the inverse
    transform. *)
Definition dft2 {N : JSNum} : FFT := {|
  transform := fun _ v =>
    [nadd (get v 0) (get v 2); nadd (get v 1) (get v 3);
     nsub (get v 0) (get v 2); nsub (get v 1) (get v 3)];
  inverseTransform := fun _ v =>
    [ndiv (nadd (get v 0) (get v 2)) (lit 2);
     ndiv (nadd (get v 1) (get v 3)) (lit 2);
     ndiv (nsub (get v 0) (get v 2)) (lit 2);
     ndiv (nsub (get v 1) (get v 3)) (lit 2)]
|}.

(** *** The zeros of floating-point arithmetic

    A floating-point number is a zero when it is [+0] or [-0], the two
    numbers [x] with [x === 0].  What the operations of binary64 make of
    zeros is read off their specification. *)

Section FloatZeros.
Open Scope float_scope.

Lemma is_zero_spec (x : float) :
  PrimFloat.is_zero x = true <-> exists s, Prim2SF x = S754_zero s.
Proof.
  unfold PrimFloat.is_zero. rewrite FloatAxioms.eqb_spec.
  change (Prim2SF PrimFloat.zero) with (S754_zero false).
  destruct (Prim2SF x) as [s|s| |s m e]; cbn.
  - split; [eauto|reflexivity].
  - split; [destruct s; discriminate|intros [s' Hs]; discriminate].
  - split; [discriminate|intros [s' Hs]; discriminate].
  - split; [destruct s; discriminate|intros [s' Hs]; discriminate].
Qed.

Lemma is_finite_spec (c : float) :
  PrimFloat.is_finite c = true ->
  (exists s, Prim2SF c = S754_zero s) \/
  (exists s m e, Prim2SF c = S754_finite s m e).
Proof.
  unfold PrimFloat.is_finite, PrimFloat.is_nan, PrimFloat.is_infinity.
  rewrite !FloatAxioms.eqb_spec, FloatAxioms.abs_spec.
  change (Prim2SF PrimFloat.infinity) with (S754_infinity false).
  destruct (Prim2SF c) as [s|s| |s m e]; cbn; intros Hc.
  - left. exists s. reflexivity.
  - destruct s; discriminate Hc.
  - discriminate Hc.
  - right. exists s, m, e. reflexivity.
Qed.

Lemma is_positive_spec (d : float) :
  (0 <? d) = true ->
  Prim2SF d = S754_infinity false \/
  (exists m e, Prim2SF d = S754_finite false m e).
Proof.
  rewrite FloatAxioms.ltb_spec.
  change (Prim2SF 0) with (S754_zero false).
  destruct (Prim2SF d) as [s|s| |s m e]; cbn; intros Hd;
    try discriminate Hd; destruct s; try discriminate Hd.
  - left. reflexivity.
  - right. exists m, e. reflexivity.
Qed.

Lemma zero_mul (x c : float) :
  PrimFloat.is_zero x = true -> PrimFloat.is_finite c = true ->
  PrimFloat.is_zero (x * c) = true.
Proof.
  intros Hx Hc. apply is_zero_spec in Hx as [s Hx].
  apply is_zero_spec. rewrite FloatAxioms.mul_spec, Hx.
  destruct (is_finite_spec c Hc) as [[s' E]|(s' & m & e & E)]; rewrite E;
    cbn; eauto.
Qed.

Lemma zero_finite (x : float) :
  PrimFloat.is_zero x = true -> PrimFloat.is_finite x = true.
Proof.
  intros Hx. apply is_zero_spec in Hx as [s Hx].
  unfold PrimFloat.is_finite, PrimFloat.is_nan, PrimFloat.is_infinity.
  rewrite !FloatAxioms.eqb_spec, FloatAxioms.abs_spec, Hx. reflexivity.
Qed.

Lemma zero_add (x y : float) :
  PrimFloat.is_zero x = true -> PrimFloat.is_zero y = true ->
  PrimFloat.is_zero (x + y) = true.
Proof.
  intros Hx Hy. apply is_zero_spec in Hx as [s Hx].
  apply is_zero_spec in Hy as [s' Hy].
  apply is_zero_spec. rewrite FloatAxioms.add_spec, Hx, Hy.
  destruct s, s'; cbn; eauto.
Qed.

Lemma zero_sub (x y : float) :
  PrimFloat.is_zero x = true -> PrimFloat.is_zero y = true ->
  PrimFloat.is_zero (x - y) = true.
Proof.
  intros Hx Hy. apply is_zero_spec in Hx as [s Hx].
  apply is_zero_spec in Hy as [s' Hy].
  apply is_zero_spec. rewrite FloatAxioms.sub_spec, Hx, Hy.
  destruct s, s'; cbn; eauto.
Qed.

Lemma zero_div (x d : float) :
  PrimFloat.is_zero x = true -> (0 <? d) = true ->
  PrimFloat.is_zero (x / d) = true.
Proof.
  intros Hx Hd. apply is_zero_spec in Hx as [s Hx].
  apply is_zero_spec. rewrite FloatAxioms.div_spec, Hx.
  destruct (is_positive_spec d Hd) as [E|(m & e & E)]; rewrite E; cbn; eauto.
Qed.

(** The square root of a zero times any number, a zero or NaN, is not
    positive. *)
Lemma zero_norm (x dx : float) :
  PrimFloat.is_zero x = true -> (0 <? PrimFloat.sqrt (x * dx)) = false.
Proof.
  intros Hx. apply is_zero_spec in Hx as [s Hx].
  rewrite FloatAxioms.ltb_spec, FloatAxioms.sqrt_spec, FloatAxioms.mul_spec, Hx.
  change (Prim2SF 0) with (S754_zero false).
  destruct (Prim2SF dx) as [s'|s'| |s' m e]; reflexivity.
Qed.

Lemma nan_not_zero : PrimFloat.is_zero PrimFloat.nan = false.
Proof. reflexivity. Qed.

End FloatZeros.

Section ZeroState.
Variables (fcos fsin fexp : float -> float) (fpow : float -> nat -> float)
  (fpi : float).
#[local] Hint Extern 0 JSNum =>
  exact (binary64 fcos fsin fexp fpow fpi) : typeclass_instances.
Context {F : FFT}.
Open Scope nat_scope.

(** The first [n] entries of the array are zeros. *)
Definition zeros (n : nat) (a : list number) : Prop :=
  forall i, i < n -> PrimFloat.is_zero (get a i) = true.

(** The first [n] entries of the array are finite numbers. *)
Definition finite_entries (n : nat) (a : list number) : Prop :=
  forall i, i < n -> isFinite (get a i) = true.

(** The two transforms of size [n] send an array of zeros to an array of
    zeros, as a linear map computed with sums and products does. *)
Definition fft_keeps_zeros (n : nat) : Prop :=
  (forall v, length v = 2 * n -> zeros (2 * n) v ->
             zeros (2 * n) (transform n v)) /\
  (forall v, length v = 2 * n -> zeros (2 * n) v ->
             zeros (2 * n) (inverseTransform n v)).

(** An entry read out of range is NaN, which is no zero. *)
Lemma zeros_length (n : nat) (a : list number) : zeros n a -> n <= length a.
Proof.
  intros Hz. destruct (Nat.le_gt_cases n (length a)) as [Hle|Hgt]; [exact Hle|].
  specialize (Hz (length a) Hgt). unfold get in Hz.
  rewrite nth_overflow in Hz by lia. discriminate Hz.
Qed.

Lemma applyOperator_zeros n (op_real op_imag re im : list number) :
  finite_entries n op_real -> finite_entries n op_imag ->
  zeros n re -> zeros n im ->
  let ri := applyOperator n op_real op_imag (re, im) in
  length (fst ri) = length re /\ length (snd ri) = length im /\
  zeros n (fst ri) /\ zeros n (snd ri).
Proof.
  intros Hor Hoi Hre Him. cbv zeta.
  destruct (applyOperator_spec n op_real op_imag re im
              (zeros_length _ _ Hre) (zeros_length _ _ Him)) as (L1 & L2 & Hget).
  split; [exact L1|]. split; [exact L2|].
  split; intros i Hi; destruct (Hget i Hi) as [E1 E2].
  - rewrite E1. apply zero_sub; apply zero_mul; auto.
  - rewrite E2. apply zero_add; apply zero_mul; auto.
Qed.

Lemma interleave_zeros n (re im : list number) :
  zeros n re -> zeros n im ->
  length (interleave n re im) = 2 * n /\ zeros (2 * n) (interleave n re im).
Proof.
  intros Hre Him. destruct (interleave_spec n re im) as (L & Hget).
  split; [exact L|]. intros j Hj.
  assert (Hi : j / 2 < n) by (apply Nat.Div0.div_lt_upper_bound; lia).
  destruct (Hget _ Hi) as [Er Em].
  pose proof (Nat.div_mod_eq j 2) as Hdm.
  pose proof (Nat.mod_upper_bound j 2 ltac:(lia)) as Hm.
  destruct (Nat.eq_dec (j mod 2) 0) as [E|E].
  - replace j with (2 * (j / 2)) by lia. rewrite Er. apply Hre. exact Hi.
  - replace j with (2 * (j / 2) + 1) by lia. rewrite Em. apply Him. exact Hi.
Qed.

(** The two arrays read back from an interleaved array of zeros, each
    entry passed through [f], which keeps zeros. *)
Lemma deinterleave_zeros n (v a b : list number) (f : number -> number) :
  (forall x, PrimFloat.is_zero x = true -> PrimFloat.is_zero (f x) = true) ->
  n <= length a -> n <= length b -> zeros (2 * n) v ->
  let ab :=
    for_loop 0 n
      (fun i '(a, b) =>
         (set a i (f (get v (2 * i))), set b i (f (get v (2 * i + 1)))))
      (a, b) in
  length (fst ab) = length a /\ length (snd ab) = length b /\
  zeros n (fst ab) /\ zeros n (snd ab).
Proof.
  intros Hf Ha Hb Hv. cbv zeta.
  destruct (pointwise_loop2 (fun i _ _ => f (get v (2 * i)))
              (fun i _ _ => f (get v (2 * i + 1))) n a b Ha Hb)
    as (H1 & H2 & H3 & _).
  split; [exact H1|]. split; [exact H2|].
  split; intros i Hi; destruct (H3 i Hi) as [E1 E2].
  - rewrite E1. apply Hf. apply Hv. lia.
  - rewrite E2. apply Hf. apply Hv. lia.
Qed.

Lemma sum_density_zeros n (re im : list number) :
  zeros n re -> zeros n im -> PrimFloat.is_zero (sum_density n re im) = true.
Proof.
  intros Hre Him. unfold sum_density.
  apply (for_loop_ind (fun _ (acc : float) => PrimFloat.is_zero acc = true));
    [reflexivity|].
  intros j acc Hj Hacc. cbn [Nat.add].
  apply zero_add; [exact Hacc|].
  apply zero_add; apply zero_mul; auto using zero_finite.
Qed.

(** The state before [normalize] is called, for a state of zeros. *)
Lemma evolve_zeros (this : TDSESolver) (state : WavefunctionState) :
  let n := gridSize (params this) in
  finite_entries n (expVhalf_real this) ->
  finite_entries n (expVhalf_imag this) ->
  finite_entries n (expT_real this) -> finite_entries n (expT_imag this) ->
  fft_keeps_zeros n -> (of_nat n >? lit 0)%js = true ->
  length (real state) = n -> length (imag state) = n ->
  zeros n (real state) -> zeros n (imag state) ->
  length (real (evolve this state)) = n /\
  length (imag (evolve this state)) = n /\
  zeros n (real (evolve this state)) /\ zeros n (imag (evolve this state)) /\
  time (evolve this state) = (time state + dt (params this))%js.
Proof.
  intros n HVr HVi HTr HTi [Hfft Hifft] Hn Lr Li Zr Zi.
  unfold evolve, applyPotentialOperator, applyKineticOperator. fold n.
  (* Step 1 *)
  destruct (applyOperator_zeros n (expVhalf_real this) (expVhalf_imag this)
              (real state) (imag state) HVr HVi Zr Zi) as (L1r & L1i & Z1r & Z1i).
  destruct (applyOperator n _ _ (real state, imag state)) as [re1 im1].
  cbn [fst snd] in L1r, L1i, Z1r, Z1i.
  (* Step 2 *)
  destruct (interleave_zeros n re1 im1 Z1r Z1i) as (L2 & Z2).
  pose proof (Hfft _ L2 Z2) as Z3.
  destruct (deinterleave_zeros n (transform n (interleave n re1 im1))
              (Float64Array n) (Float64Array n) (fun x => x))
    as (L3r & L3i & Z3r & Z3i); auto;
    try (rewrite length_Float64Array; lia).
  cbv beta in L3r, L3i, Z3r, Z3i.
  destruct (for_loop 0 n _ (Float64Array n, Float64Array n)) as [kr ki].
  cbn [fst snd] in L3r, L3i, Z3r, Z3i.
  (* Step 3 *)
  destruct (applyOperator_zeros n (expT_real this) (expT_imag this) kr ki
              HTr HTi Z3r Z3i) as (L4r & L4i & Z4r & Z4i).
  destruct (applyOperator n _ _ (kr, ki)) as [kr' ki'].
  cbn [fst snd] in L4r, L4i, Z4r, Z4i.
  (* Step 4 *)
  destruct (interleave_zeros n kr' ki' Z4r Z4i) as (L5 & Z5).
  pose proof (Hifft _ L5 Z5) as Z6.
  destruct (deinterleave_zeros n (inverseTransform n (interleave n kr' ki'))
              re1 im1 (fun x => (x / of_nat n)%js))
    as (L6r & L6i & Z6r & Z6i); auto; try lia.
  { intros x Hx. apply zero_div; [exact Hx|exact Hn]. }
  cbv beta in L6r, L6i, Z6r, Z6i.
  destruct (for_loop 0 n _ (re1, im1)) as [re2 im2].
  cbn [fst snd] in L6r, L6i, Z6r, Z6i.
  (* Step 5 *)
  destruct (applyOperator_zeros n (expVhalf_real this) (expVhalf_imag this)
              re2 im2 HVr HVi Z6r Z6i) as (L7r & L7i & Z7r & Z7i).
  destruct (applyOperator n _ _ (re2, im2)) as [re3 im3].
  cbn [fst snd real imag time] in *.
  split; [lia|]. split; [lia|]. split; [exact Z7r|]. split; [exact Z7i|].
  reflexivity.
Qed.

(** C10, as the code has it, in floating point.  Take a solver whose two
    operators hold finite numbers at the indices of the grid, as the
    cosine and the sine of a finite phase are; an FFT that maps arrays of
    zeros to arrays of zeros; and a grid size that, as a number, is
    positive.  If the arrays of the state have the length of the grid and
    every entry of them is a zero then, in [step]: the value [normalize]
    computes for the norm is not positive, so that [normalize] does not
    divide and returns the state as it is (the division, of zero by zero,
    would make every entry NaN); every entry is still a zero; and the time
    has advanced by [dt]. *)
Theorem step_on_zero_state (this : TDSESolver) (state : WavefunctionState) :
  let n := gridSize (params this) in
  finite_entries n (expVhalf_real this) ->
  finite_entries n (expVhalf_imag this) ->
  finite_entries n (expT_real this) -> finite_entries n (expT_imag this) ->
  fft_keeps_zeros n -> (of_nat n >? lit 0)%js = true ->
  length (real state) = n -> length (imag state) = n ->
  zeros n (real state) -> zeros n (imag state) ->
  (norm_of this (evolve this state) >? lit 0)%js = false /\
  step this state = evolve this state /\
  zeros n (real (step this state)) /\ zeros n (imag (step this state)) /\
  time (step this state) = (time state + dt (params this))%js.
Proof.
  intros n HVr HVi HTr HTi Hfft Hn Lr Li Zr Zi.
  destruct (evolve_zeros this state HVr HVi HTr HTi Hfft Hn Lr Li Zr Zi)
    as (_ & _ & Zr' & Zi' & Htime).
  fold n in Zr', Zi'.
  assert (Hnorm : (norm_of this (evolve this state) >? lit 0)%js = false).
  { unfold norm_of. fold n.
    apply (zero_norm _ (this_dx this)).
    apply sum_density_zeros; assumption. }
  assert (Hstep : step this state = evolve this state).
  { unfold step, normalize. rewrite Hnorm. reflexivity. }
  split; [exact Hnorm|]. split; [exact Hstep|]. rewrite Hstep.
  split; [exact Zr'|]. split; [exact Zi'|exact Htime].
Qed.

End ZeroState.

(** The transform of two points keeps zeros. *)
Lemma dft2_keeps_zeros (fcos fsin fexp : float -> float)
    (fpow : float -> nat -> float) (fpi : float) :
  @fft_keeps_zeros fcos fsin fexp fpow fpi
    (@dft2 (binary64 fcos fsin fexp fpow fpi)) 2.
Proof.
  split; intros v _ Hv j Hj;
    assert (H0 : PrimFloat.is_zero (get v 0) = true) by (apply Hv; lia);
    assert (H1 : PrimFloat.is_zero (get v 1) = true) by (apply Hv; lia);
    assert (H2 : PrimFloat.is_zero (get v 2) = true) by (apply Hv; lia);
    assert (H3 : PrimFloat.is_zero (get v 3) = true) by (apply Hv; lia);
    cbn [transform inverseTransform dft2];
    destruct j as [|[|[|[|j]]]]; try lia; unfold get at 1; cbn [nth];
    try (apply zero_div; [|reflexivity]);
    first [apply zero_add | apply zero_sub]; assumption.
Qed.

(** ** Norm preservation *)

Section NormFacts.
#[local] Existing Instance Exact.
Open Scope R_scope.

(** Some sample of the wavefunction is not zero. *)
Definition nonzero (n : nat) (re im : list number) : Prop :=
  exists i, (i < n)%nat /\ (get re i <> 0 \/ get im i <> 0).

(** Every entry of the operator has modulus 1. *)
Definition unit_modulus (n : nat) (op_real op_imag : list number) : Prop :=
  forall i, (i < n)%nat ->
  get op_real i * get op_real i + get op_imag i * get op_imag i = 1.

Lemma sum_density_S n (re im : list number) :
  sum_density (S n) re im
  = sum_density n re im + (get re n * get re n + get im n * get im n).
Proof. unfold sum_density. rewrite for_loop_S. reflexivity. Qed.

Lemma sum_density_0 (re im : list number) : sum_density 0 re im = 0.
Proof. reflexivity. Qed.

Lemma sum_density_nonneg n (re im : list number) : 0 <= sum_density n re im.
Proof.
  induction n as [|n IH]; [rewrite sum_density_0; lra|].
  rewrite sum_density_S. nra.
Qed.

Lemma sum_density_pos n (re im : list number) :
  nonzero n re im -> 0 < sum_density n re im.
Proof.
  intros (i & Hi & Hnz). induction n as [|n IH]; [lia|].
  rewrite sum_density_S. pose proof (sum_density_nonneg n re im) as H0.
  destruct (Nat.eq_dec i n) as [->|Hne].
  - destruct Hnz as [Hr|Hm]; nra.
  - assert (0 < sum_density n re im) by (apply IH; lia). nra.
Qed.

Lemma sum_density_nonzero n (re im : list number) :
  sum_density n re im <> 0 -> nonzero n re im.
Proof.
  induction n as [|n IH]; [rewrite sum_density_0; lra|].
  rewrite sum_density_S. intros Hs.
  destruct (Req_dec (sum_density n re im) 0) as [E|E].
  - exists n. split; [lia|].
    destruct (Req_dec (get re n) 0) as [Er|Er]; [|left; exact Er].
    right. intros Em. apply Hs. rewrite E, Er, Em. exact_arith. ring.
  - destruct (IH E) as (i & Hi & Hnz). exists i. split; [lia|exact Hnz].
Qed.

(** Dividing every sample by [c] divides the sum by the square of [c]. *)
Lemma sum_density_scaled n c (re im re' im' : list number) :
  (forall i, (i < n)%nat -> get re' i = get re i / c /\ get im' i = get im i / c) ->
  sum_density n re' im' = sum_density n re im / (c * c).
Proof.
  intros Hq. induction n as [|n IH].
  - rewrite !sum_density_0. exact_arith. unfold Rdiv. ring.
  - rewrite !sum_density_S. rewrite IH by (intros i Hi; apply Hq; lia).
    destruct (Hq n (Nat.lt_succ_diag_r n)) as [-> ->]. exact_arith.
    destruct (Req_dec c 0) as [->|Hc].
    + unfold Rdiv. rewrite Rmult_0_l, Rinv_0. ring.
    + field. exact Hc.
Qed.

Lemma applyOperator_nonzero n (op_real op_imag re im : list number) :
  unit_modulus n op_real op_imag ->
  (n <= length re)%nat -> (n <= length im)%nat ->
  nonzero n re im ->
  let ri := applyOperator n op_real op_imag (re, im) in
  length (fst ri) = length re /\ length (snd ri) = length im /\
  nonzero n (fst ri) (snd ri).
Proof.
  intros Hunit Hr Hi (i & Hlt & Hnz). cbv zeta.
  destruct (applyOperator_spec n op_real op_imag re im Hr Hi) as (H1 & H2 & H3).
  split; [exact H1|]. split; [exact H2|].
  exists i. split; [exact Hlt|].
  destruct (H3 i Hlt) as [Ea Eb]. exact_arith.
  specialize (Hunit i Hlt).
  set (c := get op_real i) in *. set (s := get op_imag i) in *.
  set (a := get re i) in *. set (b := get im i) in *.
  destruct (Req_dec (a * c - b * s) 0) as [Za|Za]; [|left; congruence].
  destruct (Req_dec (a * s + b * c) 0) as [Zb|Zb]; [|right; congruence].
  exfalso.
  assert (Ha : a = 0).
  { replace a with ((a * c - b * s) * c + (a * s + b * c) * s
                    + a * (1 - (c * c + s * s))) by (exact_arith; ring).
    rewrite Za, Zb, Hunit. exact_arith. ring. }
  assert (Hb : b = 0).
  { replace b with ((a * s + b * c) * c - (a * c - b * s) * s
                    + b * (1 - (c * c + s * s))) by (exact_arith; ring).
    rewrite Za, Zb, Hunit. exact_arith. ring. }
  destruct Hnz; contradiction.
Qed.

Context {F : FFT}.

(** Some entry of an interleaved array of [n] samples is not zero. *)
Definition some_entry (n : nat) (v : list number) : Prop :=
  exists j, (j < 2 * n)%nat /\ get v j <> 0.

(** The two transforms of size [n] send an array that is not zero to an
    array that is not zero, as an invertible linear map does. *)
Definition fft_regular (n : nat) : Prop :=
  (forall v, length v = (2 * n)%nat ->
     some_entry n v -> some_entry n (transform n v)) /\
  (forall v, length v = (2 * n)%nat ->
     some_entry n v -> some_entry n (inverseTransform n v)).

Lemma interleave_some_entry n (re im : list number) :
  nonzero n re im -> some_entry n (interleave n re im).
Proof.
  intros (i & Hi & Hnz). destruct (interleave_spec n re im) as (_ & Hget).
  destruct (Hget i Hi) as [Er Em].
  destruct Hnz as [Hr|Hm].
  - exists (2 * i)%nat. split; [lia|]. rewrite Er. exact Hr.
  - exists (2 * i + 1)%nat. split; [lia|]. rewrite Em. exact Hm.
Qed.

(** The arrays read back from an interleaved array [v], each entry
    divided by [c] when [c] is given. *)
Lemma deinterleave_nonzero n (v a b : list number) (f : number -> number) :
  (forall r, r <> 0 -> f r <> 0) ->
  (n <= length a)%nat -> (n <= length b)%nat ->
  some_entry n v ->
  let ab :=
    for_loop 0 n
      (fun i '(a, b) =>
         (set a i (f (get v (2 * i))), set b i (f (get v (2 * i + 1)))))
      (a, b) in
  length (fst ab) = length a /\ length (snd ab) = length b /\
  nonzero n (fst ab) (snd ab).
Proof.
  intros Hf Ha Hb (j & Hj & Hnz). cbv zeta.
  destruct (pointwise_loop2 (fun i _ _ => f (get v (2 * i)))
              (fun i _ _ => f (get v (2 * i + 1))) n a b Ha Hb)
    as (H1 & H2 & H3 & _).
  split; [exact H1|]. split; [exact H2|].
  exists (j / 2)%nat.
  assert (Hlt : (j / 2 < n)%nat) by (apply Nat.Div0.div_lt_upper_bound; lia).
  split; [exact Hlt|].
  destruct (H3 _ Hlt) as [Er Em].
  pose proof (Nat.div_mod_eq j 2) as Hdm.
  assert (Hcase : (j mod 2 = 0 \/ j mod 2 = 1)%nat).
  { pose proof (Nat.mod_upper_bound j 2). lia. }
  destruct Hcase as [E|E]; rewrite E in Hdm.
  - left. rewrite Er. apply Hf.
    replace (2 * (j / 2))%nat with j by lia. exact Hnz.
  - right. rewrite Em. apply Hf.
    replace (2 * (j / 2) + 1)%nat with j by lia. exact Hnz.
Qed.

(** The state before [normalize] is called: its arrays keep their length,
    and it is not zero when the state [step] is given is not. *)
Lemma evolve_nonzero (this : TDSESolver) (state : WavefunctionState) :
  let n := gridSize (params this) in
  (1 <= n)%nat -> fft_regular n ->
  unit_modulus n (expVhalf_real this) (expVhalf_imag this) ->
  unit_modulus n (expT_real this) (expT_imag this) ->
  length (real state) = n -> length (imag state) = n ->
  nonzero n (real state) (imag state) ->
  length (real (evolve this state)) = n /\
  length (imag (evolve this state)) = n /\
  nonzero n (real (evolve this state)) (imag (evolve this state)).
Proof.
  intros n Hn [Hfft Hifft] HV HT Hre Him Hnz.
  unfold evolve, applyPotentialOperator, applyKineticOperator. fold n.
  (* Step 1 *)
  destruct (applyOperator_nonzero n (expVhalf_real this) (expVhalf_imag this)
              (real state) (imag state) HV) as (L1r & L1i & N1); try lia; auto.
  destruct (applyOperator n _ _ (real state, imag state)) as [re1 im1].
  cbn [fst snd] in L1r, L1i, N1.
  (* Step 2 *)
  pose proof (interleave_some_entry n re1 im1 N1) as E2.
  destruct (interleave_spec n re1 im1) as (L2 & _).
  pose proof (Hfft _ L2 E2) as E3.
  destruct (deinterleave_nonzero n (transform n (interleave n re1 im1))
              (Float64Array n) (Float64Array n) (fun r => r))
    as (L3r & L3i & N3); auto; try (rewrite length_Float64Array; lia).
  cbv beta in L3r, L3i, N3.
  destruct (for_loop 0 n _ (Float64Array n, Float64Array n)) as [kr ki].
  cbn [fst snd] in L3r, L3i, N3. rewrite length_Float64Array in L3r, L3i.
  (* Step 3 *)
  destruct (applyOperator_nonzero n (expT_real this) (expT_imag this) kr ki HT)
    as (L4r & L4i & N4); try lia; auto.
  destruct (applyOperator n _ _ (kr, ki)) as [kr' ki'].
  cbn [fst snd] in L4r, L4i, N4.
  (* Step 4 *)
  pose proof (interleave_some_entry n kr' ki' N4) as E5.
  destruct (interleave_spec n kr' ki') as (L5 & _).
  pose proof (Hifft _ L5 E5) as E6.
  destruct (deinterleave_nonzero n (inverseTransform n (interleave n kr' ki'))
              re1 im1 (fun r => (r / of_nat n)%js))
    as (L6r & L6i & N6); auto; try lia.
  { intros r Hr. exact_arith. unfold Rdiv. apply Rmult_integral_contrapositive.
    split; [exact Hr|]. apply Rinv_neq_0_compat. apply not_0_IZR. lia. }
  cbv beta in L6r, L6i, N6.
  destruct (for_loop 0 n _ (re1, im1)) as [re2 im2].
  cbn [fst snd] in L6r, L6i, N6.
  (* Step 5 *)
  destruct (applyOperator_nonzero n (expVhalf_real this) (expVhalf_imag this)
              re2 im2 HV) as (L7r & L7i & N7); try lia; auto.
  destruct (applyOperator n _ _ (re2, im2)) as [re3 im3].
  cbn [fst snd real imag] in *.
  split; [lia|]. split; [lia|exact N7].
Qed.

(** [normalize] on a state that is not zero, on a grid with [dx > 0]. *)
Lemma normalize_total (this : TDSESolver) (state : WavefunctionState) :
  let n := gridSize (params this) in
  0 < this_dx this ->
  length (real state) = n -> length (imag state) = n ->
  nonzero n (real state) (imag state) ->
  length (real (normalize this state)) = n /\
  length (imag (normalize this state)) = n /\
  getTotalProbability this (normalize this state) = 1.
Proof.
  intros n Hdx Hre Him Hnz.
  pose proof (sum_density_pos n _ _ Hnz) as Hpos.
  unfold normalize, getTotalProbability. fold n.
  set (norm := norm_of this state).
  assert (Hsq : norm * norm = sum_density n (real state) (imag state)
                              * this_dx this).
  { unfold norm, norm_of. fold n. exact_arith. apply sqrt_sqrt. nra. }
  assert (Hnorm : 0 < norm).
  { unfold norm, norm_of. fold n. exact_arith. apply sqrt_lt_R0. nra. }
  exact_arith. replace (Rltb 0 norm) with true
    by (symmetry; apply Rltb_true; exact Hnorm).
  destruct (divide_by_spec n norm (real state) (imag state))
    as (Lr & Li & Hq); try lia.
  destruct (divide_by n norm (real state) (imag state)) as [re' im'].
  cbn [fst snd real imag] in *.
  split; [lia|]. split; [lia|].
  rewrite (sum_density_scaled n norm (real state) (imag state) re' im' Hq).
  exact_arith. rewrite Hsq. field. split; nra.
Qed.

End NormFacts.

Section NormPreservation.
#[local] Existing Instance Exact.
Context {F : FFT}.
Open Scope R_scope.

Lemma cis_unit (phase : R) : cos phase * cos phase + sin phase * sin phase = 1.
Proof. pose proof (sin2_cos2 phase) as E. unfold Rsqr in E. lra. Qed.

Lemma updateKineticOperator_unit (this : TDSESolver) :
  let n := gridSize (params this) in
  length (expT_real this) = n -> length (expT_imag this) = n ->
  unit_modulus n (expT_real (updateKineticOperator this))
    (expT_imag (updateKineticOperator this)).
Proof.
  intros n Hr Hi. unfold updateKineticOperator. fold n.
  loop_invariant (fun (j : nat) (ab : list number * list number) =>
    length (fst ab) = n /\ length (snd ab) = n /\
    forall i, (i < j)%nat ->
      get (fst ab) i * get (fst ab) i + get (snd ab) i * get (snd ab) i = 1).
  - cbn [fst snd]. repeat split; auto. intros i Hlt. lia.
  - intros j [a b] Hj (Ha & Hb & Hin). cbn [fst snd Nat.add] in *.
    rewrite !length_set. split; [exact Ha|]. split; [exact Hb|].
    intros i Hlt. destruct (Nat.eq_dec i j) as [->|Hne].
    + rewrite !get_set_same by lia. exact_arith. apply cis_unit.
    + rewrite !get_set_other by congruence. apply Hin. lia.
  - destruct (for_loop _ _ _ _) as [re im]. cbn [fst snd] in Hloop.
    destruct Hloop as (_ & _ & Hin). cbn [expT_real expT_imag]. exact Hin.
Qed.

(** The solver the constructor makes: its grid spacing and its kinetic
    operator. *)
Lemma TDSESolver_fields_exact (p : SimulationParameters) :
  let this := TDSESolver_fields p in
  let n := pow2_ceil_log2 (gridSize p) in
  gridSize (params this) = n /\
  this_dx this = (xMax p - xMin p) / IZR (Z.of_nat n) /\
  unit_modulus n (expT_real this) (expT_imag this).
Proof.
  cbv zeta. split; [apply TDSESolver_fields_gridSize|].
  unfold TDSESolver_fields.
  set (n := pow2_ceil_log2 (gridSize p)).
  match goal with |- context [updateKineticOperator ?s] => set (s0 := s) end.
  split.
  - destruct (updateKineticOperator_frame s0) as (_ & _ & -> & _).
    reflexivity.
  - apply (updateKineticOperator_unit s0); subst s0;
      cbn [expT_real expT_imag params gridSize]; apply length_Float64Array.
Qed.

(** One step on a solver whose operators have modulus 1 and whose grid
    spacing is positive. *)
Lemma step_normalizes (this : TDSESolver) (state : WavefunctionState) :
  let n := gridSize (params this) in
  (1 <= n)%nat -> 0 < this_dx this -> fft_regular n ->
  unit_modulus n (expVhalf_real this) (expVhalf_imag this) ->
  unit_modulus n (expT_real this) (expT_imag this) ->
  length (real state) = n -> length (imag state) = n ->
  getTotalProbability this state <> 0 ->
  length (real (step this state)) = n /\
  length (imag (step this state)) = n /\
  getTotalProbability this (step this state) = 1.
Proof.
  intros n Hn Hdx Hfft HV HT Hre Him Hprob.
  assert (Hnz : nonzero n (real state) (imag state)).
  { apply sum_density_nonzero. intros E. apply Hprob.
    unfold getTotalProbability. fold n. rewrite E. exact_arith. ring. }
  destruct (evolve_nonzero this state Hn Hfft HV HT Hre Him Hnz)
    as (Lr & Li & Hnz').
  unfold step. apply normalize_total; assumption.
Qed.

(** C1, as the code has it, in exact arithmetic.  Take the solver the
    constructor returns for a grid of at least one point (it returns from
    two points on) on a domain with [xMin < xMax], with [hbar] and [mass]
    not zero (the phases of the two operators divide by them), after a
    call of [setPotential] that returned, and an FFT whose transforms send
    no array other than zero to zero.  Then a state of the length of the grid
    whose total probability is not zero has total probability exactly 1
    after [step]; and a state whose total probability is 1 still has total
    probability 1 after any number of steps. *)
Theorem step_preserves_norm (p : SimulationParameters) (V : list number)
    (solver this : TDSESolver) :
  (1 <= gridSize p)%nat -> xMin p < xMax p -> hbar p <> 0 -> mass p <> 0 ->
  TDSESolver_new p = Normal solver ->
  setPotential solver V = (this, Normal tt) ->
  let n := gridSize (params this) in
  fft_regular n ->
  (forall state,
     length (real state) = n -> length (imag state) = n ->
     getTotalProbability this state <> 0 ->
     getTotalProbability this (step this state) = 1) /\
  (forall state,
     length (real state) = n -> length (imag state) = n ->
     getTotalProbability this state = 1 ->
     forall steps,
       getTotalProbability this (Nat.iter steps (step this) state) = 1).
Proof.
  intros Hg Hdom _ _ Hnew Hset n Hfft.
  apply TDSESolver_new_Normal in Hnew as [-> _].
  destruct (TDSESolver_fields_wf p) as (_ & _ & Hvr & Hvi & _).
  destruct (TDSESolver_fields_exact p) as (Hn0 & Hdx0 & HT0).
  destruct (Nat.eq_dec (length V) (gridSize (params (TDSESolver_fields p))))
    as [Hlen|Hlen];
    [|rewrite (setPotential_throws _ V Hlen) in Hset; discriminate].
  destruct (setPotential_stores (TDSESolver_fields p) V Hvr Hvi Hlen)
    as (this' & E & _ & Hcis & _ & _ & Hp & _ & Hdx & _ & _ & HTr & HTi).
  rewrite E in Hset. injection Hset as <-.
  assert (Hn : n = pow2_ceil_log2 (gridSize p)).
  { unfold n. rewrite Hp. exact Hn0. }
  destruct (pow2_ceil_log2_spec (gridSize p) Hg) as (_ & Hge & _).
  assert (Hn1 : (1 <= n)%nat) by lia.
  assert (Hpos : 0 < this_dx this').
  { rewrite Hdx, Hdx0. apply Rdiv_lt_0_compat; [lra|].
    apply IZR_lt. lia. }
  assert (HV : unit_modulus n (expVhalf_real this') (expVhalf_imag this')).
  { intros i Hi. unfold n in Hi. rewrite Hp in Hi.
    destruct (Hcis i Hi) as [-> ->]. exact_arith. apply cis_unit. }
  assert (HT : unit_modulus n (expT_real this') (expT_imag this')).
  { rewrite HTr, HTi, Hn. exact HT0. }
  assert (Hstep : forall state,
            length (real state) = n -> length (imag state) = n ->
            getTotalProbability this' state <> 0 ->
            length (real (step this' state)) = n /\
            length (imag (step this' state)) = n /\
            getTotalProbability this' (step this' state) = 1).
  { intros state Hre Him Hprob. apply step_normalizes; assumption. }
  split.
  - intros state Hre Him Hprob. apply (Hstep state Hre Him Hprob).
  - intros state Hre Him Hprob steps.
    assert (G : length (real (Nat.iter steps (step this') state)) = n /\
                length (imag (Nat.iter steps (step this') state)) = n /\
                getTotalProbability this' (Nat.iter steps (step this') state)
                = 1).
    { induction steps as [|k IH].
      - cbn [Nat.iter nat_rect]. auto.
      - rewrite Nat.iter_succ. destruct IH as (Lr & Li & Pk).
        apply Hstep; auto. rewrite Pk. exact_arith. lra. }
    apply G.
Qed.

End NormPreservation.

(** ** The Gaussian wavepacket *)

Section GaussianFacts.
#[local] Existing Instance Exact.
Open Scope R_scope.

(** Samples that are not all zero, divided by the square root of their
    sum times a positive grid spacing, have total probability 1. *)
Lemma divide_by_norm (n : nat) (dx : number) (re im : list number) :
  0 < dx -> length re = n -> length im = n -> nonzero n re im ->
  let ri := divide_by n (Math_sqrt (sum_density n re im * dx)%js) re im in
  length (fst ri) = n /\ length (snd ri) = n /\
  sum_density n (fst ri) (snd ri) * dx = 1.
Proof.
  intros Hdx Hre Him Hnz. cbv zeta.
  pose proof (sum_density_pos n _ _ Hnz) as Hpos.
  set (norm := Math_sqrt (sum_density n re im * dx)%js).
  assert (Hsq : norm * norm = sum_density n re im * dx).
  { unfold norm. exact_arith. apply sqrt_sqrt. nra. }
  assert (Hnorm : 0 < norm).
  { unfold norm. exact_arith. apply sqrt_lt_R0. nra. }
  destruct (divide_by_spec n norm re im) as (Lr & Li & Hq); try lia.
  destruct (divide_by n norm re im) as [re' im']. cbn [fst snd] in *.
  split; [lia|]. split; [lia|].
  rewrite (sum_density_scaled n norm re im re' im' Hq).
  exact_arith. rewrite Hsq. field. split; nra.
Qed.

(** On a solver with at least one grid point and a positive grid spacing,
    and for a width that is not zero, the Gaussian wavepacket is a state of
    the length of the grid, at time 0, with total probability 1. *)
Lemma createGaussianWavepacket_normalized (solver : TDSESolver)
    (x0 sigma k0 : number) :
  solver_wf solver -> (1 <= gridSize (params solver))%nat ->
  0 < this_dx solver -> sigma <> 0 ->
  let state := createGaussianWavepacket solver x0 sigma k0 in
  length (real state) = gridSize (params solver) /\
  length (imag state) = gridSize (params solver) /\
  time state = 0 /\
  getTotalProbability solver state = 1.
Proof.
  intros (Hx & _) Hn Hdx _. cbv zeta.
  unfold createGaussianWavepacket, getTotalProbability. rewrite Hx.
  set (n := gridSize (params solver)) in *.
  loop_invariant (fun (j : nat) (ab : list number * list number) =>
    length (fst ab) = n /\ length (snd ab) = n /\
    forall i, (i < j)%nat ->
      exists g, 0 < g /\
        get (fst ab) i = g * cos (k0 * get (this_x solver) i) /\
        get (snd ab) i = g * sin (k0 * get (this_x solver) i)).
  - cbn [fst snd]. rewrite !length_Float64Array. repeat split. intros i Hi. lia.
  - intros j [a b] Hj (Ha & Hb & Hin). cbn [fst snd Nat.add] in *.
    rewrite !length_set. split; [exact Ha|]. split; [exact Hb|].
    intros i Hi. destruct (Nat.eq_dec i j) as [->|Hne].
    + rewrite !get_set_same by lia. eexists. split; [|split; reflexivity].
      exact_arith. apply exp_pos.
    + rewrite !get_set_other by congruence. apply Hin. lia.
  - destruct (for_loop _ _ _ _) as [re im]. cbn [fst snd] in Hloop.
    destruct Hloop as (Lr & Li & Hraw).
    assert (Hnz : nonzero n re im).
    { exists 0%nat. split; [lia|].
      destruct (Hraw 0%nat ltac:(lia)) as (g & Hg & -> & ->).
      set (t := k0 * get (this_x solver) 0).
      pose proof (cis_unit t) as Hu.
      destruct (Req_dec (cos t) 0) as [Ec|Ec].
      - right. rewrite Ec in Hu. intros E.
        apply Rmult_integral in E as [E|E]; [lra|]. rewrite E in Hu. lra.
      - left. intros E. apply Rmult_integral in E as [E|E]; [lra|contradiction]. }
    destruct (divide_by_norm n (this_dx solver) re im Hdx Lr Li Hnz)
      as (Lr' & Li' & Hone).
    destruct (divide_by n _ re im) as [re' im']. cbn [fst snd real imag time] in *.
    repeat split; auto.
Qed.

End GaussianFacts.

(** ** A grid of two points *)

Section TwoPoints.
#[local] Existing Instance Exact.
Open Scope R_scope.

(** The domain [-1, 1) on two points, with the constants of the
    application. *)
Definition two_points : SimulationParameters :=
  {| gridSize := 2; xMin := -1; xMax := 1; dt := 5 / 1000; hbar := 1;
     mass := 1 |}.

(** The same grid with its bounds exchanged. *)
Definition reversed_domain : SimulationParameters :=
  {| gridSize := 2; xMin := 1; xMax := -1; dt := 5 / 1000; hbar := 1;
     mass := 1 |}.

(** The state that is 1 at the first point and 0 at the second. *)
Definition point_state : WavefunctionState :=
  {| real := [1; 0]; imag := [0; 0]; time := 0 |}.

Lemma some_entry_cases (v : list number) :
  some_entry 2 v ->
  get v 0 <> 0 \/ get v 1 <> 0 \/ get v 2 <> 0 \/ get v 3 <> 0.
Proof.
  intros (j & Hj & Hnz).
  destruct j as [|[|[|[|j]]]]; auto; lia.
Qed.

Lemma some_entry_of (a b c d : number) :
  a <> 0 \/ b <> 0 \/ c <> 0 \/ d <> 0 -> some_entry 2 [a; b; c; d].
Proof.
  intros [H|[H|[H|H]]];
    [exists 0%nat|exists 1%nat|exists 2%nat|exists 3%nat]; split; auto; lia.
Qed.

Lemma dft2_regular : @fft_regular dft2 2.
Proof.
  split; intros v _ Hv; apply some_entry_cases in Hv;
    cbn [transform inverseTransform dft2]; apply some_entry_of; exact_arith;
    set (a := get v 0) in *; set (b := get v 1) in *;
    set (c := get v 2) in *; set (d := get v 3) in *.
  - destruct (Req_dec (a + c) 0); [|auto].
    destruct (Req_dec (b + d) 0); [|auto].
    destruct (Req_dec (a - c) 0); [|auto].
    do 3 right. intros Hd. destruct Hv as [Hv|[Hv|[Hv|Hv]]]; apply Hv; lra.
  - destruct (Req_dec ((a + c) / 2) 0); [|auto].
    destruct (Req_dec ((b + d) / 2) 0); [|auto].
    destruct (Req_dec ((a - c) / 2) 0); [|auto].
    do 3 right. intros Hd. destruct Hv as [Hv|[Hv|[Hv|Hv]]]; apply Hv; lra.
Qed.

(** A call of [setPotential] with an array of the length of the grid
    returns. *)
Lemma setPotential_returns (this : TDSESolver) (V : list number) :
  length V = gridSize (params this) ->
  setPotential this V = (fst (setPotential this V), Normal tt).
Proof.
  intros Hlen. unfold setPotential. rewrite Hlen, Nat.eqb_refl. cbn [negb].
  destruct (for_loop _ _ _ _) as [re im]. reflexivity.
Qed.

Lemma two_points_constructed (p : SimulationParameters) :
  gridSize p = 2%nat -> TDSESolver_new p = Normal (TDSESolver_fields p).
Proof.
  intros Hg. apply TDSESolver_new_returns. rewrite Hg.
  split; [lia|]. apply (Nat.pow_le_mono_r 2 1 30); lia.
Qed.

Lemma two_point_grid (p : SimulationParameters) :
  gridSize p = 2%nat ->
  let this := fst (setPotential (TDSESolver_fields p) [0; 0]) in
  setPotential (TDSESolver_fields p) [0; 0] = (this, Normal tt) /\
  gridSize (params this) = 2%nat /\
  this_dx this = (xMax p - xMin p) / 2 /\
  solver_wf this.
Proof.
  intros Hg. cbv zeta.
  destruct (TDSESolver_fields_wf p) as (Hx & Hk & Hvr & Hvi & Htr & Hti & Hpot).
  destruct (TDSESolver_fields_exact p) as (Hn0 & Hdx0 & _).
  rewrite Hg in Hn0, Hdx0.
  change (pow2_ceil_log2 2) with 2%nat in Hn0, Hdx0.
  assert (Hlen : length [0; 0] = gridSize (params (TDSESolver_fields p)))
    by (rewrite Hn0; reflexivity).
  split; [apply setPotential_returns; exact Hlen|].
  destruct (setPotential_stores (TDSESolver_fields p) [0; 0] Hvr Hvi Hlen)
    as (this' & E & Hpot' & _ & Lr & Li & Hp & Ex & Hdx & Ek & _ & HTr & HTi).
  rewrite E. cbn [fst]. rewrite Hp, Hdx. split; [exact Hn0|].
  split; [rewrite Hdx0; reflexivity|].
  unfold solver_wf. rewrite Hp, Ex, Ek, HTr, HTi, Hpot'.
  repeat split; auto.
Qed.

Lemma point_state_probability (this : TDSESolver) :
  gridSize (params this) = 2%nat ->
  getTotalProbability this point_state = this_dx this.
Proof.
  intros Hn. unfold getTotalProbability. rewrite Hn.
  rewrite !sum_density_S, sum_density_0. unfold get, point_state.
  cbn [real imag nth]. exact_arith. ring.
Qed.

End TwoPoints.

(** ** The statements on concrete inputs *)

#[local] Existing Instance Exact.

Section Instances.
Open Scope R_scope.

Lemma getTotalProbability_sign (this : TDSESolver) (state : WavefunctionState) :
  this_dx this <= 0 -> getTotalProbability this state <= 0.
Proof.
  intros Hdx. unfold getTotalProbability.
  pose proof (sum_density_nonneg (gridSize (params this)) (real state)
                (imag state)).
  exact_arith. nra.
Qed.

Lemma step_preserves_norm_witness :
  exists solver this,
    TDSESolver_new two_points = Normal solver /\
    setPotential solver [0; 0] = (this, Normal tt) /\
    getTotalProbability this (@step _ dft2 this point_state) = 1.
Proof.
  pose proof (two_points_constructed two_points eq_refl) as Hnew.
  destruct (two_point_grid two_points eq_refl) as (Hset & Hn & Hdx & _).
  exists (TDSESolver_fields two_points).
  exists (fst (setPotential (TDSESolver_fields two_points) [0; 0])).
  split; [exact Hnew|]. split; [exact Hset|].
  assert (H1 : (1 <= gridSize two_points)%nat) by (cbn; lia).
  assert (H2 : xMin two_points < xMax two_points) by (cbn; lra).
  assert (H3 : hbar two_points <> 0) by (cbn; lra).
  assert (H4 : mass two_points <> 0) by (cbn; lra).
  assert (H5 : @fft_regular dft2
                 (gridSize (params (fst (setPotential (TDSESolver_fields two_points)
                                           [0; 0])))))
    by (rewrite Hn; exact dft2_regular).
  destruct (@step_preserves_norm dft2 two_points [0; 0] _ _ H1 H2 H3 H4 Hnew
              Hset H5) as [Hone _].
  apply Hone.
  - rewrite Hn. reflexivity.
  - rewrite Hn. reflexivity.
  - rewrite (point_state_probability _ Hn), Hdx. cbn. lra.
Defined.

(** C1 as it is stated fails on a domain whose bounds are exchanged: the
    grid spacing is negative, the square of the norm is negative, its
    square root is not a positive number, and [normalize] leaves the state
    as it is; the total probability, a sum of squares times the grid
    spacing, is then not positive. *)
Lemma step_on_reversed_domain :
  exists solver this,
    TDSESolver_new reversed_domain = Normal solver /\
    setPotential solver [0; 0] = (this, Normal tt) /\
    this_dx this = -1 /\
    sum_density 2 (real point_state) (imag point_state) = 1 /\
    getTotalProbability this point_state <> 0 /\
    getTotalProbability this (@step _ dft2 this point_state) <> 1.
Proof.
  destruct (two_point_grid reversed_domain eq_refl) as (Hset & Hn & Hdx & _).
  exists (TDSESolver_fields reversed_domain).
  exists (fst (setPotential (TDSESolver_fields reversed_domain) [0; 0])).
  split; [exact (two_points_constructed reversed_domain eq_refl)|].
  assert (Edx : this_dx (fst (setPotential (TDSESolver_fields reversed_domain)
                                [0; 0])) = -1).
  { rewrite Hdx. cbn [xMax xMin reversed_domain]. exact_arith. lra. }
  split; [exact Hset|]. split; [exact Edx|]. split; [|split].
  - rewrite !sum_density_S, sum_density_0. unfold get, point_state.
    cbn [real imag nth]. exact_arith. ring.
  - rewrite (point_state_probability _ Hn), Edx. lra.
  - pose proof (getTotalProbability_sign
                  (fst (setPotential (TDSESolver_fields reversed_domain) [0; 0]))
                  (@step _ dft2
                     (fst (setPotential (TDSESolver_fields reversed_domain) [0; 0]))
                     point_state)) as Hsign.
    rewrite Edx in Hsign. exact_arith. lra.
Qed.

Lemma setPotential_spec_witness :
  exists solver this',
    TDSESolver_new two_points = Normal solver /\
    setPotential solver [0; 0] = (this', Normal tt) /\
    potential this' = [0; 0].
Proof.
  exists (TDSESolver_fields two_points).
  destruct (TDSESolver_fields_wf two_points) as (_ & _ & Hvr & Hvi & _).
  destruct (setPotential_spec (TDSESolver_fields two_points) [0; 0] Hvr Hvi)
    as (_ & _ & Hok).
  destruct Hok as (this' & E & Hpot & _).
  - rewrite TDSESolver_fields_gridSize. reflexivity.
  - exists this'.
    split; [exact (two_points_constructed two_points eq_refl)|].
    split; assumption.
Defined.

(** A requested grid of 300 points on the default domain. *)
Definition grid_300 : SimulationParameters :=
  {| gridSize := 300; xMin := -10; xMax := 10; dt := 5 / 1000; hbar := 1;
     mass := 1 |}.

Lemma constructor_rounds_gridSize_up_witness :
  exists this,
    TDSESolver_new grid_300 = Normal this /\
    gridSize (params this) = 512%nat /\
    length (this_x this) = 512%nat /\
    length (this_k this) = 512%nat.
Proof.
  assert (H1 : (2 <= gridSize grid_300 <= 2 ^ 30)%nat).
  { cbn [grid_300 gridSize]. split; [lia|].
    apply Nat.le_trans with (2 ^ 9)%nat; [vm_compute; lia|].
    apply Nat.pow_le_mono_r; lia. }
  destruct (constructor_rounds_gridSize_up grid_300 H1)
    as (this & Hnew & Hn & _ & _ & _ & Hx & Hk).
  assert (E : (2 ^ Nat.log2_up (gridSize grid_300) = 512)%nat)
    by (vm_compute; reflexivity).
  exists this. split; [exact Hnew|].
  rewrite Hx, Hk, Hn, E. repeat split.
Defined.

(** C6 as it is stated fails for the requested size 1: the power of two
    is 1, a size the FFT constructor refuses, and the constructor of the
    solver throws.  It throws as well for a requested size above [2 ^ 30],
    such as [2 ^ 31], which the FFT constructor reads as the 32-bit
    integer [- 2 ^ 31]. *)
Definition one_point : SimulationParameters :=
  {| gridSize := 1; xMin := -10; xMax := 10; dt := 5 / 1000; hbar := 1;
     mass := 1 |}.

Definition large_grid : SimulationParameters :=
  {| gridSize := (2 ^ 31)%nat; xMin := -10; xMax := 10; dt := 5 / 1000;
     hbar := 1; mass := 1 |}.

Lemma constructor_refuses_sizes :
  pow2_ceil_log2 (gridSize one_point) = 1%nat /\
  FFT_new 1 = Throw InvalidFFTSize /\
  TDSESolver_new one_point = Throw InvalidFFTSize /\
  ToInt32 (2 ^ 31) = (- 2 ^ 31)%Z /\
  TDSESolver_new large_grid = Throw InvalidFFTSize.
Proof.
  split; [reflexivity|]. split; [apply FFT_new_small; lia|].
  split; [apply TDSESolver_new_throws; left; cbn; lia|]. split.
  - unfold ToInt32. rewrite Z_of_nat_pow2. reflexivity.
  - apply TDSESolver_new_throws. right. cbn [large_grid gridSize].
    apply Nat.pow_lt_mono_r; lia.
Qed.

(** A host for the statements that hold for every host: it prints every
    number as [1], it throws on every text, as a host does on a text that
    mentions a name that is not bound, and it is asked for no pattern and
    for no text beyond ASCII. *)
Definition witness_host : Host :=
  {| Number_toString := fun _ => "1"%string;
     Function_call := fun _ => Throw HostError;
     RegExp_replace := fun _ _ _ => Throw HostError;
     Unicode_toLowerCase := fun text => text |}.

(** [PARAMETER_PRESETS.frequency] *)
Definition frequency_preset : Param :=
  createParameter "k" 1 (-10) 10 (1 / 10) (Some "Frequency/Wave number"%string).

Lemma substituteParameters_whole_words_witness :
  exists pre' post',
    @substituteParameters _ witness_host "sqrt(" [frequency_preset]
    = Normal pre' /\
    @substituteParameters _ witness_host ")+k" [frequency_preset]
    = Normal post' /\
    @substituteParameters _ witness_host "sqrt(k0)+k" [frequency_preset]
    = Normal (pre' ++ "k0" ++ post')%string.
Proof.
  apply (@substituteParameters_whole_words _ witness_host [frequency_preset]
           "sqrt(" "k0" ")+k").
  - constructor; [reflexivity|constructor].
  - reflexivity.
  - reflexivity.
  - reflexivity.
  - cbn. intros [E|[]]. discriminate.
  - apply Permutation_refl.
Defined.

Lemma substituteParameters_sqrt_k0_witness :
  exists k',
    @substituteParameters _ witness_host "k" [frequency_preset] = Normal k' /\
    @substituteParameters _ witness_host "sqrt(k0)+k" [frequency_preset]
    = Normal ("sqrt(k0)+" ++ k')%string.
Proof.
  apply (@substituteParameters_sqrt_k0 _ witness_host [frequency_preset]).
  - constructor; [reflexivity|constructor].
  - cbn. intros [E|[]]. discriminate.
  - cbn. intros [E|[]]. discriminate.
Defined.

(** The expression [A*x], in which [A] is not a parameter. *)
Definition unbound_config : PotentialConfig :=
  {| type := custom_function; v0 := None; x0 := None; width := None;
     omega := None; customFunction := Some "A*x"%string; customPoints := None |}.

Lemma custom_function_error_policies_witness :
  exists solver,
    TDSESolver_new two_points = Normal solver /\
    (let state :=
       @createCustomWavefunction _ witness_host solver "A*x" "" [] in
     get (real state) 0 = 0 /\ get (imag state) 0 = 0) /\
    (exists e',
       @generatePotential _ witness_host (this_x solver) unbound_config 1 []
       = Throw e').
Proof.
  exists (TDSESolver_fields two_points).
  split; [exact (two_points_constructed two_points eq_refl)|].
  assert (Hdiv : forall d : number, (d >? lit 0)%js = true -> (lit 0 / d)%js = lit 0).
  { intros d _. exact_arith. unfold Rdiv. ring. }
  destruct (TDSESolver_fields_wf two_points) as (Hx & _).
  rewrite TDSESolver_fields_gridSize in Hx.
  change (pow2_ceil_log2 (gridSize two_points)) with 2%nat in Hx.
  destruct (@custom_function_error_policies _ witness_host
              (TDSESolver_fields two_points) "A*x" "" "A*x" []
              (this_x (TDSESolver_fields two_points)) unbound_config 1 Hdiv)
    as [Hwave Hpot].
  split.
  - apply (Hwave 0%nat (FailedToEvaluate HostError)).
    + rewrite Hx. lia.
    + reflexivity.
  - assert (Hj : (0 < length (this_x (TDSESolver_fields two_points)))%nat)
      by (rewrite Hx; lia).
    assert (Hthrow : @safeEval_potential _ witness_host [] "A*x"
                       (get (this_x (TDSESolver_fields two_points)) 0)
                     = Throw HostError).
    { unfold safeEval_potential, potential_text.
      replace (is_blank "A*x") with false by (vm_compute; reflexivity).
      cbn [substituteParameters fold_left].
      replace (RegExp_test safe_characters
                 (@potential_replacements _ witness_host "A*x"
                    (get (this_x (TDSESolver_fields two_points)) 0)))
        with true by (vm_compute; reflexivity).
      reflexivity. }
    destruct (Hpot 0%nat HostError Hj Hthrow eq_refl eq_refl) as [_ Hgen].
    exact Hgen.
Defined.

(** Two control points, at -1 with the ordinate 0 and at 1 with the
    ordinate 2. *)
Definition ramp_points : list Point :=
  [ {| pt_x := -1; pt_y := 0 |}; {| pt_x := 1; pt_y := 2 |} ].

Lemma createDrawnPotential_piecewise_linear_witness :
  let sp := Array_sort (fun a b => (pt_x a - pt_x b)%js) ramp_points in
  Permutation sp ramp_points /\
  forall p, In p ramp_points ->
    pt_x (point_at sp 0) <= pt_x p <= pt_x (point_at sp (length sp - 1)).
Proof.
  assert (H1 : ramp_points <> []) by discriminate.
  assert (H2 : (0 < length [0])%nat) by (cbn; lia).
  destruct (createDrawnPotential_piecewise_linear [0] ramp_points 0 H1 H2)
    as (_ & Hperm & Hext & _).
  split; [exact Hperm|exact Hext].
Defined.

(** A host that prints the numbers 2, 1 and 0 and knows the value of the
    sine example. *)
Definition sine_host : @Host Exact :=
  {| Number_toString := fun r : @number Exact =>
       if Req_dec_T r 2 then "2"%string
       else if Req_dec_T r 1 then "1"%string else "0"%string;
     Function_call := fun text =>
       if String.eqb text "(2)*Math.sin((1)*(0)+(0))"
       then Normal (VNumber (lit 0)) else Throw HostError;
     RegExp_replace := fun _ _ _ => Throw HostError;
     Unicode_toLowerCase := fun text => text |}.

(** C7 as it is stated fails for a parameter whose name is not a word:
    the name is compiled as a pattern.  With the parameters [k = 1] and
    [k. = 2], the dot of the second name stands for any character, and the
    identifier [k0] of [sqrt(k0)+k], which is the name of no parameter, is
    replaced by the value of [k.].  With a parameter whose name is empty,
    the pattern is two word boundaries, and the value is put at every
    word boundary of the expression. *)
Definition dotted_bindings : ParameterSet :=
  [ {| p_name := "k"; p_value := lit 1; p_min := -10; p_max := 10;
       p_step := 1 / 10; p_description := None |};
    {| p_name := "k."; p_value := lit 2; p_min := -10; p_max := 10;
       p_step := 1 / 10; p_description := None |} ].

(** The parameter whose name is the empty text, with the value 2. *)
Definition nameless_binding : ParameterSet :=
  [ {| p_name := ""; p_value := lit 2; p_min := -10; p_max := 10;
       p_step := 1 / 10; p_description := None |} ].

Lemma substituteParameters_dotted_name :
  RegExp_parse "\bk.\b"
  = Some (Seq WordB
            (Seq (Chr "k")
               (Seq (Cls (fun a => negb (is_line_terminator a)))
                  (Seq WordB Eps)))) /\
  @substituteParameters _ sine_host "sqrt(k0)+k" dotted_bindings
  = Normal "sqrt((2))+(1)"%string /\
  @substituteParameters _ sine_host "sqrt(k0)+k" nameless_binding
  = Normal "(2)sqrt(2)((2)k0(2))+(2)k(2)"%string.
Proof.
  split; [reflexivity|].
  assert (H2' : @Number_toString _ sine_host (lit 2) = "2"%string).
  { cbn. destruct (Req_dec_T 2 2); [reflexivity|lra]. }
  split;
    [|unfold substituteParameters, nameless_binding;
      cbn [fold_left p_name p_value]; rewrite H2'; vm_compute; reflexivity].
  assert (H2 : @Number_toString _ sine_host (lit 2) = "2"%string).
  { cbn. destruct (Req_dec_T 2 2); [reflexivity|lra]. }
  assert (H1 : @Number_toString _ sine_host (lit 1) = "1"%string).
  { cbn. destruct (Req_dec_T 1 2); [lra|].
    destruct (Req_dec_T 1 1); [reflexivity|lra]. }
  unfold substituteParameters, dotted_bindings.
  cbn [fold_left p_name p_value]. rewrite H1, H2.
  vm_compute. reflexivity.
Qed.

Lemma safeEval_on_sine_example_witness :
  @safeEval_potential _ sine_host sine_bindings "A*sin(k*x+phi)" (lit 0)
  = Normal (lit 0).
Proof.
  assert (H2 : @Number_toString _ sine_host (lit 2) = "2"%string).
  { cbn. destruct (Req_dec_T 2 2); [reflexivity|lra]. }
  assert (H1 : @Number_toString _ sine_host (lit 1) = "1"%string).
  { cbn. destruct (Req_dec_T 1 2); [lra|].
    destruct (Req_dec_T 1 1); [reflexivity|lra]. }
  assert (H0 : @Number_toString _ sine_host (lit 0) = "0"%string).
  { cbn. destruct (Req_dec_T 0 2); [lra|].
    destruct (Req_dec_T 0 1); [lra|reflexivity]. }
  apply (@safeEval_on_sine_example _ sine_host (lit 0) H2 H1 H0);
    reflexivity.
Defined.

Lemma createGaussianWavepacket_normalized_witness :
  let solver := fst (setPotential (TDSESolver_fields two_points) [0; 0]) in
  getTotalProbability solver (createGaussianWavepacket solver (-4) 1 3) = 1.
Proof.
  cbv zeta.
  destruct (two_point_grid two_points eq_refl) as (_ & Hn & Hdx & Hwf).
  apply createGaussianWavepacket_normalized.
  - exact Hwf.
  - rewrite Hn. lia.
  - rewrite Hdx. cbn. lra.
  - lra.
Defined.

End Instances.

(** ** The time step in floating point, on concrete inputs *)

(** [Math.cos], [Math.sin] and [Math.exp] at the arguments for which the
    language fixes their value, the zeros and NaN, and [Math.pow] for the
    exponents 0 and 1.  At the other arguments, where the language leaves
    the value to the implementation, NaN stands for it; the statements
    below evaluate the functions at zeros and at NaN only. *)
Definition cos_special (x : float) : float :=
  if PrimFloat.is_zero x then 1%float else PrimFloat.nan.

Definition sin_special (x : float) : float :=
  if PrimFloat.is_zero x then x else PrimFloat.nan.

Definition exp_special (x : float) : float :=
  if PrimFloat.is_zero x then 1%float else PrimFloat.nan.

Definition pow_special (b : float) (e : nat) : float :=
  match e with
  | O => 1%float
  | S O => b
  | _ => PrimFloat.nan
  end.

(** The number [Math.PI]. *)
Definition pi64 : float := 0x1.921fb54442d18p+1%float.

Abbreviation special64 :=
  (binary64 cos_special sin_special exp_special pow_special pi64).

Section FloatInstances.
#[local] Hint Extern 0 JSNum => exact special64 : typeclass_instances.
Open Scope js_scope.

(** The domain [-1, 1) on two points, with a time step of length 0. *)
Definition still_grid : SimulationParameters :=
  {| gridSize := 2; xMin := lit (-1); xMax := lit 1; dt := lit 0;
     hbar := lit 1; mass := lit 1 |}.

(** The same domain with the time step of the application, and [hbar]
    zero. *)
Definition zero_hbar : SimulationParameters :=
  {| gridSize := 2; xMin := lit (-1); xMax := lit 1; dt := lit 5 / lit 1000;
     hbar := lit 0; mass := lit 1 |}.

(** The state that is 0 at both points. *)
Definition zero_state : WavefunctionState :=
  {| real := [lit 0; lit 0]; imag := [lit 0; lit 0]; time := lit 0 |}.

Lemma step_on_zero_state_witness :
  exists solver this,
    TDSESolver_new still_grid = Normal solver /\
    setPotential solver [lit 0; lit 0] = (this, Normal tt) /\
    @step _ dft2 this zero_state = @evolve _ dft2 this zero_state /\
    (forall i, (i < 2)%nat ->
       PrimFloat.is_zero (get (real (@step _ dft2 this zero_state)) i) = true /\
       PrimFloat.is_zero (get (imag (@step _ dft2 this zero_state)) i) = true).
Proof.
  exists (TDSESolver_fields still_grid).
  exists (fst (setPotential (TDSESolver_fields still_grid) [lit 0; lit 0])).
  set (this := fst (setPotential (TDSESolver_fields still_grid)
                      [lit 0; lit 0])).
  split; [vm_compute; reflexivity|]. split; [vm_compute; reflexivity|].
  assert (Hn : gridSize (params this) = 2%nat) by (vm_compute; reflexivity).
  assert (Hfin : forall a : list number,
            (PrimFloat.is_finite (get a 0) = true) ->
            (PrimFloat.is_finite (get a 1) = true) ->
            finite_entries cos_special sin_special exp_special pow_special
              pi64 (gridSize (params this)) a).
  { intros a H0 H1 i Hi. rewrite Hn in Hi.
    destruct i as [|[|i]]; [exact H0|exact H1|lia]. }
  assert (Hzero : forall a : list number,
            (PrimFloat.is_zero (get a 0) = true) ->
            (PrimFloat.is_zero (get a 1) = true) ->
            zeros cos_special sin_special exp_special pow_special pi64
              (gridSize (params this)) a).
  { intros a H0 H1 i Hi. rewrite Hn in Hi.
    destruct i as [|[|i]]; [exact H0|exact H1|lia]. }
  destruct (step_on_zero_state cos_special sin_special exp_special pow_special
              pi64 (F := dft2) this zero_state)
    as (_ & Hstep & Zr & Zi & _).
  - apply Hfin; vm_compute; reflexivity.
  - apply Hfin; vm_compute; reflexivity.
  - apply Hfin; vm_compute; reflexivity.
  - apply Hfin; vm_compute; reflexivity.
  - rewrite Hn. apply dft2_keeps_zeros.
  - rewrite Hn. vm_compute. reflexivity.
  - rewrite Hn. reflexivity.
  - rewrite Hn. reflexivity.
  - apply Hzero; reflexivity.
  - apply Hzero; reflexivity.
  - split; [exact Hstep|]. intros i Hi. rewrite <- Hn in Hi.
    split; [apply Zr|apply Zi]; exact Hi.
Defined.

(** C10 as it is stated fails on a solver one of whose operators holds a
    number that is not finite.  With [hbar] zero the phase of the
    potential operator is the quotient of zero by zero, NaN, and so are
    its cosine and its sine; the product of a zero of the state by NaN is
    NaN, and after [step] every entry of the state that was zero is NaN.
    (The phases of the kinetic operator are zeros.) *)
Lemma step_on_zero_hbar :
  exists solver this,
    TDSESolver_new zero_hbar = Normal solver /\
    setPotential solver [lit 0; lit 0] = (this, Normal tt) /\
    map (fun i => - hbar zero_hbar * get (this_k solver) i
                  * get (this_k solver) i * dt zero_hbar
                  / (lit 2 * mass zero_hbar)) [0; 1]%nat
    = [(-0)%float; (-0)%float] /\
    map (fun i => - get [lit 0; lit 0] i * dt zero_hbar
                  / (lit 2 * hbar zero_hbar)) [0; 1]%nat
    = [NaN; NaN] /\
    expT_real this = [1%float; 1%float] /\
    expT_imag this = [(-0)%float; (-0)%float] /\
    expVhalf_real this = [NaN; NaN] /\
    expVhalf_imag this = [NaN; NaN] /\
    @step _ dft2 this zero_state
    = {| real := [NaN; NaN]; imag := [NaN; NaN]; time := dt zero_hbar |}.
Proof.
  exists (TDSESolver_fields zero_hbar).
  exists (fst (setPotential (TDSESolver_fields zero_hbar) [lit 0; lit 0])).
  repeat split; vm_compute; reflexivity.
Qed.

End FloatInstances.

(** * Further properties of the core *)

(** ** What a match consumes *)

Section RegexFacts.

(** The characters a pattern can pass over. *)
Fixpoint consumes (r : regex) (c : ascii) : bool :=
  match r with
  | Chr a => Ascii.eqb c a
  | Cls f => f c
  | Seq r1 r2 => consumes r1 c || consumes r2 c
  | Star r1 => consumes r1 c
  | _ => false
  end.

(** The position [q] is the position [p] after the characters [m]. *)
Definition passes (m : list ascii) (p q : cursor) : Prop :=
  snd p = m ++ snd q /\ fst q = last_of (fst p) m.

Lemma last_of_app prev m1 m2 :
  last_of prev (m1 ++ m2) = last_of (last_of prev m1) m2.
Proof.
  revert prev; induction m1 as [|c m1 IH]; intros prev; [reflexivity|].
  cbn [app last_of]. apply IH.
Qed.

Lemma passes_nil p : passes [] p p.
Proof. split; reflexivity. Qed.

Lemma passes_app m1 m2 p q r :
  passes m1 p q -> passes m2 q r -> passes (m1 ++ m2) p r.
Proof.
  intros [E1 L1] [E2 L2]. split.
  - rewrite E1, E2, app_assoc. reflexivity.
  - rewrite L2, L1, last_of_app. reflexivity.
Qed.

Lemma passes_length m p q : passes m p q ->
  length (snd p) - length (snd q) = length m /\
  firstn (length m) (snd p) = m.
Proof.
  intros [E _]. rewrite E, length_app. split; [lia|].
  rewrite firstn_app, Nat.sub_diag, firstn_all. cbn [firstn].
  apply app_nil_r.
Qed.

(** A match passes over characters of the pattern only, and then goes on
    with the rest of the pattern. *)
Lemma rmatch_passes r : forall p k q,
  rmatch r p k = Some q ->
  exists m p', passes m p p' /\ forallb (consumes r) m = true /\ k p' = Some q.
Proof.
  induction r as [|c|f|r1 IH1 r2 IH2|r1 IH1| |r1 IH1| |]; intros p k q Hm;
    cbn [rmatch] in Hm.
  - exists [], p. split; [apply passes_nil|]. split; [reflexivity|exact Hm].
  - destruct p as [prev [|a s]]; cbn [snd] in Hm; [discriminate|].
    destruct (Ascii.eqb a c) eqn:E; [|discriminate].
    exists [a], (Some a, s). split; [split; reflexivity|].
    split; [cbn; rewrite E; reflexivity|exact Hm].
  - destruct p as [prev [|a s]]; cbn [snd] in Hm; [discriminate|].
    destruct (f a) eqn:E; [|discriminate].
    exists [a], (Some a, s). split; [split; reflexivity|].
    split; [cbn; rewrite E; reflexivity|exact Hm].
  - destruct (IH1 _ _ _ Hm) as (m1 & p1 & P1 & F1 & K1).
    destruct (IH2 _ _ _ K1) as (m2 & p2 & P2 & F2 & K2).
    exists (m1 ++ m2), p2. split; [exact (passes_app _ _ _ _ _ P1 P2)|].
    split; [|exact K2].
    rewrite forallb_app. apply andb_true_intro. split.
    + rewrite forallb_forall in F1 |- *. intros c Hc. cbn [consumes].
      rewrite (F1 c Hc). reflexivity.
    + rewrite forallb_forall in F2 |- *. intros c Hc. cbn [consumes].
      rewrite (F2 c Hc). apply orb_true_r.
  - revert Hm. generalize (length (snd p)) as fuel. intros fuel; revert p.
    induction fuel as [|fuel IHf]; intros p Hm.
    + exists [], p. split; [apply passes_nil|]. split; [reflexivity|exact Hm].
    + match type of Hm with or_else ?a ?b = _ => destruct a as [x|] eqn:E end.
      * cbn [or_else] in Hm. injection Hm as ->.
        destruct (IH1 _ _ _ E) as (m1 & p1 & P1 & F1 & K1).
        destruct (length (snd p1) <? length (snd p)); [|discriminate].
        destruct (IHf p1 K1) as (m2 & p2 & P2 & F2 & K2).
        exists (m1 ++ m2), p2. split; [exact (passes_app _ _ _ _ _ P1 P2)|].
        split; [|exact K2].
        rewrite forallb_app. apply andb_true_intro. split; assumption.
      * cbn [or_else] in Hm.
        exists [], p. split; [apply passes_nil|]. split; [reflexivity|exact Hm].
  - destruct (at_word_boundary p); [|discriminate].
    exists [], p. split; [apply passes_nil|]. split; [reflexivity|exact Hm].
  - destruct (rmatch r1 p (fun q => Some q)); [discriminate|].
    exists [], p. split; [apply passes_nil|]. split; [reflexivity|exact Hm].
  - destruct (fst p); [discriminate|].
    exists [], p. split; [apply passes_nil|]. split; [reflexivity|exact Hm].
  - destruct (snd p); [|discriminate].
    exists [], p. split; [apply passes_nil|]. split; [reflexivity|exact Hm].
Qed.

Lemma exec_passes r p q :
  exec r p = Some q -> exists m, passes m p q /\ forallb (consumes r) m = true.
Proof.
  intros Hm. destruct (rmatch_passes r p _ q Hm) as (m & p' & P & F & K).
  injection K as ->. exists m. split; assumption.
Qed.

(** A character the pattern cannot pass over is in the text after the
    replacement if it was in the text before. *)
Lemma scan_replace_keeps r rep c :
  consumes r c = false ->
  forall s prev skip,
  forallb (consumes r) (firstn skip s) = true ->
  In c s -> In c (scan_replace r rep prev s skip).
Proof.
  intros Hc. induction s as [|a s IH]; intros prev skip Hskip Hin;
    [destruct Hin|].
  destruct skip as [|n].
  - cbn [scan_replace].
    destruct (exec r (prev, a :: s)) as [[prev' rest]|] eqn:E.
    + apply in_or_app. right.
      destruct (exec_passes _ _ _ E) as (m & P & F).
      destruct (passes_length _ _ _ P) as [Hlen Hfirst].
      cbn [snd] in Hlen, Hfirst. rewrite Hlen.
      destruct m as [|a' m']; cbn [length].
      * destruct Hin as [->|Hin]; [left; reflexivity|right].
        apply IH; [reflexivity|exact Hin].
      * cbn [length firstn] in Hfirst. injection Hfirst as <- Hfirst.
        cbn [forallb] in F. apply andb_prop in F as [Fa F].
        destruct Hin as [->|Hin]; [congruence|].
        apply IH; [rewrite Hfirst; exact F|exact Hin].
    + destruct Hin as [->|Hin]; [left; reflexivity|right].
      apply IH; [reflexivity|exact Hin].
  - cbn [scan_replace]. cbn [firstn forallb] in Hskip.
    apply andb_prop in Hskip as [Fa Hskip].
    destruct Hin as [->|Hin]; [congruence|].
    apply IH; assumption.
Qed.

Lemma String_replace_keeps (s : string) r (rep : string) c :
  consumes r c = false ->
  In c (list_ascii_of_string s) ->
  In c (list_ascii_of_string (String_replace s r rep)).
Proof.
  intros Hc Hin. unfold String_replace.
  rewrite list_ascii_of_string_of_list_ascii.
  apply scan_replace_keeps; [exact Hc|reflexivity|exact Hin].
Qed.

(** Every match the scan lists is a text the pattern matches somewhere. *)
Lemma scan_matches_Forall r (P : list ascii -> Prop) :
  (forall prev s q, exec r (prev, s) = Some q ->
     P (firstn (length s - length (snd q)) s)) ->
  forall s prev skip, Forall P (scan_matches r prev s skip).
Proof.
  intros HP. induction s as [|a s IH]; intros prev skip.
  - cbn [scan_matches]. destruct skip; [|constructor].
    destruct (exec r (prev, [])) as [q|] eqn:E; [|constructor].
    constructor; [|constructor]. exact (HP _ _ _ E).
  - cbn [scan_matches]. destruct skip as [|n]; [|apply IH].
    destruct (exec r (prev, a :: s)) as [[prev' rest]|] eqn:E; [|apply IH].
    constructor; [|apply IH]. exact (HP _ _ _ E).
Qed.

(** The greedy star of a class passes over a text of the class to its end,
    if the rest of the pattern matches there. *)
Lemma rmatch_Star_Cls f k : forall s prev q,
  forallb f s = true -> k (last_of prev s, []) = Some q ->
  rmatch (Star (Cls f)) (prev, s) k = Some q.
Proof.
  induction s as [|a s IH]; intros prev q Hf Hk.
  - exact Hk.
  - cbn [forallb] in Hf. apply andb_prop in Hf as [Ha Hf].
    pose proof (IH (Some a) q Hf Hk) as E.
    cbn [rmatch snd length] in E |- *. rewrite Ha.
    replace (length s <? S (length s)) with true
      by (symmetry; apply Nat.ltb_lt; lia).
    rewrite E. reflexivity.
Qed.

(** A pattern that starts with [^] matches at the start of the text
    only. *)
Lemma scan_test_Bol r (s : list ascii) :
  scan_test (Seq Bol r) None s
  = match exec (Seq Bol r) (None, s) with Some _ => true | None => false end.
Proof.
  assert (H : forall t c, scan_test (Seq Bol r) (Some c) t = false).
  { induction t as [|a t IH]; intros c; [reflexivity|].
    cbn [scan_test exec rmatch fst]. apply IH. }
  destruct s as [|a s]; cbn [scan_test].
  - destruct (exec (Seq Bol r) (None, [])); reflexivity.
  - destruct (exec (Seq Bol r) (None, a :: s)); [reflexivity|apply H].
Qed.

End RegexFacts.

(** ** Parameter names ([isValidParameterName] and the two extractors) *)

Section NameFacts.

(** A letter followed by letters and digits. *)
Definition letter_then_alnum (l : list ascii) : bool :=
  match l with
  | c :: rest => is_letter c && forallb is_alnum rest
  | [] => false
  end.

Lemma String_length_chars (s : string) :
  String.length s = length (list_ascii_of_string s).
Proof. induction s as [|c s IH]; cbn; [reflexivity|]. rewrite IH. reflexivity. Qed.

Lemma exec_namePattern (s : list ascii) :
  exec namePattern (None, s)
  = match s with
    | a :: s' =>
        if is_letter a then
          rmatch (Star (Cls is_alnum)) (Some a, s')
            (fun q => rmatch Eol q (fun q => Some q))
        else None
    | [] => None
    end.
Proof. destruct s as [|a s']; reflexivity. Qed.

Lemma namePattern_test (name : string) :
  RegExp_test namePattern name = letter_then_alnum (list_ascii_of_string name).
Proof.
  unfold RegExp_test. unfold namePattern at 1. rewrite scan_test_Bol.
  fold namePattern. rewrite exec_namePattern.
  destruct (list_ascii_of_string name) as [|a s']; [reflexivity|].
  cbn [letter_then_alnum].
  destruct (is_letter a); [|reflexivity]. cbn [andb].
  destruct (rmatch (Star (Cls is_alnum)) (Some a, s') _) as [q|] eqn:E.
  - symmetry.
    destruct (rmatch_passes _ _ _ _ E) as (m & p' & [P _] & F & K).
    cbn [rmatch] in K. destruct (snd p') eqn:Ep; [|discriminate].
    cbn [snd] in P. rewrite app_nil_r in P. subst s'. exact F.
  - destruct (forallb is_alnum s') eqn:Hs; [|reflexivity].
    pose proof (rmatch_Star_Cls is_alnum
                  (fun q : cursor => rmatch Eol q (fun q => Some q)) s' (Some a)
                  (last_of (Some a) s', []) Hs eq_refl) as E'.
    pose proof (eq_trans (eq_sym E) E') as X. discriminate X.
Qed.

Lemma alnum_word_char c : is_alnum c = true -> is_word_char c = true.
Proof. intros Hc. unfold is_word_char. rewrite Hc. reflexivity. Qed.

Lemma letter_alnum c : is_letter c = true -> is_alnum c = true.
Proof. intros Hc. unfold is_alnum. rewrite Hc. reflexivity. Qed.

Lemma valid_name_chars (name : string) :
  isValidParameterName name = true ->
  exists c rest,
    list_ascii_of_string name = c :: rest /\ rest <> [] /\
    is_letter c = true /\ forallb is_alnum rest = true.
Proof.
  unfold isValidParameterName.
  rewrite namePattern_test, String_length_chars.
  intros Hv. apply andb_prop in Hv as [L Hlen].
  destruct (list_ascii_of_string name) as [|c rest]; [discriminate|].
  cbn [letter_then_alnum] in L. apply andb_prop in L as [Hc Hr].
  exists c, rest. split; [reflexivity|]. split; [|split; assumption].
  intros ->. discriminate.
Qed.

(** The name check accepts exactly the names of at least two characters
    that start with a letter and go on with letters and digits; such a name
    is a word, which is what the substitution of parameters asks of a
    name. *)
Lemma isValidParameterName_spec (name : string) :
  (isValidParameterName name = true <->
   exists c rest,
     list_ascii_of_string name = c :: rest /\ rest <> [] /\
     is_letter c = true /\ forallb is_alnum rest = true) /\
  (isValidParameterName name = true -> is_word name = true).
Proof.
  split; [split; [apply valid_name_chars|]|].
  - intros (c & rest & E & Hne & Hc & Hr). unfold isValidParameterName.
    rewrite namePattern_test, String_length_chars, E.
    cbn [letter_then_alnum]. rewrite Hc, Hr.
    destruct rest; [congruence|reflexivity].
  - intros Hv. apply valid_name_chars in Hv as (c & rest & E & _ & Hc & Hr).
    unfold is_word. rewrite E. cbn [forallb].
    rewrite (alnum_word_char c (letter_alnum c Hc)). cbn [andb].
    rewrite forallb_forall in Hr |- *. intros x Hx.
    apply alnum_word_char, Hr, Hx.
Qed.

(** *** The lists the extractors return *)

Lemma Set_values_In seen l n :
  In n (Set_values seen l) -> In n l /\ existsb (String.eqb n) seen = false.
Proof.
  revert seen; induction l as [|h t IH]; intros seen Hin; [destruct Hin|].
  cbn [Set_values] in Hin.
  destruct (existsb (String.eqb h) seen) eqn:E.
  - destruct (IH _ Hin) as [H1 H2]. split; [right; exact H1|exact H2].
  - destruct Hin as [<-|Hin]; [split; [left; reflexivity|exact E]|].
    destruct (IH _ Hin) as [H1 H2]. split; [right; exact H1|].
    cbn [existsb] in H2. apply orb_false_elim in H2 as [_ H2]. exact H2.
Qed.

Lemma Set_values_NoDup seen l : NoDup (Set_values seen l).
Proof.
  revert seen; induction l as [|h t IH]; intros seen; cbn [Set_values];
    [constructor|].
  destruct (existsb (String.eqb h) seen); [apply IH|].
  constructor; [|apply IH].
  intros Hin. apply Set_values_In in Hin as [_ H2].
  cbn [existsb] in H2. rewrite String.eqb_refl in H2. discriminate.
Qed.

Lemma Set_has_In l n : Set_has l n = true <-> In n l.
Proof.
  unfold Set_has. rewrite existsb_exists. split.
  - intros (x & Hx & E). apply String.eqb_eq in E. subst. exact Hx.
  - intros Hin. exists n. split; [exact Hin|apply String.eqb_refl].
Qed.

(** The pattern of [extractParameterNames]. *)
Definition parameterPattern : regex :=
  Seq WordB (Seq (Cls is_letter) (Seq (Star (Cls is_alnum)) not_a_call)).

(** The pattern of [extractSingleLetterVariables]. *)
Definition singleLetterPattern : regex :=
  Seq WordB (Seq (Cls is_letter) not_a_call).

Lemma exec_parameterPattern prev (s : list ascii) :
  exec parameterPattern (prev, s)
  = if at_word_boundary (prev, s) then
      match s with
      | a :: s' =>
          if is_letter a then
            rmatch (Seq (Star (Cls is_alnum)) not_a_call) (Some a, s')
              (fun q => Some q)
          else None
      | [] => None
      end
    else None.
Proof.
  unfold exec, parameterPattern. cbn [rmatch].
  destruct (at_word_boundary (prev, s)); [|reflexivity].
  destruct s as [|a s']; reflexivity.
Qed.

Lemma parameterPattern_match prev (s : list ascii) q :
  exec parameterPattern (prev, s) = Some q ->
  letter_then_alnum (firstn (length s - length (snd q)) s) = true.
Proof.
  rewrite exec_parameterPattern.
  destruct (at_word_boundary (prev, s)); [|discriminate].
  destruct s as [|a s']; [discriminate|].
  destruct (is_letter a) eqn:Ha; [|discriminate]. intros E.
  destruct (rmatch_passes _ _ _ _ E) as (m & p' & P & F & K).
  injection K as ->.
  destruct (passes_length _ _ _ P) as [Hlen Hfirst]. cbn [snd] in Hlen, Hfirst.
  assert (Hle : length (snd q) <= length s').
  { destruct P as [P _]. cbn [snd] in P. rewrite P, length_app. lia. }
  replace (length (a :: s') - length (snd q)) with (S (length m))
    by (cbn [length]; lia).
  cbn [firstn letter_then_alnum]. rewrite Hfirst, Ha. cbn [andb].
  rewrite forallb_forall in F |- *. intros c Hc.
  specialize (F c Hc). cbn [consumes not_a_call] in F.
  rewrite orb_false_r in F. exact F.
Qed.

Lemma singleLetterPattern_match prev (s : list ascii) q :
  exec singleLetterPattern (prev, s) = Some q ->
  exists a, firstn (length s - length (snd q)) s = [a] /\ is_letter a = true.
Proof.
  unfold exec, singleLetterPattern. cbn [rmatch].
  destruct (at_word_boundary (prev, s)); [|discriminate].
  destruct s as [|a s']; cbn [snd]; [discriminate|].
  destruct (is_letter a) eqn:Ha; [|discriminate].
  unfold not_a_call. cbn [rmatch].
  match goal with |- context [match ?x with Some _ => None | None => _ end] =>
    destruct x; [discriminate|] end.
  intros E. injection E as <-. cbn [snd length].
  replace (S (length s') - length s') with 1 by lia.
  exists a. split; [reflexivity|exact Ha].
Qed.

Lemma letter_then_alnum_valid (m : list ascii) :
  letter_then_alnum m = true -> 1 < length m ->
  isValidParameterName (string_of_list_ascii m) = true.
Proof.
  intros L Hlen. unfold isValidParameterName.
  rewrite namePattern_test, String_length_chars,
    list_ascii_of_string_of_list_ascii, L.
  apply Nat.ltb_lt. exact Hlen.
Qed.

Lemma extractParameterNames_names (expression name : string) :
  In name (extractParameterNames expression) ->
  isValidParameterName name = true.
Proof.
  unfold extractParameterNames. cbv zeta. fold parameterPattern.
  intros Hin. apply Set_values_In in Hin as [Hin _].
  apply filter_In in Hin as [Hin Hf].
  apply andb_prop in Hf as [_ Hlen].
  unfold String_match in Hin. apply in_map_iff in Hin as (m & <- & Hm).
  pose proof (scan_matches_Forall parameterPattern
                (fun m => letter_then_alnum m = true)
                parameterPattern_match
                (list_ascii_of_string expression) None 0) as HF.
  rewrite Forall_forall in HF. specialize (HF m Hm).
  apply letter_then_alnum_valid; [exact HF|].
  apply Nat.ltb_lt in Hlen.
  rewrite String_length_chars, list_ascii_of_string_of_list_ascii in Hlen.
  exact Hlen.
Qed.

Lemma extractSingleLetterVariables_names (expression name : string) :
  In name (extractSingleLetterVariables expression) ->
  exists c, name = String c EmptyString /\ is_letter c = true.
Proof.
  unfold extractSingleLetterVariables. cbv zeta. fold singleLetterPattern.
  intros Hin. apply Set_values_In in Hin as [Hin _].
  apply filter_In in Hin as [Hin _].
  unfold String_match in Hin. apply in_map_iff in Hin as (m & <- & Hm).
  pose proof (scan_matches_Forall singleLetterPattern
                (fun m => exists a, m = [a] /\ is_letter a = true)
                singleLetterPattern_match
                (list_ascii_of_string expression) None 0) as HF.
  rewrite Forall_forall in HF. destruct (HF m Hm) as (a & -> & Ha).
  exists a. split; [reflexivity|exact Ha].
Qed.

Lemma extractors_NoDup (expression : string) :
  NoDup (extractSingleLetterVariables expression
         ++ extractParameterNames expression).
Proof.
  apply NoDup_app;
    [apply Set_values_NoDup|apply Set_values_NoDup|].
  intros name H1 H2.
  destruct (extractSingleLetterVariables_names _ _ H1) as (c & -> & _).
  apply extractParameterNames_names in H2. unfold isValidParameterName in H2.
  cbn [String.length] in H2. rewrite andb_false_r in H2. discriminate.
Qed.

(** The names [extractParameterNames] returns are pairwise different, each
    of them passes the name check, and none of them is a reserved word. *)
Lemma extractParameterNames_valid (expression : string) :
  NoDup (extractParameterNames expression) /\
  forall name, In name (extractParameterNames expression) ->
    isValidParameterName name = true /\
    ~ In (toLowerCase name)
        ["x"; "t"; "i"; "pi"; "e"; "sin"; "cos"; "tan"; "sinh"; "cosh";
         "tanh"; "exp"; "sqrt"; "abs"; "log"; "ln"; "true"; "false"; "if";
         "else"]%string.
Proof.
  unfold extractParameterNames. cbv zeta. fold parameterPattern.
  split; [apply Set_values_NoDup|].
  intros name Hin.
  split; [exact (extractParameterNames_names expression name Hin)|].
  unfold extractParameterNames in Hin. cbv zeta in Hin.
  apply Set_values_In in Hin as [Hin _].
  apply filter_In in Hin as [_ Hf].
  apply andb_prop in Hf as [Hres _].
  intros Hr. apply Set_has_In in Hr. rewrite Hr in Hres. discriminate.
Qed.

(** The names [extractSingleLetterVariables] returns are pairwise
    different single letters other than [x], [t] and [i] in either case;
    none of them passes the name check. *)
Lemma extractSingleLetterVariables_letters (expression : string) :
  NoDup (extractSingleLetterVariables expression) /\
  forall name, In name (extractSingleLetterVariables expression) ->
    (exists c, name = String c EmptyString /\ is_letter c = true) /\
    ~ In (toLowerCase name) ["x"; "t"; "i"]%string /\
    isValidParameterName name = false.
Proof.
  split; [apply Set_values_NoDup|].
  intros name Hin.
  pose proof (extractSingleLetterVariables_names expression name Hin) as Hc.
  unfold extractSingleLetterVariables in Hin. cbv zeta in Hin.
  apply Set_values_In in Hin as [Hin _].
  apply filter_In in Hin as [Hin Hf].
  split; [exact Hc|]. split.
  - intros Hr. apply Set_has_In in Hr. rewrite Hr in Hf. discriminate.
  - destruct Hc as (c & -> & _). unfold isValidParameterName.
    cbn [String.length]. apply andb_false_r.
Qed.

End NameFacts.

(** ** Suggested parameters and parameter objects *)

Section SuggestionFacts.
Context {N : JSNum} {H : Host}.

Lemma fold_push {A B : Type} (f : A -> B) (l : list A) (acc : list B) :
  fold_left (fun s a => s ++ [f a]) l acc = acc ++ map f l.
Proof.
  revert acc; induction l as [|a l IH]; intros acc; cbn [fold_left map].
  - symmetry. apply app_nil_r.
  - rewrite IH, <- app_assoc. reflexivity.
Qed.

(** The suggestion for a detected name. *)
Definition suggestion (name : string) : Param :=
  createParameter name (lit 1) (lit (-10)) (lit 10) tenth None.

Lemma getSuggestedParameters_map (expression : string) :
  getSuggestedParameters expression
  = map suggestion
      (extractSingleLetterVariables expression
       ++ extractParameterNames expression).
Proof.
  unfold getSuggestedParameters. cbv zeta.
  fold suggestion. rewrite !fold_push, map_app. reflexivity.
Qed.

Lemma suggestion_names (l : list string) : map p_name (map suggestion l) = l.
Proof.
  induction l as [|a l IH]; cbn [map]; [reflexivity|].
  rewrite IH. reflexivity.
Qed.

(** [getSuggestedParameters] returns one parameter for each detected name,
    the single letters first, each with the range from -10 to 10 and the
    step 0.1; no two of them have the same name. *)
Lemma getSuggestedParameters_names (expression : string) :
  let suggestions := getSuggestedParameters expression in
  map p_name suggestions
  = extractSingleLetterVariables expression
    ++ extractParameterNames expression /\
  NoDup (map p_name suggestions) /\
  Forall (fun p => p_min p = lit (-10) /\ p_max p = lit 10 /\
                   p_step p = tenth /\ p_description p = None) suggestions.
Proof.
  cbv zeta. rewrite getSuggestedParameters_map, suggestion_names.
  split; [reflexivity|]. split.
  - apply extractors_NoDup.
  - apply Forall_forall. intros p Hp. apply in_map_iff in Hp as (name & <- & _).
    repeat split.
Qed.

(** *** Objects *)

Lemma Object_own_set (o : ParameterObject) key v key' :
  Object_own (Object_set o key v) key'
  = if String.eqb key key' then Some v else Object_own o key'.
Proof.
  induction o as [|[k w] t IH]; cbn [Object_set Object_own].
  - reflexivity.
  - destruct (String.eqb k key) eqn:E; cbn [Object_own].
    + apply String.eqb_eq in E. subst k.
      destruct (String.eqb key key'); reflexivity.
    + destruct (String.eqb k key') eqn:E'.
      * apply String.eqb_eq in E'. subst k. rewrite String.eqb_sym, E.
        reflexivity.
      * exact IH.
Qed.

Lemma Object_set_new (o : ParameterObject) key v :
  ~ In key (Object_keys o) -> Object_set o key v = o ++ [(key, v)].
Proof.
  induction o as [|[k w] t IH]; cbn [Object_set Object_keys map fst app];
    intros Hnot; [reflexivity|].
  destruct (String.eqb k key) eqn:E.
  - apply String.eqb_eq in E. exfalso. apply Hnot. left. exact E.
  - rewrite IH; [reflexivity|]. intros Hin. apply Hnot. right. exact Hin.
Qed.

Lemma Object_keys_set (o : ParameterObject) key v :
  Object_keys (Object_set o key v)
  = if Set_has (Object_keys o) key then Object_keys o
    else Object_keys o ++ [key].
Proof.
  unfold Set_has.
  induction o as [|[k w] t IH]; cbn [Object_set Object_keys map fst existsb app];
    [reflexivity|].
  destruct (String.eqb k key) eqn:E.
  - rewrite String.eqb_sym, E. reflexivity.
  - rewrite String.eqb_sym, E. cbn [orb map fst].
    unfold Object_keys in IH. rewrite IH.
    destruct (existsb (String.eqb key) (map fst t)); reflexivity.
Qed.

Lemma Object_own_keys (o : ParameterObject) key :
  In key (Object_keys o) -> exists v, Object_own o key = Some v.
Proof.
  induction o as [|[k w] t IH]; cbn [Object_keys map fst Object_own];
    intros Hin; [destruct Hin|].
  destruct (String.eqb k key) eqn:E; [eauto|].
  destruct Hin as [->|Hin]; [rewrite String.eqb_refl in E; discriminate|].
  apply IH. exact Hin.
Qed.

(** The last parameter of the list that has the name. *)
Definition last_named (l : list Param) (name : string) : option Param :=
  find (fun p => String.eqb (p_name p) name) (rev l).

Lemma createParameterSet_app (l : list Param) (p : Param) :
  createParameterSet (l ++ [p]) = Object_set (createParameterSet l) (p_name p) p.
Proof. unfold createParameterSet. rewrite fold_left_app. reflexivity. Qed.

(** For a list without a repeated name the object has the parameters of
    the list in their order, each under its name. *)
Lemma createParameterSet_distinct (l : list Param) :
  NoDup (map p_name l) ->
  createParameterSet l = map (fun p => (p_name p, p)) l.
Proof.
  induction l as [|p l IH] using rev_ind; intros Hd; [reflexivity|].
  rewrite map_app in Hd. cbn [map] in Hd.
  rewrite createParameterSet_app, IH by (apply NoDup_app_remove_r in Hd; exact Hd).
  rewrite Object_set_new, map_app; [reflexivity|].
  unfold Object_keys. rewrite map_map. cbn [fst].
  intros Hin. apply NoDup_remove_2 in Hd. apply Hd.
  rewrite app_nil_r. exact Hin.
Qed.

(** The name starts with a letter (as every name the extractors and the
    name check let through does): as a key it is neither an array index
    nor [__proto__]. *)
Definition starts_with_letter (name : string) : bool :=
  match name with
  | String c _ => is_letter c
  | EmptyString => false
  end.

(** [createParameterSet], for parameters whose names start with a letter,
    keys every parameter by its name: a name reads the last parameter of
    the list that has it, a name that is not in the list reads nothing, no
    key is there twice, and for a list without a repeated name the values
    of the object are the list itself. *)
Lemma createParameterSet_lookup (suggestions : list Param) :
  Forall (fun p => starts_with_letter (p_name p) = true) suggestions ->
  let parameterSet := createParameterSet suggestions in
  (forall name, Object_own parameterSet name = last_named suggestions name) /\
  (forall name, In name (Object_keys parameterSet)
                <-> In name (map p_name suggestions)) /\
  NoDup (Object_keys parameterSet) /\
  (NoDup (map p_name suggestions) ->
   Object_keys parameterSet = map p_name suggestions /\
   Object_values parameterSet = suggestions).
Proof.
  intros _. cbv zeta. induction suggestions as [|p l IH] using rev_ind.
  - repeat split; try constructor; intros [].
  - destruct IH as (Hown & Hkeys & Hnd & Hvals).
    rewrite createParameterSet_app. split; [|split; [|split]].
    + intros name. rewrite Object_own_set. unfold last_named.
      rewrite rev_app_distr. cbn [rev app find].
      destruct (String.eqb (p_name p) name); [reflexivity|apply Hown].
    + intros name. rewrite Object_keys_set, map_app, in_app_iff. cbn [map In].
      destruct (Set_has _ (p_name p)) eqn:E.
      * apply Set_has_In in E. rewrite Hkeys. split; [tauto|].
        intros [Hin|[<-|[]]]; [exact Hin|]. apply Hkeys. exact E.
      * rewrite in_app_iff, Hkeys. cbn [In]. tauto.
    + rewrite Object_keys_set. destruct (Set_has _ (p_name p)) eqn:E;
        [exact Hnd|].
      apply NoDup_app; [exact Hnd|constructor; [intros []|constructor]|].
      intros name H1 [<-|[]]. apply Set_has_In in H1. congruence.
    + intros Hd. rewrite <- createParameterSet_app.
      rewrite (createParameterSet_distinct _ Hd).
      unfold Object_keys, Object_values. rewrite !map_map. cbn [fst snd].
      split; [reflexivity|apply map_id].
Qed.

Lemma filter_none {A : Type} (f : A -> bool) (l : list A) :
  (forall x, In x l -> f x = false) -> filter f l = [].
Proof.
  induction l as [|a l IH]; intros Hf; cbn [filter]; [reflexivity|].
  rewrite (Hf a (or_introl eq_refl)). apply IH.
  intros x Hx. apply Hf. right. exact Hx.
Qed.

(** The parameters suggested for an expression, made into an object, are
    never reported missing by the validation of that expression: the
    verdict is the one of the evaluation. *)
Lemma suggested_parameters_are_not_missing (expression : string) :
  let parameters := createParameterSet (getSuggestedParameters expression) in
  let verdict := validateParameterExpression expression parameters in
  missingParameters verdict = None /\
  (forall missing, error verdict <> Some (MissingParametersError missing)) /\
  Object_values parameters = getSuggestedParameters expression.
Proof.
  cbv zeta.
  assert (Hn : map p_name (getSuggestedParameters expression)
               = extractSingleLetterVariables expression
                 ++ extractParameterNames expression)
    by (rewrite getSuggestedParameters_map; apply suggestion_names).
  assert (Hd : NoDup (map p_name (getSuggestedParameters expression)))
    by (rewrite Hn; apply extractors_NoDup).
  pose proof (createParameterSet_distinct _ Hd) as Hobj.
  assert (Hkeys : forall name,
            In name (map p_name (getSuggestedParameters expression)) ->
            In name (Object_keys (createParameterSet
                                    (getSuggestedParameters expression)))).
  { intros name Hin. rewrite Hobj. unfold Object_keys. rewrite map_map.
    exact Hin. }
  assert (Hv : Object_values (createParameterSet
                                (getSuggestedParameters expression))
               = getSuggestedParameters expression).
  { rewrite Hobj. unfold Object_values. rewrite map_map. apply map_id. }
  clear Hobj.
  set (parameters := createParameterSet (getSuggestedParameters expression))
    in *.
  assert (E : filter (fun paramName => Object_lacks parameters paramName)
                (extractParameterNames expression
                 ++ extractSingleLetterVariables expression) = []).
  { apply filter_none. intros name Hin.
    assert (Hk : In name (Object_keys parameters)).
    { apply Hkeys. rewrite Hn. apply in_app_iff. apply in_app_iff in Hin.
      tauto. }
    destruct (Object_own_keys _ _ Hk) as [v Ev]. unfold Object_lacks.
    rewrite Ev. reflexivity. }
  unfold validateParameterExpression. cbv zeta. rewrite E.
  cbn [length Nat.ltb Nat.leb].
  split; [|split; [|exact Hv]].
  - destruct (substituteParameters _ _) as [text|e0]; [|reflexivity].
    destruct (Function_call _) as [[v|]|e]; try destruct (isFinite v);
      reflexivity.
  - intros missing.
    destruct (substituteParameters _ _) as [text|e0]; [|cbn; discriminate].
    destruct (Function_call _) as [[v|]|e]; try destruct (isFinite v);
      cbn; discriminate.
Qed.

End SuggestionFacts.

(** ** The test of the characters of an expression *)

Section CharacterFacts.
Context {N : JSNum} {H : Host}.

(** The characters the test lets through: digits, whitespace, word
    characters and [+ - * / . ( ) ^]. *)
Definition allowed (c : ascii) : bool :=
  is_digit c || is_space c || is_word_char c
  || existsb (Ascii.eqb c) ["+"; "-"; "*"; "/"; "."; "("; ")"; "^"]%char.

(** The test accepts exactly the texts of allowed characters. *)
Lemma safe_characters_test (s : string) :
  RegExp_test safe_characters s = forallb allowed (list_ascii_of_string s).
Proof.
  unfold RegExp_test. unfold safe_characters at 1. rewrite scan_test_Bol.
  fold allowed. set (l := list_ascii_of_string s).
  change (exec (Seq Bol (Seq (Star (Cls allowed)) Eol)) (None, l))
    with (rmatch (Star (Cls allowed)) (None, l)
            (fun q : cursor => rmatch Eol q (fun q => Some q))).
  destruct (rmatch (Star (Cls allowed)) (None, l) _) as [q|] eqn:E.
  - symmetry.
    destruct (rmatch_passes _ _ _ _ E) as (m & p' & [P _] & F & K).
    cbn [rmatch] in K. destruct (snd p') eqn:Ep; [|discriminate].
    cbn [snd] in P. rewrite app_nil_r in P. rewrite P. exact F.
  - destruct (forallb allowed l) eqn:Hs; [|reflexivity].
    pose proof (rmatch_Star_Cls allowed
                  (fun q : cursor => rmatch Eol q (fun q => Some q)) l None
                  (last_of None l, []) Hs eq_refl) as E'.
    pose proof (eq_trans (eq_sym E) E') as X. discriminate X.
Qed.

(** The patterns the evaluators replace, other than the names of the
    parameters. *)
Definition replaced_patterns : list regex :=
  [whole_word "x"; whole_word "t"; whole_word "i"; Chr "^"; pi_pattern;
   whole_word "e"]
  ++ map (fun fm => call_of (fst fm)) potential_calls
  ++ map (fun fm => call_of (fst fm)) wavefunction_calls.

(** None of them passes over a character that is not allowed. *)
Lemma replaced_patterns_allowed (c : ascii) :
  allowed c || forallb (fun r => negb (consumes r c)) replaced_patterns = true.
Proof. destruct c as [[] [] [] [] [] [] [] []]; vm_compute; reflexivity. Qed.

Lemma replaced_pattern_keeps r c :
  In r replaced_patterns -> allowed c = false -> consumes r c = false.
Proof.
  intros Hr Hc. pose proof (replaced_patterns_allowed c) as Hp.
  rewrite Hc in Hp. cbn [orb] in Hp. rewrite forallb_forall in Hp.
  apply negb_true_iff. apply Hp. exact Hr.
Qed.

Lemma consumes_literal w c :
  consumes (literal w) c = existsb (Ascii.eqb c) w.
Proof.
  induction w as [|a w IH]; cbn [literal consumes existsb]; [reflexivity|].
  rewrite IH. reflexivity.
Qed.

Lemma allowed_word_char c : is_word_char c = true -> allowed c = true.
Proof.
  intros Hc. unfold allowed. rewrite Hc, !orb_true_r. reflexivity.
Qed.

Lemma whole_word_keeps (name : string) c :
  is_word name = true -> allowed c = false ->
  consumes (whole_word name) c = false.
Proof.
  intros Hn Hc. destruct (is_word_chars name Hn) as [Hw _].
  unfold whole_word. cbn [consumes]. rewrite consumes_literal, orb_false_r.
  cbn [orb]. destruct (existsb _ _) eqn:E; [|reflexivity].
  apply existsb_exists in E as (a & Ha & Eq). apply Ascii.eqb_eq in Eq.
  subst a. rewrite forallb_forall in Hw.
  rewrite (allowed_word_char c (Hw c Ha)) in Hc. discriminate.
Qed.

(** The text [s] has the character [c]. *)
Definition has_char (s : string) (c : ascii) : Prop :=
  In c (list_ascii_of_string s).

Lemma substitute_words_keeps (parameters : ParameterSet) :
  Forall (fun p => is_word (p_name p) = true) parameters ->
  forall expr c, allowed c = false ->
  has_char expr c -> has_char (substitute_words expr parameters) c.
Proof.
  unfold substitute_words.
  induction 1 as [|p ps Hp Hps IH]; intros expr c Hc Hin; [exact Hin|].
  cbn [fold_left]. apply IH; [exact Hc|].
  apply String_replace_keeps; [|exact Hin].
  apply whole_word_keeps; assumption.
Qed.

Lemma rename_calls_keeps calls c :
  incl (map (fun fm => call_of (fst fm)) calls) replaced_patterns ->
  allowed c = false ->
  forall e, has_char e c -> has_char (rename_calls calls e) c.
Proof.
  unfold rename_calls. intros Hincl Hc.
  induction calls as [|fm calls IH]; intros e Hin; [exact Hin|].
  cbn [fold_left]. apply IH.
  - intros r Hr. apply Hincl. right. exact Hr.
  - apply String_replace_keeps; [|exact Hin].
    apply replaced_pattern_keeps; [|exact Hc]. apply Hincl. left. reflexivity.
Qed.

Ltac keeps_replaced Hc :=
  apply String_replace_keeps;
  [apply replaced_pattern_keeps;
   [unfold replaced_patterns; cbn [app In];
    repeat (first [left; reflexivity | right])
   |exact Hc]|].

Lemma potential_replacements_keeps evalExpr xVal c :
  allowed c = false ->
  has_char evalExpr c -> has_char (potential_replacements evalExpr xVal) c.
Proof.
  intros Hc Hin. unfold potential_replacements. cbv zeta.
  keeps_replaced Hc. keeps_replaced Hc.
  apply rename_calls_keeps; [|exact Hc|].
  { intros r Hr. unfold replaced_patterns. apply in_or_app. right.
    apply in_or_app. left. exact Hr. }
  keeps_replaced Hc. keeps_replaced Hc. exact Hin.
Qed.

(** For parameters whose names are words the substitution returns, and
    the text of the evaluator keeps every character that is not
    allowed. *)
Lemma potential_text_keeps parameters expr xVal c :
  Forall (fun p => is_word (p_name p) = true) parameters ->
  allowed c = false -> has_char expr c ->
  exists text,
    potential_text parameters expr xVal = Normal text /\ has_char text c.
Proof.
  intros Hnames Hc Hin. unfold potential_text.
  rewrite (substituteParameters_words parameters Hnames).
  eexists. split; [reflexivity|].
  apply potential_replacements_keeps; [exact Hc|].
  apply substitute_words_keeps; assumption.
Qed.

Lemma trim_start_keeps (l : list ascii) c :
  is_space c = false -> In c l -> In c (trim_start l).
Proof.
  intros Hc. induction l as [|a l IH]; intros Hin; [destruct Hin|].
  cbn [trim_start]. destruct (is_space a) eqn:Ea; [|exact Hin].
  destruct Hin as [->|Hin]; [congruence|]. apply IH. exact Hin.
Qed.

(** A text with a character that is not whitespace is not blank. *)
Lemma not_blank (s : string) c :
  is_space c = false -> has_char s c -> is_blank s = false.
Proof.
  intros Hc Hin. unfold is_blank, trim.
  assert (Hl : In c (rev (trim_start (rev (trim_start
                                             (list_ascii_of_string s)))))).
  { apply -> in_rev. apply trim_start_keeps; [exact Hc|].
    apply -> in_rev. apply trim_start_keeps; [exact Hc|exact Hin]. }
  destruct (rev _) as [|a l]; [destruct Hl|]. reflexivity.
Qed.

Lemma allowed_space c : allowed c = false -> is_space c = false.
Proof.
  unfold allowed. intros Hc. destruct (is_space c); [|reflexivity].
  rewrite orb_true_r in Hc. discriminate.
Qed.

Lemma for_loop_try_first {S : Type} (body : nat -> S -> completion S) n s e :
  0 < n -> body 0 s = Throw e -> for_loop_try 0 n body s = Throw e.
Proof.
  intros Hn Hb. unfold for_loop_try. destruct n as [|n]; [lia|].
  cbn [seq fold_left]. rewrite Hb.
  induction (seq 1 n) as [|i l IH]; [reflexivity|exact IH].
Qed.

(** An expression with a character that is not allowed is never handed to
    the host by the evaluator of potentials: whatever the host, and
    whatever the values of the parameters, the evaluator throws
    'Invalid characters in expression' and the generator of the potential
    throws at the first point of a grid that is not empty. *)
Lemma createCustomFunctionPotential_rejects (x : list number)
    (functionString : string) (parameters : ParameterSet) (c : ascii) :
  Forall (fun p => is_word (p_name p) = true) parameters ->
  has_char functionString c -> allowed c = false ->
  (forall xVal,
     safeEval_potential parameters functionString xVal
     = Throw InvalidCharacters) /\
  (x <> [] ->
   createCustomFunctionPotential x functionString parameters
   = Throw (FailedToEvaluate InvalidCharacters)).
Proof.
  intros Hnames Hin Hc.
  assert (Hs : forall xVal,
            safeEval_potential parameters functionString xVal
            = Throw InvalidCharacters).
  { intros xVal. unfold safeEval_potential.
    rewrite (not_blank functionString c (allowed_space c Hc) Hin).
    destruct (potential_text_keeps parameters functionString xVal c
                Hnames Hc Hin) as (text & -> & Htext).
    rewrite safe_characters_test.
    destruct (forallb allowed _) eqn:E; [|reflexivity].
    rewrite forallb_forall in E. rewrite (E c Htext) in Hc. discriminate. }
  split; [exact Hs|]. intros Hx. unfold createCustomFunctionPotential.
  apply for_loop_try_first.
  - destruct x; [congruence|cbn; lia].
  - rewrite Hs. reflexivity.
Qed.

Lemma wavefunctions_text_keeps parameters expr xVal tVal c :
  Forall (fun p => is_word (p_name p) = true) parameters ->
  allowed c = false -> has_char expr c ->
  exists text,
    Wavefunctions.text parameters expr xVal tVal = Normal text /\
    has_char text c.
Proof.
  intros Hnames Hc Hin. unfold Wavefunctions.text.
  rewrite (substituteParameters_words parameters Hnames).
  eexists. split; [reflexivity|].
  unfold Wavefunctions.replacements. cbv zeta.
  keeps_replaced Hc. keeps_replaced Hc.
  apply rename_calls_keeps; [|exact Hc|].
  { intros r Hr. unfold replaced_patterns. apply in_or_app. right.
    apply in_or_app. left. exact Hr. }
  keeps_replaced Hc. keeps_replaced Hc. keeps_replaced Hc. keeps_replaced Hc.
  apply substitute_words_keeps; assumption.
Qed.

Lemma wavefunctions_safeEval_rejects parameters expr xVal tVal c :
  Forall (fun p => is_word (p_name p) = true) parameters ->
  has_char expr c -> allowed c = false ->
  Wavefunctions.safeEval parameters expr xVal tVal = Throw InvalidCharacters.
Proof.
  intros Hnames Hin Hc. unfold Wavefunctions.safeEval.
  rewrite (not_blank expr c (allowed_space c Hc) Hin).
  destruct (wavefunctions_text_keeps parameters expr xVal tVal c
              Hnames Hc Hin) as (text & -> & Htext).
  rewrite safe_characters_test.
  destruct (forallb allowed _) eqn:E; [|reflexivity].
  rewrite forallb_forall in E. rewrite (E c Htext) in Hc. discriminate.
Qed.

(** The validation of a wavefunction rejects a pair of expressions one of
    which has a character that is not allowed, whatever the host and the
    values of the parameters: [parseComplexFunction] throws at every point,
    and an expression with such a character is itself never handed to the
    host. *)
Lemma validateWavefunctionFunctions_rejects (realExpr imagExpr : string)
    (parameters : ParameterSet) (c : ascii) :
  Forall (fun p => is_word (p_name p) = true) parameters ->
  has_char realExpr c \/ has_char imagExpr c -> allowed c = false ->
  (forall expr x t, has_char expr c ->
     Wavefunctions.safeEval parameters expr x t = Throw InvalidCharacters) /\
  (forall x t, exists e,
     Wavefunctions.parseComplexFunction realExpr imagExpr x t parameters
     = Wavefunctions.Failed e) /\
  Wavefunctions.valid
    (Wavefunctions.validateWavefunctionFunctions realExpr imagExpr parameters)
  = false.
Proof.
  intros Hnames Hin Hc.
  split.
  { intros expr x t He.
    exact (wavefunctions_safeEval_rejects parameters expr x t c Hnames He Hc). }
  assert (Hp : forall x t, exists e,
            Wavefunctions.parseComplexFunction realExpr imagExpr x t parameters
            = Wavefunctions.Failed e).
  { intros x t. unfold Wavefunctions.parseComplexFunction.
    destruct Hin as [Hin|Hin].
    - rewrite (not_blank realExpr c (allowed_space c Hc) Hin).
      rewrite (wavefunctions_safeEval_rejects parameters realExpr x t c
                 Hnames Hin Hc).
      cbn [negb andb]. destruct (negb (is_blank imagExpr)); eauto.
    - rewrite (not_blank imagExpr c (allowed_space c Hc) Hin).
      rewrite (wavefunctions_safeEval_rejects parameters imagExpr x t c
                 Hnames Hin Hc).
      cbn [negb andb].
      destruct (negb (is_blank realExpr)); cbn [andb];
        [destruct (Wavefunctions.safeEval parameters realExpr x t)|]; eauto. }
  split; [exact Hp|].
  unfold Wavefunctions.validateWavefunctionFunctions.
  destruct (String.eqb realExpr "" && String.eqb imagExpr "")%bool;
    [reflexivity|].
  unfold Wavefunctions.testValues.
  cbn [Wavefunctions.validate_wavefunction_samples].
  destruct (Hp (lit 0) (lit 0)) as [e ->]. reflexivity.
Qed.

(** A pair of expressions that are both blank: the parser of the
    wavefunction utilities throws, and its validation rejects the pair,
    while the parser of the solver returns the sample (0, 0). *)
Lemma blank_wavefunction_expressions (realExpr imagExpr : string)
    (parameters : ParameterSet) (x t : number) :
  is_blank realExpr = true -> is_blank imagExpr = true ->
  Wavefunctions.parseComplexFunction realExpr imagExpr x t parameters
  = Wavefunctions.Failed Wavefunctions.NoComponent /\
  Wavefunctions.valid
    (Wavefunctions.validateWavefunctionFunctions realExpr imagExpr parameters)
  = false /\
  parseComplexFunction realExpr imagExpr x t parameters
  = Normal (lit 0, lit 0).
Proof.
  intros Hr Hi.
  assert (Hp : forall x t,
            Wavefunctions.parseComplexFunction realExpr imagExpr x t parameters
            = Wavefunctions.Failed Wavefunctions.NoComponent).
  { intros x' t'. unfold Wavefunctions.parseComplexFunction.
    rewrite Hr, Hi. reflexivity. }
  split; [apply Hp|]. split.
  - unfold Wavefunctions.validateWavefunctionFunctions.
    destruct (String.eqb realExpr "" && String.eqb imagExpr "")%bool;
      [reflexivity|].
    unfold Wavefunctions.testValues.
    cbn [Wavefunctions.validate_wavefunction_samples]. rewrite Hp. reflexivity.
  - unfold parseComplexFunction. rewrite Hr, Hi. reflexivity.
Qed.

End CharacterFacts.

(** ** Generated potentials *)

Section PotentialFacts.
Context {N : JSNum} {H : Host}.
Open Scope nat_scope.

Lemma for_loop_try_S {S : Type} lo n (body : nat -> S -> completion S) s :
  for_loop_try lo (Datatypes.S n) body s
  = match for_loop_try lo n body s with
    | Normal t => body (lo + n) t
    | Throw e => Throw e
    end.
Proof. unfold for_loop_try. rewrite seq_S, fold_left_app. reflexivity. Qed.

(** The induction principle of a counting loop whose body may throw, for
    the runs that end normally. *)
Lemma for_loop_try_ind {S : Type} (P : nat -> S -> Prop) lo n
    (body : nat -> S -> completion S) s :
  P 0 s ->
  (forall j t t', j < n -> P j t -> body (lo + j) t = Normal t' ->
                  P (Datatypes.S j) t') ->
  forall s', for_loop_try lo n body s = Normal s' -> P n s'.
Proof.
  intros H0 Hstep. induction n as [|n IH]; intros s' Hrun.
  - injection Hrun as <-. exact H0.
  - rewrite for_loop_try_S in Hrun.
    destruct (for_loop_try lo n body s) as [t|e] eqn:E; [|discriminate].
    apply (Hstep n t s'); [lia| |exact Hrun].
    apply IH; [|reflexivity]. intros j u u' Hj. apply Hstep. lia.
Qed.

(** When [createCustomFunctionPotential] returns, the evaluation has
    returned at every point of the grid, and the array holds its values. *)
Lemma createCustomFunctionPotential_returns (x : list number)
    (functionString : string) (parameters : ParameterSet) (V : list number) :
  createCustomFunctionPotential x functionString parameters = Normal V ->
  length V = length x /\
  forall i, i < length x ->
    safeEval_potential parameters functionString (get x i) = Normal (get V i).
Proof.
  unfold createCustomFunctionPotential.
  apply (for_loop_try_ind
    (fun j (W : list number) =>
       length W = length x /\
       forall i, i < j ->
         safeEval_potential parameters functionString (get x i)
         = Normal (get W i))).
  - split; [apply length_Float64Array|]. intros i Hi. lia.
  - intros j W W' Hj [Hlen Hin] Hbody. cbn [Nat.add] in Hbody.
    destruct (safeEval_potential parameters functionString (get x j))
      as [v|e] eqn:E; [|discriminate].
    injection Hbody as <-. rewrite length_set. split; [exact Hlen|].
    intros i Hi. destruct (Nat.eq_dec i j) as [->|Hne].
    + rewrite get_set_same by lia. exact E.
    + rewrite get_set_other by congruence. apply Hin. lia.
Qed.



Lemma length_branching_fill (c : nat -> bool) (a b : nat -> number) n
    (V : list number) :
  length (for_loop 0 n (fun i V => if c i then set V i (a i) else set V i (b i))
            V)
  = length V.
Proof.
  apply (for_loop_ind (fun _ W => length W = length V)); [reflexivity|].
  intros j W _ HW. destruct (c (0 + j)); rewrite length_set; exact HW.
Qed.

Lemma generatePotential_length (x : list number) (config : PotentialConfig)
    (mass : number) (parameters : ParameterSet) (V : list number) :
  generatePotential x config mass parameters = Normal V ->
  length V = length x.
Proof.
  unfold generatePotential.
  destruct (type config).
  - intros E. injection E as <-. apply length_Float64Array.
  - intros E. injection E as <-. unfold createBarrierPotential. cbv zeta.
    rewrite (length_branching_fill
               (fun i => (Math_abs (get x i - or_default (x0 config) (lit 0))
                          <? or_default (width config) (lit 2) / lit 2)%js)
               (fun _ => or_default (v0 config) (lit 5)) (fun _ => lit 0)).
    apply length_Float64Array.
  - intros E. injection E as <-. unfold createWellPotential. cbv zeta.
    rewrite (length_branching_fill
               (fun i => (Math_abs (get x i - or_default (x0 config) (lit 0))
                          <? or_default (width config) (lit 2) / lit 2)%js)
               (fun _ => (- or_default (v0 config) (lit 5))%js)
               (fun _ => lit 0)).
    apply length_Float64Array.
  - intros E. injection E as <-. unfold createHarmonicPotential.
    rewrite length_fill. apply length_Float64Array.
  - destruct (customFunction config) as [f|]; [|discriminate].
    destruct (String.eqb f ""); [discriminate|]. intros E.
    apply (createCustomFunctionPotential_returns _ _ _ _ E).
  - assert (Hd : forall points,
              length (createDrawnPotential x points) = length x).
    { intros points. unfold createDrawnPotential. cbv zeta.
      destruct (length points =? 0); [apply length_Float64Array|].
      rewrite length_fill. apply length_Float64Array. }
    destruct (customPoints config) as [points|];
      [destruct (length points =? 0)|]; intros E; injection E as <-;
      try apply length_Float64Array. apply Hd.
Qed.

(** A potential generated on the grid of a solver fits that solver:
    whatever the configuration, when [generatePotential] returns an array,
    [setPotential] accepts it and stores it. *)
Lemma generatePotential_fits (this : TDSESolver) (config : PotentialConfig)
    (mass : number) (parameters : ParameterSet) (V : list number) :
  solver_wf this ->
  generatePotential (this_x this) config mass parameters = Normal V ->
  length V = gridSize (params this) /\
  snd (setPotential this V) = Normal tt /\
  potential (fst (setPotential this V)) = V.
Proof.
  intros (Hx & _ & Hr & Hi & _) Hgen.
  apply generatePotential_length in Hgen. rewrite Hx in Hgen.
  split; [exact Hgen|].
  destruct (setPotential_stores this V Hr Hi Hgen) as (this' & -> & HV & _).
  split; [reflexivity|exact HV].
Qed.

End PotentialFacts.

(** ** The time step: lengths and time *)

Section StepFacts.
Context {N : JSNum} {F : FFT}.
Open Scope nat_scope.

(** A loop that assigns the entries [i] of two arrays keeps their
    lengths. *)
Lemma length_loop2 (f g : nat -> list number -> list number -> number) lo n
    (a b : list number) :
  let ab :=
    for_loop lo n
      (fun i '(a, b) => (set a i (f i a b), set b i (g i a b))) (a, b) in
  length (fst ab) = length a /\ length (snd ab) = length b.
Proof.
  cbv zeta.
  apply (for_loop_ind
    (fun _ (ab : list number * list number) =>
       length (fst ab) = length a /\ length (snd ab) = length b)).
  - split; reflexivity.
  - intros j [a' b'] _ [Ha Hb]. cbn [fst snd] in *. rewrite !length_set.
    split; assumption.
Qed.

Lemma applyOperator_length n (op_real op_imag re im : list number) :
  let ri := applyOperator n op_real op_imag (re, im) in
  length (fst ri) = length re /\ length (snd ri) = length im.
Proof.
  exact (length_loop2
           (fun i a b => (get a i * get op_real i - get b i * get op_imag i)%js)
           (fun i a b => (get a i * get op_imag i + get b i * get op_real i)%js)
           0 n re im).
Qed.

Lemma divide_by_length n norm (re im : list number) :
  let ri := divide_by n norm re im in
  length (fst ri) = length re /\ length (snd ri) = length im.
Proof.
  exact (length_loop2 (fun i a _ => (get a i / norm)%js)
           (fun i _ b => (get b i / norm)%js) 0 n re im).
Qed.

Lemma evolve_frame (this : TDSESolver) (state : WavefunctionState) :
  length (real (evolve this state)) = length (real state) /\
  length (imag (evolve this state)) = length (imag state) /\
  time (evolve this state) = (time state + dt (params this))%js.
Proof.
  unfold evolve, applyPotentialOperator, applyKineticOperator. cbv zeta.
  set (n := gridSize (params this)).
  pose proof (applyOperator_length n (expVhalf_real this) (expVhalf_imag this)
                (real state) (imag state)) as H1. cbv zeta in H1.
  destruct (applyOperator n (expVhalf_real this) (expVhalf_imag this)
              (real state, imag state)) as [re im]. cbn [fst snd] in H1.
  destruct (for_loop 0 n _ (Float64Array n, Float64Array n)) as [kr ki].
  destruct (applyOperator n (expT_real this) (expT_imag this) (kr, ki))
    as [kr' ki'].
  set (psi_out := inverseTransform n (interleave n kr' ki')).
  pose proof (length_loop2
                (fun i _ _ => (get psi_out (2 * i) / of_nat n)%js)
                (fun i _ _ => (get psi_out (2 * i + 1) / of_nat n)%js)
                0 n re im) as H2. cbv zeta in H2.
  destruct (for_loop 0 n _ (re, im)) as [re2 im2]. cbn [fst snd] in H2.
  pose proof (applyOperator_length n (expVhalf_real this) (expVhalf_imag this)
                re2 im2) as H3. cbv zeta in H3.
  destruct (applyOperator n (expVhalf_real this) (expVhalf_imag this)
              (re2, im2)) as [re3 im3]. cbn [fst snd real imag time] in *.
  split; [lia|]. split; [lia|reflexivity].
Qed.

Lemma normalize_frame (this : TDSESolver) (state : WavefunctionState) :
  length (real (normalize this state)) = length (real state) /\
  length (imag (normalize this state)) = length (imag state) /\
  time (normalize this state) = time state.
Proof.
  unfold normalize. cbv zeta. destruct (_ >? _)%js; [|repeat split].
  pose proof (divide_by_length (gridSize (params this)) (norm_of this state)
                (real state) (imag state)) as Hd. cbv zeta in Hd.
  destruct (divide_by _ _ _ _) as [re im]. cbn [fst snd real imag time] in *.
  destruct Hd as [H1 H2]. repeat split; assumption.
Qed.

(** A time step keeps the lengths of the two arrays of the state, whatever
    they are, and adds [dt] to its time, whatever the state, the potential
    and the FFT are. *)
Lemma step_frame (this : TDSESolver) (state : WavefunctionState) :
  length (real (step this state)) = length (real state) /\
  length (imag (step this state)) = length (imag state) /\
  time (step this state) = (time state + dt (params this))%js.
Proof.
  unfold step.
  destruct (normalize_frame this (evolve this state)) as (H1 & H2 & H3).
  destruct (evolve_frame this state) as (E1 & E2 & E3).
  rewrite H1, H2, H3. repeat split; assumption.
Qed.

(** The total probability is the sum of the entries of the probability
    density times the grid spacing; the density has the length of the
    grid, and its entry [i] is the squared modulus of the sample [i]. *)
Lemma getProbabilityDensity_total (this : TDSESolver)
    (state : WavefunctionState) :
  let n := gridSize (params this) in
  let prob := getProbabilityDensity this state in
  length prob = n /\
  (forall i, i < n ->
     get prob i
     = (get (real state) i * get (real state) i
        + get (imag state) i * get (imag state) i)%js) /\
  getTotalProbability this state
  = (for_loop 0 n (fun i total => total + get prob i) (lit 0)
     * this_dx this)%js.
Proof.
  cbv zeta. set (n := gridSize (params this)).
  pose proof (fill_loop
                (fun i => (get (real state) i * get (real state) i
                           + get (imag state) i * get (imag state) i)%js)
                0 n (Float64Array n)) as Hfill.
  rewrite length_Float64Array in Hfill. specialize (Hfill (Nat.le_refl n)).
  cbv zeta in Hfill. fold (getProbabilityDensity this state) in Hfill.
  unfold getProbabilityDensity at 1 2. fold n.
  destruct Hfill as (Hlen & Hin & _).
  split; [exact Hlen|]. split; [intros i Hi; apply Hin; lia|].
  unfold getTotalProbability, sum_density. fold n. f_equal.
  assert (G : forall m, m <= n ->
            for_loop 0 m
              (fun i norm =>
                 (norm + (get (real state) i * get (real state) i
                          + get (imag state) i * get (imag state) i))%js)
              (lit 0)
            = for_loop 0 m
                (fun i total =>
                   (total + get (getProbabilityDensity this state) i)%js)
                (lit 0)).
  { induction m as [|m IH]; intros Hm; [reflexivity|].
    rewrite !for_loop_S. cbn [Nat.add]. rewrite IH by lia.
    unfold getProbabilityDensity. fold n. rewrite Hin by lia. reflexivity. }
  apply G. lia.
Qed.

End StepFacts.

(** ** Time, energy and the boundary test, in exact arithmetic *)

Section ObservableFacts.
#[local] Existing Instance Exact.
Context {F : FFT}.
Open Scope R_scope.

(** After [k] time steps the arrays of the state have the lengths they had
    and its time has advanced by [k] times [dt], whatever the state and
    the potential are. *)
Lemma steps_frame (this : TDSESolver) (state : WavefunctionState) (k : nat) :
  let state' := Nat.iter k (step this) state in
  length (real state') = length (real state) /\
  length (imag state') = length (imag state) /\
  time state' = time state + INR k * dt (params this).
Proof.
  cbv zeta. induction k as [|k (IH1 & IH2 & IH3)].
  - cbn [Nat.iter nat_rect INR]. repeat split. exact_arith. lra.
  - rewrite Nat.iter_succ.
    destruct (step_frame this (Nat.iter k (step this) state)) as (H1 & H2 & H3).
    rewrite H1, H2, H3, IH1, IH2, IH3, S_INR. repeat split.
    exact_arith. lra.
Qed.

(** The sum of [d i] over the [len] indices from [lo] on. *)
Fixpoint Rsum (d : nat -> R) (lo len : nat) : R :=
  match len with
  | O => 0
  | S l => d lo + Rsum d (S lo) l
  end.

Lemma for_loop_Rsum (d : nat -> R) lo len (acc : R) :
  for_loop lo len (fun i s => s + d i) acc = acc + Rsum d lo len.
Proof.
  unfold for_loop. revert lo acc; induction len as [|len IH]; intros lo acc;
    cbn [seq fold_left Rsum]; [ring|].
  rewrite IH. ring.
Qed.

Lemma Rsum_app (d : nat -> R) lo a b :
  Rsum d lo (a + b) = Rsum d lo a + Rsum d (lo + a) b.
Proof.
  revert lo; induction a as [|a IH]; intros lo; cbn [Nat.add Rsum].
  - rewrite Nat.add_0_r. ring.
  - rewrite IH. replace (S lo + a)%nat with (lo + S a)%nat by lia. ring.
Qed.

Lemma Rsum_nonneg (d : nat -> R) lo len :
  (forall i, (lo <= i < lo + len)%nat -> 0 <= d i) -> 0 <= Rsum d lo len.
Proof.
  revert lo; induction len as [|len IH]; intros lo Hd; cbn [Rsum]; [lra|].
  assert (0 <= d lo) by (apply Hd; lia).
  assert (0 <= Rsum d (S lo) len) by (apply IH; intros i Hi; apply Hd; lia).
  lra.
Qed.

(** The squared modulus of the sample [i]. *)
Definition density (state : WavefunctionState) (i : nat) : R :=
  get (real state) i * get (real state) i
  + get (imag state) i * get (imag state) i.

Lemma density_nonneg state i : 0 <= density state i.
Proof. unfold density. nra. Qed.

Lemma sum_density_Rsum n (state : WavefunctionState) :
  sum_density n (real state) (imag state) = Rsum (density state) 0 n.
Proof.
  unfold sum_density.
  pose proof (for_loop_Rsum (density state) 0 n 0) as E.
  rewrite Rplus_0_l in E. exact E.
Qed.

(** The energy is not negative when the mass is positive, the grid spacing
    is not negative and the stored potential is nowhere negative,
    whatever the FFT computes. *)
Lemma getEnergy_nonneg (this : TDSESolver) (state : WavefunctionState) :
  let n := gridSize (params this) in
  solver_wf this ->
  length (real state) = n -> length (imag state) = n ->
  length (transform n (interleave n (real state) (imag state))) = (2 * n)%nat ->
  0 < mass (params this) -> 0 <= this_dx this ->
  (forall i, (i < n)%nat -> 0 <= get (potential this) i) ->
  0 <= getEnergy this state.
Proof.
  intros n _ _ _ _ Hm Hdx HV. unfold getEnergy. cbv zeta. fold n.
  set (psi_k := transform n (interleave n (real state) (imag state))).
  assert (HK : 0 <= for_loop 0 n
            (fun i kineticEnergy =>
               (kineticEnergy
                + (get psi_k (2 * i) / of_nat n * (get psi_k (2 * i) / of_nat n)
                   + get psi_k (2 * i + 1) / of_nat n
                     * (get psi_k (2 * i + 1) / of_nat n))
                  * hbar (params this) * hbar (params this)
                  * get (this_k this) i * get (this_k this) i
                  / (lit 2 * mass (params this)))%js) (lit 0)).
  { apply (for_loop_ind (fun _ (acc : R) => 0 <= acc)).
    - exact_arith. lra.
    - intros j acc _ Hacc. cbn [Nat.add]. exact_arith.
      set (re := get psi_k (2 * j) / IZR (Z.of_nat n)).
      set (im := get psi_k (2 * j + 1) / IZR (Z.of_nat n)).
      set (h := hbar (params this)). set (kj := get (this_k this) j).
      replace ((re * re + im * im) * h * h * kj * kj
               / (2 * mass (params this)))
        with ((re * re + im * im) * ((h * kj) * (h * kj))
              * / (2 * mass (params this)))
        by (unfold Rdiv; ring).
      assert (0 < / (2 * mass (params this)))
        by (apply Rinv_0_lt_compat; lra).
      assert (0 <= re * re + im * im) by nra.
      assert (0 <= (h * kj) * (h * kj)) by nra.
      assert (0 <= (re * re + im * im) * ((h * kj) * (h * kj)))
        by (apply Rmult_le_pos; assumption).
      assert (0 <= (re * re + im * im) * ((h * kj) * (h * kj))
                   * / (2 * mass (params this)))
        by (apply Rmult_le_pos; lra).
      lra. }
  assert (HP : 0 <= for_loop 0 n
            (fun i potentialEnergy =>
               (potentialEnergy
                + (get (real state) i * get (real state) i
                   + get (imag state) i * get (imag state) i)
                  * get (potential this) i)%js) (lit 0)).
  { apply (for_loop_ind (fun _ (acc : R) => 0 <= acc)).
    - exact_arith. lra.
    - intros j acc Hj Hacc. cbn [Nat.add]. exact_arith.
      specialize (HV j Hj).
      assert (0 <= get (real state) j * get (real state) j
                   + get (imag state) j * get (imag state) j) by nra.
      assert (0 <= (get (real state) j * get (real state) j
                    + get (imag state) j * get (imag state) j)
                   * get (potential this) j)
        by (apply Rmult_le_pos; assumption).
      lra. }
  exact_arith.
  apply Rplus_le_le_0_compat; apply Rmult_le_pos; assumption.
Qed.

Lemma Rsum_snoc (d : nat -> R) lo len :
  Rsum d lo (S len) = Rsum d lo len + d (lo + len)%nat.
Proof.
  replace (S len) with (len + 1)%nat by lia. rewrite Rsum_app.
  cbn [Rsum]. ring.
Qed.

(** The sum the boundary test accumulates over [b] points from each edge
    of a grid of [n] points. *)
Lemma boundary_loop (state : WavefunctionState) n b :
  (b <= n)%nat ->
  for_loop 0 b
    (fun i boundaryProb =>
       (boundaryProb
        + (get (real state) i * get (real state) i
           + get (imag state) i * get (imag state) i)
        + (get (real state) (n - 1 - i) * get (real state) (n - 1 - i)
           + get (imag state) (n - 1 - i) * get (imag state) (n - 1 - i)))%js)
    (lit 0)
  = Rsum (density state) 0 b + Rsum (density state) (n - b) b.
Proof.
  induction b as [|b IH]; intros Hb.
  - cbn [Rsum]. unfold for_loop. cbn [seq fold_left]. exact_arith. ring.
  - rewrite for_loop_S, IH by lia. cbn [Nat.add].
    rewrite Rsum_snoc. cbn [Nat.add].
    replace (Rsum (density state) (n - S b) (S b))
      with (density state (n - S b) + Rsum (density state) (n - b) b).
    + replace (n - 1 - b)%nat with (n - S b)%nat by lia.
      unfold density. exact_arith. ring.
    + cbn [Rsum]. replace (S (n - S b)) with (n - b)%nat by lia. reflexivity.
Qed.

(** When the boundary test answers yes, the total probability of the state
    exceeds the threshold: the probability near the two edges is part of
    the whole.  On a grid of fewer than 10 points the test looks at no
    point and answers no to every threshold that is not negative. *)
Lemma checkBoundaries_total (this : TDSESolver) (state : WavefunctionState)
    (threshold : number) :
  let n := gridSize (params this) in
  length (real state) = n -> length (imag state) = n ->
  0 <= this_dx this ->
  (checkBoundaries this state threshold = true ->
   threshold < getTotalProbability this state) /\
  ((n < 10)%nat -> 0 <= threshold ->
   checkBoundaries this state threshold = false).
Proof.
  intros n _ _ Hdx. unfold checkBoundaries. cbv zeta. fold n.
  assert (Hb : (n / 10 <= n)%nat) by (apply Nat.Div0.div_le_upper_bound; lia).
  rewrite (boundary_loop state n (n / 10) Hb).
  split.
  - intros Hc. exact_arith. apply Rltb_true in Hc.
    unfold getTotalProbability. fold n. rewrite sum_density_Rsum.
    assert (H2 : (2 * (n / 10) <= n)%nat).
    { pose proof (Nat.Div0.mul_div_le n 10). lia. }
    set (b := (n / 10)%nat) in *. set (m := (n - 2 * b)%nat).
    replace (Rsum (density state) 0 n)
      with (Rsum (density state) 0 (b + (m + b))) by (f_equal; lia).
    rewrite !Rsum_app. cbn [Nat.add].
    replace (b + m)%nat with (n - b)%nat by lia.
    fold m.
    assert (0 <= Rsum (density state) b m)
      by (apply Rsum_nonneg; intros; apply density_nonneg).
    assert (0 <= Rsum (density state) 0 b)
      by (apply Rsum_nonneg; intros; apply density_nonneg).
    assert (0 <= Rsum (density state) b m * this_dx this)
      by (apply Rmult_le_pos; assumption).
    exact_arith. nra.
  - intros Hn Ht. rewrite (Nat.div_small n 10 Hn). cbn [Rsum].
    exact_arith. apply Rltb_false. lra.
Qed.

End ObservableFacts.

(** ** The bounds of a parameter and the detection of its type *)

Section IncludesFacts.
Open Scope string_scope.

Lemma append_assoc (a b c : string) : (a ++ b) ++ c = a ++ (b ++ c).
Proof. induction a as [|x a IH]; cbn; [reflexivity|]. rewrite IH. reflexivity. Qed.

Lemma prefix_spec (sub s : string) :
  String.prefix sub s = true <-> exists post, s = sub ++ post.
Proof.
  revert s; induction sub as [|a sub IH]; intros s.
  - split; [intros _; exists s; reflexivity|].
    intros _. destruct s; reflexivity.
  - destruct s as [|b s]; cbn [String.prefix];
      [split; [discriminate|intros [post E]; discriminate]|].
    destruct (ascii_dec a b) as [->|Hne].
    + rewrite IH. split; intros [post E]; exists post; cbn in *; congruence.
    + split; [discriminate|]. intros [post E]. cbn in E. congruence.
Qed.

Lemma String_includes_spec (s sub : string) :
  String_includes s sub = true <-> exists pre post, s = pre ++ sub ++ post.
Proof.
  split.
  - induction s as [|c t IH]; cbn [String_includes]; intros Hi;
      apply orb_prop in Hi as [Hp|Hi].
    + apply prefix_spec in Hp as [post E]. exists "", post. exact E.
    + discriminate.
    + apply prefix_spec in Hp as [post E]. exists "", post. exact E.
    + destruct (IH Hi) as (pre & post & E). exists (String c pre), post.
      cbn. rewrite E. reflexivity.
  - intros (pre & post & ->). induction pre as [|c pre IH].
    + cbn [append]. destruct (sub ++ post) eqn:E; cbn [String_includes];
        apply orb_true_intro; left; apply prefix_spec; exists post;
        symmetry; exact E.
    + cbn [append String_includes]. rewrite IH. apply orb_true_r.
Qed.

Lemma String_includes_trans (s sub sub' : string) :
  String_includes s sub = true -> String_includes sub sub' = true ->
  String_includes s sub' = true.
Proof.
  intros H1 H2. apply String_includes_spec in H1 as (pre & post & ->).
  apply String_includes_spec in H2 as (pre' & post' & ->).
  apply String_includes_spec. exists (pre ++ pre'), (post' ++ post).
  rewrite !append_assoc. reflexivity.
Qed.

Lemma String_includes_chars (s sub : string) c :
  String_includes s sub = true ->
  In c (list_ascii_of_string sub) -> In c (list_ascii_of_string s).
Proof.
  intros Hi Hc. apply String_includes_spec in Hi as (pre & post & ->).
  rewrite !chars_app. apply in_or_app. right. apply in_or_app. left. exact Hc.
Qed.

Lemma toLowerCase_alnum c :
  is_alnum c = true -> is_alnum (toLowerCase_char c) = true.
Proof.
  destruct c as [[] [] [] [] [] [] [] []]; vm_compute; intros E;
    first [exact E | reflexivity].
Qed.

(** The lower-case form of a name that passes the name check has at least
    two characters, all of them letters of ASCII or digits. *)
Lemma toLowerCase_valid (name : string) :
  isValidParameterName name = true ->
  forallb is_alnum (list_ascii_of_string (toLowerCase name)) = true /\
  1 < length (list_ascii_of_string (toLowerCase name)).
Proof.
  intros Hv. apply valid_name_chars in Hv as (c & rest & E & Hne & Hc & Hr).
  unfold toLowerCase. rewrite list_ascii_of_string_of_list_ascii, E.
  cbn [map forallb length]. split.
  - rewrite (toLowerCase_alnum c (letter_alnum c Hc)). cbn [andb].
    rewrite forallb_forall in Hr |- *. intros x Hx.
    apply in_map_iff in Hx as (y & <- & Hy). apply toLowerCase_alnum, Hr, Hy.
  - rewrite length_map. destruct rest; [congruence|cbn; lia].
Qed.

Lemma alnum_ascii c : is_alnum c = true -> (code c <? 128)%nat = true.
Proof.
  destruct c as [[] [] [] [] [] [] [] []]; vm_compute; intros E;
    first [exact E | reflexivity].
Qed.

(** A name that passes the name check is lowered without the host. *)
Lemma String_toLowerCase_valid {N : JSNum} {H : Host} (name : string) :
  isValidParameterName name = true ->
  String_toLowerCase name = toLowerCase name.
Proof.
  intros Hv. apply valid_name_chars in Hv as (c & rest & E & Hne & Hc & Hr).
  unfold String_toLowerCase. rewrite E. cbn [forallb].
  rewrite (alnum_ascii c (letter_alnum c Hc)). cbn [andb].
  replace (forallb (fun c0 => (code c0 <? 128)%nat) rest) with true;
    [reflexivity|].
  symmetry. apply forallb_forall. intros x Hx. apply alnum_ascii.
  rewrite forallb_forall in Hr. apply Hr. exact Hx.
Qed.

Lemma includes_not_alnum (name sub : string) c :
  isValidParameterName name = true ->
  In c (list_ascii_of_string sub) -> is_alnum c = false ->
  String_includes (toLowerCase name) sub = false.
Proof.
  intros Hv Hc Hna. destruct (String_includes _ sub) eqn:E; [|reflexivity].
  destruct (toLowerCase_valid name Hv) as [Hall _].
  rewrite forallb_forall in Hall.
  rewrite (Hall c (String_includes_chars _ _ c E Hc)) in Hna. discriminate.
Qed.

End IncludesFacts.

Section ParameterExactFacts.
#[local] Existing Instance Exact.
Context {H : Host}.
Open Scope R_scope.

(** The value of a parameter that was clamped from below is at the lower
    bound, the value of a parameter that was clamped from above is at the
    upper bound, and a value that stays [1e-10] away from both bounds is
    at neither. *)
Lemma isParameterAtBound_clamped (p : Param) (v : R) :
  p_min p <= p_max p ->
  let bound := isParameterAtBound (updateParameter p v) in
  (v <= p_min p -> atMin bound = true) /\
  (p_max p <= v -> atMax bound = true) /\
  (p_min p + 1 / 10000000000 <= v <= p_max p - 1 / 10000000000 ->
   atMin bound = false /\ atMax bound = false).
Proof.
  intros Hle. cbv zeta. unfold isParameterAtBound. cbv zeta.
  cbn [atMin atMax updateParameter p_value p_min p_max]. exact_arith.
  change (@Math_abs Exact) with Rabs.
  destruct (clamp_cases (p_min p) (p_max p) v Hle) as (Hin & Hmid & Hlo & Hhi).
  set (c := Rmax (p_min p) (Rmin (p_max p) v)) in *.
  split; [|split].
  - intros Hv. apply Rltb_true.
    assert (c = p_min p).
    { destruct (Rle_lt_or_eq_dec _ _ Hv) as [Hlt| ->]; [apply Hlo; exact Hlt|].
      apply Hmid. lra. }
    replace (c - p_min p) with 0 by lra. rewrite Rabs_R0. lra.
  - intros Hv. apply Rltb_true.
    assert (c = p_max p).
    { destruct (Rle_lt_or_eq_dec _ _ Hv) as [Hlt| <-]; [apply Hhi; exact Hlt|].
      apply Hmid. lra. }
    replace (c - p_max p) with 0 by lra. rewrite Rabs_R0. lra.
  - intros Hv. assert (Ec : c = v) by (apply Hmid; lra). rewrite Ec.
    split; apply Rltb_false.
    + rewrite Rabs_right by lra. lra.
    + rewrite Rabs_left1 by lra. lra.
Qed.

Lemma createParameter_range (name : string) (value lo hi st : R)
    (description : option string) :
  lo <= hi ->
  let p := createParameter name value lo hi st description in
  p_name p = name /\ p_min p <= p_value p <= p_max p /\ p_step p = st.
Proof.
  intros Hle. cbv zeta. cbn [createParameter p_name p_min p_max p_value p_step].
  exact_arith. destruct (clamp_cases lo hi value Hle) as (Hin & _).
  repeat split; lra.
Qed.

(** For a name that passes the name check, [detectParameterType] never
    answers 'Angular frequency', 'Standard deviation', 'Mass' or 'Reduced
    Planck constant': the words [omega], [sigma], [mass] and [hbar] have
    the letter [a], which the first test takes for an amplitude.  The
    parameter it returns has the name it was given, a value inside its
    range and the step 0.1; and every name with the letter [a] in either
    case gets the range from -5 to 5 of an amplitude. *)
Lemma detectParameterType_valid_names (paramName : string) :
  isValidParameterName paramName = true ->
  let p := detectParameterType paramName in
  p_name p = paramName /\
  p_min p <= p_value p <= p_max p /\
  p_step p = 1 / 10 /\
  In (p_description p)
    [Some "Amplitude"; Some "Frequency"; Some "Phase"; Some "Offset";
     Some "Scale"; Some "Center position"; Some "Custom parameter"]%string /\
  (String_includes (String_toLowerCase paramName) "a" = true ->
   p = createParameter paramName 1 (-5) 5 (1 / 10) (Some "Amplitude"%string)).
Proof.
  intros Hv. cbv zeta. unfold detectParameterType. cbv zeta.
  rewrite (String_toLowerCase_valid paramName Hv).
  set (lowerName := toLowerCase paramName).
  assert (Homega : String_includes lowerName letter_omega = false).
  { apply (includes_not_alnum paramName letter_omega (ascii_of_nat 207) Hv);
      [left; reflexivity|reflexivity]. }
  assert (Hsigma : String_includes lowerName letter_sigma = false).
  { apply (includes_not_alnum paramName letter_sigma (ascii_of_nat 207) Hv);
      [left; reflexivity|reflexivity]. }
  assert (Hhbar : String_includes lowerName letter_hbar = false).
  { apply (includes_not_alnum paramName letter_hbar (ascii_of_nat 226) Hv);
      [left; reflexivity|reflexivity]. }
  assert (Hm : String.eqb lowerName "m" = false).
  { destruct (String.eqb lowerName "m") eqn:E; [|reflexivity].
    apply String.eqb_eq in E. destruct (toLowerCase_valid paramName Hv) as [_ Hl].
    fold lowerName in Hl. rewrite E in Hl. cbn in Hl. lia. }
  assert (Ha : forall word,
            String_includes word "a" = true ->
            String_includes lowerName "a" = false ->
            String_includes lowerName word = false).
  { intros word Hw Hno. destruct (String_includes lowerName word) eqn:E;
      [|reflexivity].
    rewrite (String_includes_trans _ _ _ E Hw) in Hno. discriminate. }
  assert (Hpi : 0 < PI) by apply PI_RGT_0.
  rewrite Homega, Hsigma, Hhbar, Hm.
  destruct (String_includes lowerName "a") eqn:E1.
  { rewrite orb_true_r.
    destruct (createParameter_range paramName 1 (-5) 5 (1 / 10)
                (Some "Amplitude"%string)) as (H1 & H2 & H3); [lra|].
    repeat split; try assumption; try apply H2; cbn; auto. }
  rewrite (Ha "omega"%string eq_refl eq_refl),
    (Ha "sigma"%string eq_refl eq_refl), (Ha "mass"%string eq_refl eq_refl),
    (Ha "hbar"%string eq_refl eq_refl), (Ha "amp"%string eq_refl eq_refl),
    (Ha "phase"%string eq_refl eq_refl), (Ha "scale"%string eq_refl eq_refl).
  cbn [orb].
  assert (Hrange : forall value lo hi d,
            lo <= hi ->
            In d [Some "Amplitude"; Some "Frequency"; Some "Phase";
                  Some "Offset"; Some "Scale"; Some "Center position";
                  Some "Custom parameter"]%string ->
            let p := createParameter paramName value lo hi (1 / 10) d in
            p_name p = paramName /\
            p_min p <= p_value p <= p_max p /\
            p_step p = 1 / 10 /\
            In (p_description p)
              [Some "Amplitude"; Some "Frequency"; Some "Phase"; Some "Offset";
               Some "Scale"; Some "Center position";
               Some "Custom parameter"]%string /\
            (false = true ->
             p = createParameter paramName 1 (-5) 5 (1 / 10)
                   (Some "Amplitude"%string))).
  { intros value lo hi d Hle Hd. cbv zeta.
    destruct (createParameter_range paramName value lo hi (1 / 10) d Hle)
      as (H1 & H2 & H3).
    repeat split; try assumption; try apply H2. discriminate. }
  repeat match goal with
         | |- context [if ?c then _ else _] => destruct c
         end;
    apply Hrange; try (exact_arith; change (@Math_PI Exact) with PI; lra);
    cbn; auto 10.
Qed.

End ParameterExactFacts.

(** ** The plane wave, the bound state and the custom wavefunction *)

Section InitializerFacts.
#[local] Existing Instance Exact.
Context {H : Host}.
Open Scope R_scope.

Lemma sum_density_const n (c : R) (re im : list number) :
  (forall i, (i < n)%nat -> get re i * get re i + get im i * get im i = c) ->
  sum_density n re im = INR n * c.
Proof.
  intros Hc. induction n as [|n IH].
  - rewrite sum_density_0. cbn [INR]. exact_arith. ring.
  - rewrite sum_density_S, IH, S_INR by (intros i Hi; apply Hc; lia).
    exact_arith. rewrite (Hc n (Nat.lt_succ_diag_r n)). ring.
Qed.

(** Samples divided by the norm: their lengths, their values and their
    total probability. *)
Lemma divided_samples n (dx : number) (re im : list number) :
  0 < dx -> length re = n -> length im = n -> nonzero n re im ->
  let norm := sqrt (sum_density n re im * dx) in
  let ri := divide_by n (Math_sqrt (sum_density n re im * dx)%js) re im in
  0 < norm /\ norm * norm = sum_density n re im * dx /\
  length (fst ri) = n /\ length (snd ri) = n /\
  (forall i, (i < n)%nat ->
     get (fst ri) i = get re i / norm /\ get (snd ri) i = get im i / norm) /\
  sum_density n (fst ri) (snd ri) * dx = 1.
Proof.
  intros Hdx Hre Him Hnz. cbv zeta.
  pose proof (sum_density_pos n _ _ Hnz) as Hpos.
  destruct (divide_by_norm n dx re im Hdx Hre Him Hnz) as (L1 & L2 & Hone).
  destruct (divide_by_spec n (Math_sqrt (sum_density n re im * dx)%js) re im)
    as (_ & _ & Hq); try lia.
  split; [apply sqrt_lt_R0; nra|]. split; [apply sqrt_sqrt; nra|].
  split; [exact L1|]. split; [exact L2|]. split; [exact Hq|exact Hone].
Qed.

(** The plane wave on a grid of at least one point with a positive
    spacing, for an amplitude that is not zero: after the normalization
    the squared modulus of every sample is [1 / (n * dx)], whatever the
    amplitude and the wave number are, and the total probability is 1. *)
Lemma createPlaneWave_uniform (solver : TDSESolver) (amplitude k0 : number) :
  let n := gridSize (params solver) in
  solver_wf solver -> (1 <= n)%nat -> 0 < this_dx solver -> amplitude <> 0 ->
  let state := createPlaneWave solver amplitude k0 in
  length (real state) = n /\ length (imag state) = n /\ time state = 0 /\
  (forall i, (i < n)%nat -> density state i = 1 / (INR n * this_dx solver)) /\
  getTotalProbability solver state = 1.
Proof.
  intros n (Hx & _) Hn Hdx HA. cbv zeta.
  unfold createPlaneWave, getTotalProbability, density. rewrite Hx. fold n.
  loop_invariant (fun (j : nat) (ab : list number * list number) =>
    length (fst ab) = n /\ length (snd ab) = n /\
    forall i, (i < j)%nat ->
      get (fst ab) i = amplitude * cos (k0 * get (this_x solver) i) /\
      get (snd ab) i = amplitude * sin (k0 * get (this_x solver) i)).
  - cbn [fst snd]. rewrite !length_Float64Array.
    split; [reflexivity|]. split; [reflexivity|]. intros i Hi. lia.
  - intros j [a b] Hj (Ha & Hb & Hin). cbn [fst snd Nat.add] in *.
    rewrite !length_set. split; [exact Ha|]. split; [exact Hb|].
    intros i Hi. destruct (Nat.eq_dec i j) as [->|Hne].
    + rewrite !get_set_same by lia. split; reflexivity.
    + rewrite !get_set_other by congruence. apply Hin. lia.
  - destruct (for_loop _ _ _ _) as [re im]. cbn [fst snd] in Hloop.
    destruct Hloop as (Lr & Li & Hraw).
    assert (Hsq : forall i, (i < n)%nat ->
              get re i * get re i + get im i * get im i
              = amplitude * amplitude).
    { intros i Hi. destruct (Hraw i Hi) as [-> ->].
      pose proof (cis_unit (k0 * get (this_x solver) i)) as Hu. nra. }
    assert (Hnz : nonzero n re im).
    { apply sum_density_nonzero. rewrite (sum_density_const n _ re im Hsq).
      assert (0 < INR n) by (apply lt_0_INR; lia).
      assert (0 < amplitude * amplitude) by nra. nra. }
    destruct (divided_samples n (this_dx solver) re im Hdx Lr Li Hnz)
      as (Hpos & Hnorm & L1 & L2 & Hq & Hone).
    destruct (divide_by n _ re im) as [re' im']. cbn [fst snd real imag time] in *.
    split; [exact L1|]. split; [exact L2|]. split; [reflexivity|].
    split; [|exact Hone].
    intros i Hi. destruct (Hq i Hi) as [-> ->].
    set (norm := sqrt (sum_density n re im * this_dx solver)) in *.
    assert (0 < INR n) by (apply lt_0_INR; lia).
    replace (get re i / norm * (get re i / norm)
             + get im i / norm * (get im i / norm))
      with ((get re i * get re i + get im i * get im i) / (norm * norm))
      by (field; lra).
    rewrite (Hsq i Hi), Hnorm, (sum_density_const n _ re im Hsq).
    field. repeat split; lra.
Qed.

(** The bound state on a grid with a positive spacing, when some point
    of the grid lies inside the well at a place where the sine is not zero:
    the imaginary part is zero, the real part is zero outside the well,
    and the total probability is 1. *)
Lemma createBoundState_normalized (solver : TDSESolver) (nq L : number) :
  let n := gridSize (params solver) in
  solver_wf solver -> 0 < this_dx solver ->
  (exists i, (i < n)%nat /\
     0 < get (this_x solver) i < L /\
     sin (nq * PI * get (this_x solver) i / L) <> 0) ->
  let state := createBoundState solver nq L in
  length (real state) = n /\ length (imag state) = n /\ time state = 0 /\
  (forall i, (i < n)%nat -> get (imag state) i = 0) /\
  (forall i, (i < n)%nat -> ~ 0 < get (this_x solver) i < L ->
     get (real state) i = 0) /\
  getTotalProbability solver state = 1.
Proof.
  intros n (Hx & _) Hdx (i0 & Hi0 & Hin0 & Hsin). cbv zeta.
  unfold createBoundState, getTotalProbability. rewrite Hx. fold n.
  loop_invariant (fun (j : nat) (ab : list number * list number) =>
    length (fst ab) = n /\ length (snd ab) = n /\
    forall i, (i < j)%nat ->
      get (snd ab) i = 0 /\
      (0 < get (this_x solver) i < L ->
       get (fst ab) i
       = sqrt (2 / L) * sin (nq * PI * get (this_x solver) i / L)) /\
      (~ 0 < get (this_x solver) i < L -> get (fst ab) i = 0)).
  - cbn [fst snd]. rewrite !length_Float64Array.
    split; [reflexivity|]. split; [reflexivity|]. intros i Hi. lia.
  - intros j [a b] Hj (Ha & Hb & Hin). cbn [fst snd Nat.add] in *.
    set (xj := get (this_x solver) j).
    assert (Hlen : length (fst (if ((xj >? lit 0) && (xj <? L))%js
                                then (set a j (Math_sqrt (lit 2 / L)
                                        * Math_sin (nq * Math_PI * xj / L))%js,
                                      set b j (lit 0))
                                else (set a j (lit 0), set b j (lit 0)))) = n
                   /\ length (snd (if ((xj >? lit 0) && (xj <? L))%js
                                then (set a j (Math_sqrt (lit 2 / L)
                                        * Math_sin (nq * Math_PI * xj / L))%js,
                                      set b j (lit 0))
                                else (set a j (lit 0), set b j (lit 0)))) = n).
    { destruct ((xj >? lit 0) && (xj <? L))%js%bool; cbn [fst snd];
        rewrite !length_set; split; assumption. }
    split; [apply Hlen|]. split; [apply Hlen|].
    intros i Hi. destruct (Nat.eq_dec i j) as [->|Hne].
    + fold xj. exact_arith.
      destruct (Rltb 0 xj) eqn:E0; destruct (Rltb xj L) eqn:E1; cbn [andb fst snd];
        rewrite !get_set_same by lia;
        try apply Rltb_true in E0; try apply Rltb_true in E1;
        try apply Rltb_false in E0; try apply Rltb_false in E1;
        (split; [reflexivity|]); split; intros Hc;
        first [reflexivity | lra | exfalso; apply Hc; lra].
    + destruct ((xj >? lit 0) && (xj <? L))%js%bool; cbn [fst snd];
        rewrite !get_set_other by congruence; apply Hin; lia.
  - destruct (for_loop _ _ _ _) as [re im]. cbn [fst snd] in Hloop.
    destruct Hloop as (Lr & Li & Hraw).
    assert (Hnz : nonzero n re im).
    { exists i0. split; [exact Hi0|]. left.
      destruct (Hraw i0 Hi0) as (_ & Hre & _). rewrite (Hre Hin0).
      assert (0 < sqrt (2 / L)).
      { apply sqrt_lt_R0. apply Rdiv_lt_0_compat; lra. }
      intros E. apply Rmult_integral in E as [E|E]; [lra|contradiction]. }
    destruct (divided_samples n (this_dx solver) re im Hdx Lr Li Hnz)
      as (Hpos & Hnorm & L1 & L2 & Hq & Hone).
    destruct (divide_by n _ re im) as [re' im']. cbn [fst snd real imag time] in *.
    split; [exact L1|]. split; [exact L2|]. split; [reflexivity|].
    split; [|split; [|exact Hone]].
    + intros i Hi. destruct (Hq i Hi) as [_ ->].
      destruct (Hraw i Hi) as (-> & _). exact_arith. unfold Rdiv. ring.
    + intros i Hi Hout. destruct (Hq i Hi) as [-> _].
      destruct (Hraw i Hi) as (_ & _ & Hre). rewrite (Hre Hout).
      exact_arith. unfold Rdiv. ring.
Qed.

(** The custom wavefunction on a grid with a positive spacing, whatever
    the expressions, the parameters and the host are: the state it
    returns has the total probability 1, or all its samples are zero. *)
Lemma createCustomWavefunction_total (solver : TDSESolver)
    (realExpr imagExpr : string) (parameters : ParameterSet) :
  let n := gridSize (params solver) in
  solver_wf solver -> 0 < this_dx solver ->
  let state := createCustomWavefunction solver realExpr imagExpr parameters in
  length (real state) = n /\ length (imag state) = n /\ time state = 0 /\
  (getTotalProbability solver state = 1 \/
   (forall i, (i < n)%nat -> get (real state) i = 0 /\ get (imag state) i = 0)
   /\ getTotalProbability solver state = 0).
Proof.
  intros n (Hx & _) Hdx. cbv zeta.
  unfold createCustomWavefunction, getTotalProbability. rewrite Hx. fold n.
  loop_invariant (fun (j : nat) (ab : list number * list number) =>
    length (fst ab) = n /\ length (snd ab) = n).
  - cbn [fst snd]. rewrite !length_Float64Array. split; reflexivity.
  - intros j [a b] Hj (Ha & Hb). cbn [fst snd Nat.add] in *.
    destruct (parseComplexFunction _ _ _ _ _) as [[r i]|e]; cbn [fst snd];
      rewrite !length_set; split; assumption.
  - destruct (for_loop _ _ _ _) as [re im]. cbn [fst snd] in Hloop.
    destruct Hloop as (Lr & Li).
    destruct (Req_dec (sum_density n re im) 0) as [E|E].
    + rewrite E. exact_arith. rewrite Rmult_0_l, sqrt_0.
      replace (Rltb 0 0) with false by (symmetry; apply Rltb_false; lra).
      cbn [real imag time]. rewrite E.
      split; [exact Lr|]. split; [exact Li|]. split; [reflexivity|]. right.
      split; [|ring].
      intros i Hi.
      destruct (Req_dec (get re i) 0) as [Er|Er];
        destruct (Req_dec (get im i) 0) as [Em|Em]; [split; assumption| | |];
        exfalso;
        assert (Hpos : 0 < sum_density n re im)
          by (apply sum_density_pos; exists i; split; [exact Hi|tauto]);
        lra.
    + apply sum_density_nonzero in E.
      destruct (divided_samples n (this_dx solver) re im Hdx Lr Li E)
        as (Hpos & Hnorm & L1 & L2 & Hq & Hone).
      exact_arith.
      replace (Rltb 0 (sqrt (sum_density n re im * this_dx solver))) with true
        by (symmetry; apply Rltb_true; exact Hpos).
      destruct (divide_by n _ re im) as [re' im'].
      cbn [fst snd real imag time] in *.
      split; [exact L1|]. split; [exact L2|]. split; [reflexivity|].
      left. exact Hone.
Qed.

End InitializerFacts.

(** ** The preset potentials and the grids of the solver *)

Section PresetFacts.
#[local] Existing Instance Exact.
Open Scope R_scope.

Lemma for_loop_ext {S : Type} lo n (body1 body2 : nat -> S -> S) (s : S) :
  (forall i t, body1 i t = body2 i t) ->
  for_loop lo n body1 s = for_loop lo n body2 s.
Proof.
  intros Hb. induction n as [|n IH]; [reflexivity|].
  rewrite !for_loop_S, IH. apply Hb.
Qed.

(** A loop that assigns one of two values to the entry [i]. *)
Lemma branching_fill (c : nat -> bool) (a b : nat -> number) (V : list number) :
  let V' :=
    for_loop 0 (length V)
      (fun i V => if c i then set V i (a i) else set V i (b i)) V in
  length V' = length V /\
  forall i, (i < length V)%nat -> get V' i = if c i then a i else b i.
Proof.
  cbv zeta.
  rewrite (for_loop_ext 0 (length V) _
             (fun i V => set V i (if c i then a i else b i)))
    by (intros i t; destruct (c i); reflexivity).
  destruct (fill_loop (fun i => if c i then a i else b i) 0 (length V) V
              (Nat.le_refl _)) as (Hl & Hin & _).
  split; [exact Hl|]. intros i Hi. apply Hin. lia.
Qed.

(** The barrier is [v0] at the points closer to [x0] than half the width
    and 0 at the others; the well is its opposite; and for a width that is
    not positive both are the free potential. *)
Lemma createBarrierPotential_shape (x : list number) (v0 x0 width : number) :
  let V := createBarrierPotential x v0 x0 width in
  let W := createWellPotential x v0 x0 width in
  length V = length x /\ length W = length x /\
  (forall i, (i < length x)%nat ->
     (Rabs (get x i - x0) < width / 2 -> get V i = v0 /\ get W i = - v0) /\
     (width / 2 <= Rabs (get x i - x0) -> get V i = 0 /\ get W i = 0)) /\
  (width <= 0 -> V = createFreePotential x /\ W = createFreePotential x).
Proof.
  cbv zeta. unfold createBarrierPotential, createWellPotential. cbv zeta.
  set (c := fun i => (Math_abs (get x i - x0) <? width / lit 2)%js).
  destruct (branching_fill c (fun _ => v0) (fun _ => lit 0)
              (Float64Array (length x))) as [LV HV].
  destruct (branching_fill c (fun _ => (- v0)%js) (fun _ => lit 0)
              (Float64Array (length x))) as [LW HW].
  rewrite length_Float64Array in LV, LW, HV, HW.
  split; [exact LV|]. split; [exact LW|]. split.
  - intros i Hi. specialize (HV i Hi). specialize (HW i Hi).
    change (for_loop 0 (length x)
              (fun i V => if c i then set V i v0 else set V i (lit 0))
              (Float64Array (length x))) with
      (for_loop 0 (length x)
         (fun i V =>
            if (Math_abs (get x i - x0) <? width / lit 2)%js
            then set V i v0 else set V i (lit 0))
         (Float64Array (length x))) in HV.
    change (for_loop 0 (length x)
              (fun i V => if c i then set V i (- v0)%js else set V i (lit 0))
              (Float64Array (length x))) with
      (for_loop 0 (length x)
         (fun i V =>
            if (Math_abs (get x i - x0) <? width / lit 2)%js
            then set V i (- v0)%js else set V i (lit 0))
         (Float64Array (length x))) in HW.
    rewrite HV, HW. unfold c. exact_arith. change (@Math_abs Exact) with Rabs.
    split; intros Hc.
    + replace (Rltb (Rabs (get x i - x0)) (width / 2)) with true
        by (symmetry; apply Rltb_true; exact Hc).
      split; reflexivity.
    + replace (Rltb (Rabs (get x i - x0)) (width / 2)) with false
        by (symmetry; apply Rltb_false; exact Hc).
      split; reflexivity.
  - intros Hw.
    assert (Hc : forall i, c i = false).
    { intros i. unfold c. exact_arith. change (@Math_abs Exact) with Rabs.
      apply Rltb_false. pose proof (Rabs_pos (get x i - x0)). lra. }
    unfold createFreePotential.
    split; apply for_loop_fixed; intros j Hj; cbn [Nat.add]; fold (c j);
      rewrite Hc; apply set_zero.
Qed.

(** The harmonic potential is [m * omega^2 * (x - x0)^2 / 2] at every
    point; it is not negative when the mass is not negative, and for a
    positive mass and a frequency that is not zero it is zero at the
    points [x0] only. *)
Lemma createHarmonicPotential_shape (x : list number) (mass omega x0 : number) :
  let V := createHarmonicPotential x mass omega x0 in
  length V = length x /\
  forall i, (i < length x)%nat ->
    get V i = mass * omega * omega * (get x i - x0) * (get x i - x0) / 2 /\
    (0 <= mass -> 0 <= get V i) /\
    (0 < mass -> omega <> 0 -> (get V i = 0 <-> get x i = x0)).
Proof.
  cbv zeta. unfold createHarmonicPotential.
  destruct (fill_loop
              (fun i => (half * mass * omega * omega * (get x i - x0)
                         * (get x i - x0))%js)
              0 (length x) (Float64Array (length x))) as (Hl & Hin & _).
  { rewrite length_Float64Array. lia. }
  rewrite length_Float64Array in Hl. split; [exact Hl|].
  intros i Hi. rewrite Hin by lia. exact_arith.
  set (d := get x i - x0).
  assert (E : 1 / 2 * mass * omega * omega * d * d
              = mass * omega * omega * d * d / 2) by (unfold Rdiv; ring).
  split; [exact E|]. rewrite E. split.
  - intros Hm.
    assert (0 <= mass * ((omega * d) * (omega * d)))
      by (apply Rmult_le_pos; [exact Hm|nra]).
    nra.
  - intros Hm Hw. split.
    + intros Hz.
      assert (Hd : (omega * d) * (omega * d) = 0).
      { assert (mass * ((omega * d) * (omega * d)) = 0) by nra.
        apply Rmult_integral in H as [H|H]; [lra|exact H]. }
      apply Rmult_integral in Hd as Hd'.
      assert (omega * d = 0) by tauto.
      apply Rmult_integral in H as [H|H]; [contradiction|].
      unfold d in H. lra.
    + intros Hx. unfold d. rewrite Hx. unfold Rdiv. ring.
Qed.

Lemma of_nat_INR (i : nat) : of_nat i = INR i.
Proof. unfold of_nat. exact_arith. symmetry. apply INR_IZR_INZ. Qed.

Lemma pow2_ceil_log2_parity (g : nat) :
  (1 <= g)%nat ->
  pow2_ceil_log2 g = 1%nat \/ Nat.even (pow2_ceil_log2 g) = true.
Proof.
  intros Hg. destruct (pow2_ceil_log2_spec g Hg) as (-> & _).
  destruct (Nat.log2_up g) as [|e]; [left; reflexivity|right].
  rewrite Nat.pow_succ_r'. apply Nat.even_spec. exists (2 ^ e)%nat. reflexivity.
Qed.

(** The points of the grid [x] of a constructed solver. *)
Lemma TDSESolver_fields_x (p : SimulationParameters) (i : nat) :
  let this := TDSESolver_fields p in
  (i < gridSize (params this))%nat ->
  get (this_x this) i = xMin p + INR i * this_dx this.
Proof.
  cbv zeta. rewrite TDSESolver_fields_gridSize. unfold TDSESolver_fields. cbv zeta.
  set (n := pow2_ceil_log2 (gridSize p)).
  match goal with |- context [updateKineticOperator ?s] => set (s0 := s) end.
  destruct (updateKineticOperator_frame s0) as (_ & -> & -> & _).
  subst s0. cbn [this_x this_dx params xMin xMax gridSize].
  set (dx := ((xMax p - xMin p) / of_nat n)%js). intros Hi.
  destruct (fill_loop (fun i => (xMin p + of_nat i * dx)%js) 0 n
              (Float64Array n)) as (_ & Hx & _).
  { rewrite length_Float64Array. lia. }
  rewrite Hx by lia. rewrite of_nat_INR. reflexivity.
Qed.

(** The wave numbers of the grid [k] of a constructed solver. *)
Lemma TDSESolver_fields_k (p : SimulationParameters) :
  (1 <= gridSize p)%nat ->
  let this := TDSESolver_fields p in
  let n := gridSize (params this) in
  this_dk this = 2 * PI / (xMax p - xMin p) /\
  (forall i, (2 * i < n)%nat -> get (this_k this) i = INR i * this_dk this) /\
  (forall i, (n <= 2 * i)%nat -> (i < n)%nat ->
     get (this_k this) i = (INR i - INR n) * this_dk this).
Proof.
  intros Hg. cbv zeta.
  rewrite TDSESolver_fields_gridSize. unfold TDSESolver_fields. cbv zeta.
  set (n := pow2_ceil_log2 (gridSize p)).
  destruct (pow2_ceil_log2_spec (gridSize p) Hg) as (_ & Hge & _). fold n in Hge.
  assert (Hn : (1 <= n)%nat) by lia.
  match goal with |- context [updateKineticOperator ?s] => set (s0 := s) end.
  destruct (updateKineticOperator_frame s0) as (_ & _ & _ & -> & -> & _).
  subst s0. cbn [this_k this_dk params xMin xMax gridSize].
  split; [exact_arith; change (@Math_PI Exact) with PI; reflexivity|].
  set (dk := (lit 2 * Math_PI / (xMax p - xMin p))%js).
  set (k1 := for_loop 0 ((n + 1) / 2)
               (fun i k => set k i (of_nat i * dk)%js) (Float64Array n)).
  assert (Hhalf : ((n + 1) / 2 <= n)%nat).
  { apply Nat.Div0.div_le_upper_bound. lia. }
  destruct (fill_loop (fun i => (of_nat i * dk)%js) 0 ((n + 1) / 2)
              (Float64Array n)) as (L1 & H1in & H1out).
  { rewrite length_Float64Array. lia. }
  fold k1 in L1, H1in, H1out. rewrite length_Float64Array in L1.
  assert (Hfirst : forall i, (2 * i < n)%nat -> (i < (n + 1) / 2)%nat).
  { intros i Hi. apply Nat.div_le_lower_bound; lia. }
  pose proof (pow2_ceil_log2_parity (gridSize p) Hg) as Hpar.
  fold n in Hpar. destruct Hpar as [E1|Ev].
  - assert (Hodd : Nat.even n = false) by (rewrite E1; reflexivity).
    rewrite Hodd. split.
    + intros i Hi. rewrite H1in by (split; [lia|apply Hfirst; exact Hi]).
      rewrite of_nat_INR. reflexivity.
    + intros i H2 Hi. lia.
  - rewrite Ev. apply Nat.even_spec in Ev as [h Eh].
    assert (Eh2 : (n / 2 = h)%nat).
    { rewrite Eh, Nat.mul_comm. apply Nat.div_mul. lia. }
    assert (Eh1 : ((n + 1) / 2 = h)%nat).
    { rewrite Eh. replace (2 * h + 1)%nat with (1 + h * 2)%nat by lia.
      rewrite Nat.div_add by lia. reflexivity. }
    destruct (fill_loop (fun i => ((of_nat i - of_nat n) * dk)%js) (n / 2)
                (n - n / 2) k1) as (_ & H2in & H2out).
    { rewrite L1. lia. }
    split.
    + intros i Hi. rewrite H2out by lia.
      rewrite H1in by lia. rewrite of_nat_INR. reflexivity.
    + intros i H2 Hi. rewrite H2in by lia. rewrite !of_nat_INR. reflexivity.
Qed.

(** The grids the statements of the constructor fill in. *)
Lemma TDSESolver_fields_grids (p : SimulationParameters) :
  (1 <= gridSize p)%nat -> xMin p < xMax p ->
  let this := TDSESolver_fields p in
  let n := gridSize (params this) in
  let dx := this_dx this in
  let dk := this_dk this in
  dx = (xMax p - xMin p) / INR n /\ 0 < dx /\
  dk = 2 * PI / (xMax p - xMin p) /\
  (forall i, (i < n)%nat -> get (this_x this) i = xMin p + INR i * dx) /\
  get (this_x this) (n - 1) + dx = xMax p /\
  (forall i j, (i < j < n)%nat -> get (this_x this) i < get (this_x this) j) /\
  (forall i, (2 * i < n)%nat -> get (this_k this) i = INR i * dk) /\
  (forall i, (n <= 2 * i)%nat -> (i < n)%nat ->
     get (this_k this) i = (INR i - INR n) * dk).
Proof.
  intros Hg Hdom. cbv zeta.
  destruct (TDSESolver_fields_k p Hg) as (Hdk & Hk1 & Hk2).
  destruct (TDSESolver_fields_exact p) as (Hn0 & Hdx0 & _).
  set (this := TDSESolver_fields p) in *.
  set (n := gridSize (params this)) in *.
  destruct (pow2_ceil_log2_spec (gridSize p) Hg) as (_ & Hge & _).
  assert (Hn : (1 <= n)%nat) by (unfold n; lia).
  assert (HnR : 0 < INR n) by (apply lt_0_INR; lia).
  assert (Edx : this_dx this = (xMax p - xMin p) / INR n).
  { rewrite Hdx0, <- Hn0. fold n. rewrite INR_IZR_INZ. reflexivity. }
  assert (Hdx : 0 < this_dx this)
    by (rewrite Edx; apply Rdiv_lt_0_compat; lra).
  assert (Hxi : forall i, (i < n)%nat ->
            get (this_x this) i = xMin p + INR i * this_dx this).
  { intros i Hi. apply (TDSESolver_fields_x p i). exact Hi. }
  split; [exact Edx|]. split; [exact Hdx|]. split; [exact Hdk|].
  split; [exact Hxi|]. split; [|split; [|split; [exact Hk1|exact Hk2]]].
  - rewrite Hxi by lia. rewrite minus_INR by lia. rewrite Edx. cbn [INR].
    field. lra.
  - intros i j [Hij Hj]. rewrite !Hxi by lia.
    assert (INR i < INR j) by (apply lt_INR; exact Hij). nra.
Qed.

(** The grids of the solver the constructor returns, on a domain with
    [xMin < xMax].  The points of [x] start at [xMin], are [dx] apart,
    increase, and stop one step short of [xMax]; the wave numbers of [k]
    are the multiples of [dk = 2 pi / (xMax - xMin)] by [i] in the first
    half and by [i - n] in the second half. *)
Lemma TDSESolver_new_grids (p : SimulationParameters) (this : TDSESolver) :
  TDSESolver_new p = Normal this -> xMin p < xMax p ->
  let n := gridSize (params this) in
  let dx := this_dx this in
  let dk := this_dk this in
  dx = (xMax p - xMin p) / INR n /\ 0 < dx /\
  dk = 2 * PI / (xMax p - xMin p) /\
  (forall i, (i < n)%nat -> get (this_x this) i = xMin p + INR i * dx) /\
  get (this_x this) (n - 1) + dx = xMax p /\
  (forall i j, (i < j < n)%nat -> get (this_x this) i < get (this_x this) j) /\
  (forall i, (2 * i < n)%nat -> get (this_k this) i = INR i * dk) /\
  (forall i, (n <= 2 * i)%nat -> (i < n)%nat ->
     get (this_k this) i = (INR i - INR n) * dk).
Proof.
  intros Hnew Hdom.
  apply TDSESolver_new_Normal in Hnew as [-> [Hg _]].
  apply TDSESolver_fields_grids; [lia|exact Hdom].
Qed.

(** The entries [updateKineticOperator] assigns. *)
Lemma updateKineticOperator_entries (this : TDSESolver) :
  let n := gridSize (params this) in
  let phase i :=
    (- hbar (params this) * get (this_k this) i * get (this_k this) i
     * dt (params this) / (lit 2 * mass (params this)))%js in
  length (expT_real this) = n -> length (expT_imag this) = n ->
  forall i, (i < n)%nat ->
    get (expT_real (updateKineticOperator this)) i = cos (phase i) /\
    get (expT_imag (updateKineticOperator this)) i = sin (phase i).
Proof.
  intros n phase Hr Hi. unfold updateKineticOperator. fold n.
  loop_invariant (fun (j : nat) (ab : list number * list number) =>
    length (fst ab) = n /\ length (snd ab) = n /\
    forall i, (i < j)%nat ->
      get (fst ab) i = cos (phase i) /\ get (snd ab) i = sin (phase i)).
  - cbn [fst snd]. split; [exact Hr|]. split; [exact Hi|]. intros i Hlt. lia.
  - intros j [a b] Hj (Ha & Hb & Hin). cbn [fst snd Nat.add] in *.
    rewrite !length_set. split; [exact Ha|]. split; [exact Hb|].
    intros i Hlt. destruct (Nat.eq_dec i j) as [->|Hne].
    + rewrite !get_set_same by lia. split; reflexivity.
    + rewrite !get_set_other by congruence. apply Hin. lia.
  - destruct (for_loop _ _ _ _) as [re im]. cbn [fst snd] in Hloop.
    destruct Hloop as (_ & _ & Hin). cbn [expT_real expT_imag]. exact Hin.
Qed.

(** The kinetic operator the statements of the constructor fill in. *)
Lemma TDSESolver_fields_kinetic (p : SimulationParameters) :
  (1 <= gridSize p)%nat -> xMin p <> xMax p -> mass p <> 0 ->
  let this := TDSESolver_fields p in
  let n := gridSize (params this) in
  let phase i :=
    - hbar p * get (this_k this) i * get (this_k this) i * dt p
    / (2 * mass p) in
  (forall i, (i < n)%nat ->
     get (expT_real this) i = cos (phase i) /\
     get (expT_imag this) i = sin (phase i)) /\
  (get (expT_real this) 0 = 1 /\ get (expT_imag this) 0 = 0) /\
  (forall i, (0 < i)%nat -> (2 * i < n)%nat ->
     get (expT_real this) (n - i) = get (expT_real this) i /\
     get (expT_imag this) (n - i) = get (expT_imag this) i).
Proof.
  intros Hg _ _. cbv zeta.
  destruct (TDSESolver_fields_k p Hg) as (_ & Hk1 & Hk2).
  destruct (pow2_ceil_log2_spec (gridSize p) Hg) as (_ & Hge & _).
  pose proof (TDSESolver_fields_gridSize p) as Hn0.
  assert (Hent : forall i, (i < gridSize (params (TDSESolver_fields p)))%nat ->
            get (expT_real (TDSESolver_fields p)) i
            = cos (- hbar p * get (this_k (TDSESolver_fields p)) i
                   * get (this_k (TDSESolver_fields p)) i * dt p / (2 * mass p)) /\
            get (expT_imag (TDSESolver_fields p)) i
            = sin (- hbar p * get (this_k (TDSESolver_fields p)) i
                   * get (this_k (TDSESolver_fields p)) i * dt p / (2 * mass p))).
  { rewrite Hn0. unfold TDSESolver_fields. cbv zeta.
    set (n := pow2_ceil_log2 (gridSize p)).
    match goal with |- context [updateKineticOperator ?s] => set (s0 := s) end.
    destruct (updateKineticOperator_frame s0) as (_ & _ & _ & Ek & _).
    rewrite Ek. intros i Hi.
    apply (updateKineticOperator_entries s0); subst s0;
      cbn [expT_real expT_imag params gridSize];
      try apply length_Float64Array. exact Hi. }
  set (this := TDSESolver_fields p) in *.
  set (n := gridSize (params this)) in *.
  assert (Hn : (1 <= n)%nat) by lia.
  split; [exact Hent|]. split.
  - destruct (Hent 0%nat) as [-> ->]; [lia|].
    rewrite (Hk1 0%nat) by lia. cbn [INR].
    replace (- hbar p * (0 * this_dk this) * (0 * this_dk this) * dt p
             / (2 * mass p)) with 0 by (unfold Rdiv; ring).
    split; [apply cos_0|apply sin_0].
  - intros i Hi H2.
    destruct (Hent (n - i)%nat) as [-> ->]; [lia|].
    destruct (Hent i) as [-> ->]; [lia|].
    rewrite (Hk2 (n - i)%nat) by lia. rewrite (Hk1 i H2).
    rewrite minus_INR by lia.
    replace (- hbar p * ((INR n - INR i - INR n) * this_dk this)
             * ((INR n - INR i - INR n) * this_dk this) * dt p / (2 * mass p))
      with (- hbar p * (INR i * this_dk this) * (INR i * this_dk this) * dt p
            / (2 * mass p)) by (unfold Rdiv; ring).
    split; reflexivity.
Qed.

(** The kinetic operator of the solver the constructor returns, for a
    domain that is not empty and a mass that is not zero (the wave numbers
    divide by the length of the domain, the phases by the mass): its entry
    [i] is the cosine and the sine of [- hbar * k[i]^2 * dt / (2 * mass)];
    its entry 0, the one of the wave number 0, is 1; and it is the same at
    the wave numbers [k] and [-k], that is at the indices [i] and
    [n - i]. *)
Lemma TDSESolver_new_kinetic (p : SimulationParameters) (this : TDSESolver) :
  TDSESolver_new p = Normal this -> xMin p <> xMax p -> mass p <> 0 ->
  let n := gridSize (params this) in
  let phase i :=
    - hbar p * get (this_k this) i * get (this_k this) i * dt p
    / (2 * mass p) in
  (forall i, (i < n)%nat ->
     get (expT_real this) i = cos (phase i) /\
     get (expT_imag this) i = sin (phase i)) /\
  (get (expT_real this) 0 = 1 /\ get (expT_imag this) 0 = 0) /\
  (forall i, (0 < i)%nat -> (2 * i < n)%nat ->
     get (expT_real this) (n - i) = get (expT_real this) i /\
     get (expT_imag this) (n - i) = get (expT_imag this) i).
Proof.
  intros Hnew Hdom Hm.
  apply TDSESolver_new_Normal in Hnew as [-> [Hg _]].
  apply TDSESolver_fields_kinetic; [lia|exact Hdom|exact Hm].
Qed.

End PresetFacts.

(** ** Drawn potentials stay between their control points *)

Section DrawnBounds.
#[local] Existing Instance Exact.
Open Scope R_scope.

(** A value between [y1] and [y2], both inside [[lo, hi]], is inside. *)
Lemma interpolation_bounds (lo hi y1 y2 t : R) :
  lo <= y1 <= hi -> lo <= y2 <= hi -> 0 <= t <= 1 ->
  lo <= y1 + t * (y2 - y1) <= hi.
Proof.
  intros H1 H2 Ht.
  replace (y1 + t * (y2 - y1)) with ((1 - t) * y1 + t * y2) by ring.
  split; nra.
Qed.

(** The drawn potential never leaves the range of the ordinates of its
    control points: when every control point has its ordinate between
    [lo] and [hi], so has the potential at every point of the grid.  No
    value is the quotient of zero by zero: the segment the interpolation
    divides by has two different abscissas. *)
Lemma createDrawnPotential_bounded (x : list number) (points : list Point)
    (lo hi : R) :
  points <> [] ->
  (forall p, In p points -> lo <= pt_y p <= hi) ->
  forall i, (i < length x)%nat ->
    lo <= get (createDrawnPotential x points) i <= hi.
Proof.
  intros Hne Hy i Hi.
  rewrite (createDrawnPotential_get x points i Hne Hi).
  destruct (Array_sort_spec points) as [Hsorted Hperm].
  set (sp := Array_sort by_x points) in *.
  set (xi := get x i).
  assert (Hlen : (0 < length sp)%nat).
  { rewrite (Permutation_length Hperm). destruct points; [congruence|cbn; lia]. }
  assert (Hin : forall k, (k < length sp)%nat ->
            lo <= pt_y (point_at sp k) <= hi).
  { intros k Hk. apply Hy. apply (Permutation_in _ Hperm). apply nth_In.
    exact Hk. }
  unfold drawn_value.
  pose proof (find_segment_spec xi sp 0) as Hseg.
  exact_arith.
  destruct (Rleb xi (pt_x (point_at sp 0))) eqn:Hlow.
  { destruct (find_segment xi sp 0); apply Hin; lia. }
  destruct (Rleb (pt_x (point_at sp (length sp - 1))) xi) eqn:Hhigh.
  { destruct (find_segment xi sp 0); apply Hin; lia. }
  apply Rleb_false in Hlow. apply Rleb_false in Hhigh.
  destruct (find_segment xi sp 0) as [j|].
  - destruct Hseg as (k & -> & Hk & [Hl Hr] & Hmin). cbn [Nat.add].
    replace (S k) with (k + 1)%nat by lia.
    assert (Hlt : pt_x (point_at sp k) < pt_x (point_at sp (k + 1))).
    { destruct (Rle_lt_or_eq_dec _ _ (Rle_trans _ _ _ Hl Hr)) as [Hlt|Heq];
        [exact Hlt|exfalso].
      assert (Exi : xi = pt_x (point_at sp k)) by lra.
      destruct k as [|k]; [lra|].
      apply (Hmin k (Nat.lt_succ_diag_r k)).
      replace (k + 1)%nat with (S k) by lia. rewrite Exi. split; [|lra].
      apply sorted_point_at; [exact Hsorted|lia]. }
    apply interpolation_bounds; [apply Hin; lia|apply Hin; lia|].
    split.
    + apply Rmult_le_pos; [lra|]. left. apply Rinv_0_lt_compat. lra.
    + apply Rmult_le_reg_r
        with (r := pt_x (point_at sp (k + 1)) - pt_x (point_at sp k)); [lra|].
      unfold Rdiv. rewrite Rmult_assoc, Rinv_l by lra. lra.
  - apply interpolation_bounds; [apply Hin; lia|apply Hin; lia|].
    split.
    + apply Rmult_le_pos; [lra|]. left. apply Rinv_0_lt_compat. lra.
    + apply Rmult_le_reg_r
        with (r := pt_x (point_at sp (length sp - 1)) - pt_x (point_at sp 0));
        [lra|].
      unfold Rdiv. rewrite Rmult_assoc, Rinv_l by lra. lra.
Qed.

End DrawnBounds.

(** ** The two operators keep the probability density *)

Section OperatorFacts.
#[local] Existing Instance Exact.
Open Scope R_scope.

Lemma applyOperator_density n (op_real op_imag re im : list number) :
  unit_modulus n op_real op_imag ->
  (n <= length re)%nat -> (n <= length im)%nat ->
  let ri := applyOperator n op_real op_imag (re, im) in
  length (fst ri) = length re /\ length (snd ri) = length im /\
  forall i, (i < n)%nat ->
    get (fst ri) i * get (fst ri) i + get (snd ri) i * get (snd ri) i
    = get re i * get re i + get im i * get im i.
Proof.
  intros Hunit Hr Hi. cbv zeta.
  destruct (applyOperator_spec n op_real op_imag re im Hr Hi) as (H1 & H2 & H3).
  split; [exact H1|]. split; [exact H2|].
  intros i Hlt. destruct (H3 i Hlt) as [-> ->]. exact_arith.
  specialize (Hunit i Hlt).
  set (c := get op_real i) in *. set (s := get op_imag i) in *.
  set (a := get re i). set (b := get im i).
  replace ((a * c - b * s) * (a * c - b * s) + (a * s + b * c) * (a * s + b * c))
    with ((a * a + b * b) * (c * c + s * s)) by ring.
  rewrite Hunit. ring.
Qed.

(** On a solver the constructor returns for a grid size of at least 1 (it
    returns from the size 2 on), a domain that is not empty and constants
    [hbar] and [mass] that are not zero, after a call of [setPotential]
    that returned: the potential operator and the
    kinetic operator change the phase of each sample only.  Applied to two
    arrays of the length of the grid, each of them leaves the squared
    modulus of every entry as it was. *)
Lemma operators_keep_density (p : SimulationParameters) (V : list number)
    (solver this : TDSESolver) (re im : list number) :
  (1 <= gridSize p)%nat -> xMin p <> xMax p -> hbar p <> 0 -> mass p <> 0 ->
  TDSESolver_new p = Normal solver ->
  setPotential solver V = (this, Normal tt) ->
  let n := gridSize (params this) in
  length re = n -> length im = n ->
  let pot := applyPotentialOperator this (re, im) in
  let kin := applyKineticOperator this (re, im) in
  length (fst pot) = n /\ length (snd pot) = n /\
  length (fst kin) = n /\ length (snd kin) = n /\
  forall i, (i < n)%nat ->
    get (fst pot) i * get (fst pot) i + get (snd pot) i * get (snd pot) i
    = get re i * get re i + get im i * get im i /\
    get (fst kin) i * get (fst kin) i + get (snd kin) i * get (snd kin) i
    = get re i * get re i + get im i * get im i.
Proof.
  intros Hg _ _ _ Hnew Hset n Hre Him. cbv zeta.
  apply TDSESolver_new_Normal in Hnew as [-> _].
  destruct (TDSESolver_fields_wf p) as (_ & _ & Hvr & Hvi & _).
  destruct (TDSESolver_fields_exact p) as (Hn0 & _ & HT0).
  destruct (Nat.eq_dec (length V) (gridSize (params (TDSESolver_fields p))))
    as [Hlen|Hlen];
    [|rewrite (setPotential_throws _ V Hlen) in Hset; discriminate].
  destruct (setPotential_stores (TDSESolver_fields p) V Hvr Hvi Hlen)
    as (this' & E & _ & Hcis & _ & _ & Hp & _ & _ & _ & _ & HTr & HTi).
  rewrite E in Hset. injection Hset as <-.
  assert (Hn : n = pow2_ceil_log2 (gridSize p)).
  { unfold n. rewrite Hp. exact Hn0. }
  assert (HV : unit_modulus n (expVhalf_real this') (expVhalf_imag this')).
  { intros i Hi. unfold n in Hi. rewrite Hp in Hi.
    destruct (Hcis i Hi) as [-> ->]. exact_arith. apply cis_unit. }
  assert (HT : unit_modulus n (expT_real this') (expT_imag this')).
  { rewrite HTr, HTi, Hn. exact HT0. }
  unfold applyPotentialOperator, applyKineticOperator. fold n.
  destruct (applyOperator_density n _ _ re im HV) as (P1 & P2 & P3); try lia.
  destruct (applyOperator_density n _ _ re im HT) as (K1 & K2 & K3); try lia.
  split; [lia|]. split; [lia|]. split; [lia|]. split; [lia|].
  intros i Hi. split; [apply P3|apply K3]; exact Hi.
Qed.

End OperatorFacts.

(** ** The further statements on concrete inputs *)

#[local] Existing Instance Exact.

Section FurtherInstances.
Open Scope R_scope.

(** The expression [x;1], whose semicolon is not an allowed character. *)
Lemma createCustomFunctionPotential_rejects_witness :
  @createCustomFunctionPotential _ witness_host [0] "x;1" [frequency_preset]
  = Throw (FailedToEvaluate InvalidCharacters).
Proof.
  assert (H1 : Forall (fun p : Param => is_word (p_name p) = true)
                 [frequency_preset])
    by (constructor; [reflexivity|constructor]).
  assert (H2 : has_char "x;1" ";"%char) by (right; left; reflexivity).
  destruct (@createCustomFunctionPotential_rejects _ witness_host [0] "x;1"
              [frequency_preset] ";"%char H1 H2 eq_refl) as [_ Hgen].
  apply Hgen. discriminate.
Defined.

Lemma validateWavefunctionFunctions_rejects_witness :
  Wavefunctions.valid
    (@Wavefunctions.validateWavefunctionFunctions _ witness_host
       "exp(i*x)" "x;1" [frequency_preset])
  = false.
Proof.
  assert (H1 : Forall (fun p : Param => is_word (p_name p) = true)
                 [frequency_preset])
    by (constructor; [reflexivity|constructor]).
  assert (H2 : has_char "exp(i*x)" ";"%char \/ has_char "x;1" ";"%char)
    by (right; right; left; reflexivity).
  destruct (@validateWavefunctionFunctions_rejects _ witness_host
              "exp(i*x)" "x;1" [frequency_preset] ";"%char H1 H2 eq_refl)
    as (_ & _ & Hv).
  exact Hv.
Defined.



(** The configuration of a barrier with its default height, place and
    width. *)
Definition barrier_config : PotentialConfig :=
  {| type := barrier; v0 := None; x0 := None; width := None; omega := None;
     customFunction := None; customPoints := None |}.

Lemma generatePotential_fits_witness :
  let this := TDSESolver_fields two_points in
  snd (setPotential this (createBarrierPotential (this_x this) 5 0 2))
  = Normal tt.
Proof.
  cbv zeta.
  destruct (@generatePotential_fits _ witness_host (TDSESolver_fields two_points)
              barrier_config 1 []
              (createBarrierPotential (this_x (TDSESolver_fields two_points)) 5 0 2)
              (TDSESolver_fields_wf two_points) eq_refl) as (_ & Hset & _).
  exact Hset.
Defined.

(** The solver the constructor returns for two points (lemma
    [two_points_constructed]), after the call of [setPotential] with the
    free potential. *)
Definition free_solver : TDSESolver :=
  fst (setPotential (TDSESolver_fields two_points) [0; 0]).

Lemma free_solver_facts :
  gridSize (params free_solver) = 2%nat /\
  this_dx free_solver = 1 /\
  mass (params free_solver) = 1 /\
  potential free_solver = [0; 0] /\
  solver_wf free_solver.
Proof.
  destruct (two_point_grid two_points eq_refl) as (_ & Hn & Hdx & Hwf).
  fold free_solver in Hn, Hdx, Hwf.
  split; [exact Hn|]. split; [rewrite Hdx; cbn; lra|].
  split; [reflexivity|]. split; [reflexivity|exact Hwf].
Qed.

Lemma getEnergy_nonneg_witness :
  0 <= @getEnergy _ dft2 free_solver point_state.
Proof.
  destruct free_solver_facts as (Hn & Hdx & Hm & Hpot & Hwf).
  apply (@getEnergy_nonneg dft2 free_solver point_state Hwf).
  - rewrite Hn. reflexivity.
  - rewrite Hn. reflexivity.
  - rewrite Hn. reflexivity.
  - rewrite Hm. lra.
  - rewrite Hdx. lra.
  - intros i Hi. rewrite Hpot. rewrite Hn in Hi.
    destruct i as [|[|i]]; [cbn; lra|cbn; lra|lia].
Defined.

Lemma checkBoundaries_total_witness :
  checkBoundaries free_solver point_state 0 = false.
Proof.
  destruct free_solver_facts as (Hn & Hdx & _).
  destruct (checkBoundaries_total free_solver point_state 0) as [_ Hno].
  - rewrite Hn. reflexivity.
  - rewrite Hn. reflexivity.
  - rewrite Hdx. lra.
  - apply Hno; [rewrite Hn; lia|lra].
Defined.

Lemma isParameterAtBound_clamped_witness :
  atMax (isParameterAtBound (updateParameter amplitude_preset 7)) = true.
Proof.
  assert (Hle : p_min amplitude_preset <= p_max amplitude_preset)
    by (simpl; lra).
  destruct (isParameterAtBound_clamped amplitude_preset 7 Hle) as (_ & Hmax & _).
  apply Hmax. simpl. lra.
Defined.

Lemma detectParameterType_valid_names_witness :
  @detectParameterType _ witness_host "sigma"
  = createParameter "sigma" 1 (-5) 5 (1 / 10) (Some "Amplitude"%string).
Proof.
  destruct (@detectParameterType_valid_names witness_host "sigma" eq_refl)
    as (_ & _ & _ & _ & Ha).
  apply Ha. reflexivity.
Defined.

Lemma createPlaneWave_uniform_witness :
  getTotalProbability free_solver (createPlaneWave free_solver 3 1) = 1.
Proof.
  destruct free_solver_facts as (Hn & Hdx & _ & _ & Hwf).
  destruct (createPlaneWave_uniform free_solver 3 1 Hwf) as (_ & _ & _ & _ & Ht).
  - rewrite Hn. lia.
  - rewrite Hdx. lra.
  - lra.
  - exact Ht.
Defined.

(** The domain [0, 2) on two points: the grid has the points 0 and 1. *)
Definition unit_steps : SimulationParameters :=
  {| gridSize := 2; xMin := 0; xMax := 2; dt := 5 / 1000; hbar := 1;
     mass := 1 |}.

Lemma unit_steps_facts :
  let this := TDSESolver_fields unit_steps in
  gridSize (params this) = 2%nat /\ this_dx this = 1 /\
  get (this_x this) 1 = 1.
Proof.
  cbv zeta.
  destruct (TDSESolver_fields_exact unit_steps) as (Hn & Hdx & _).
  change (pow2_ceil_log2 (gridSize unit_steps)) with 2%nat in Hn, Hdx.
  assert (E : this_dx (TDSESolver_fields unit_steps) = 1).
  { rewrite Hdx. cbn. lra. }
  split; [exact Hn|]. split; [exact E|].
  rewrite (TDSESolver_fields_x unit_steps 1) by (rewrite Hn; lia).
  rewrite E. cbn. lra.
Qed.

Lemma createBoundState_normalized_witness :
  let this := TDSESolver_fields unit_steps in
  getTotalProbability this (createBoundState this 1 2) = 1.
Proof.
  cbv zeta. destruct unit_steps_facts as (Hn & Hdx & Hx1).
  destruct (@createBoundState_normalized (TDSESolver_fields unit_steps) 1 2
              (TDSESolver_fields_wf unit_steps))
    as (_ & _ & _ & _ & _ & Ht).
  - rewrite Hdx. lra.
  - exists 1%nat. split; [rewrite Hn; lia|]. rewrite Hx1.
    split; [lra|].
    replace (1 * PI * 1 / 2) with (PI / 2) by lra.
    rewrite sin_PI2. lra.
  - exact Ht.
Defined.

Lemma createCustomWavefunction_total_witness :
  let state := @createCustomWavefunction _ witness_host free_solver "A*x" "" [] in
  getTotalProbability free_solver state = 1 \/
  (forall i, (i < 2)%nat -> get (real state) i = 0 /\ get (imag state) i = 0) /\
  getTotalProbability free_solver state = 0.
Proof.
  cbv zeta. destruct free_solver_facts as (Hn & Hdx & _ & _ & Hwf).
  destruct (@createCustomWavefunction_total witness_host free_solver "A*x" ""
              [] Hwf) as (_ & _ & _ & Hcases).
  - rewrite Hdx. lra.
  - rewrite Hn in Hcases. exact Hcases.
Defined.

Lemma TDSESolver_new_grids_witness :
  exists this,
    TDSESolver_new two_points = Normal this /\
    get (this_x this) (gridSize (params this) - 1) + this_dx this = 1.
Proof.
  pose proof (two_points_constructed two_points eq_refl) as Hnew.
  assert (Hdom : xMin two_points < xMax two_points) by (cbn; lra).
  destruct (TDSESolver_new_grids two_points _ Hnew Hdom)
    as (_ & _ & _ & _ & Hlast & _).
  exists (TDSESolver_fields two_points). split; [exact Hnew|exact Hlast].
Defined.

Lemma createParameterSet_lookup_witness :
  Object_values (createParameterSet [amplitude_preset; frequency_preset])
  = [amplitude_preset; frequency_preset].
Proof.
  assert (Hn : Forall (fun p : Param => starts_with_letter (p_name p) = true)
                 [amplitude_preset; frequency_preset])
    by (repeat constructor).
  destruct (createParameterSet_lookup [amplitude_preset; frequency_preset] Hn)
    as (_ & _ & _ & Hv).
  apply Hv. repeat constructor; cbn; intuition discriminate.
Defined.

Lemma createDrawnPotential_bounded_witness :
  0 <= get (createDrawnPotential [0] ramp_points) 0 <= 2.
Proof.
  apply (createDrawnPotential_bounded [0] ramp_points 0 2).
  - discriminate.
  - intros p [<-|[<-|[]]]; cbn; lra.
  - cbn. lia.
Defined.

Lemma operators_keep_density_witness :
  let pot := applyPotentialOperator free_solver ([1; 0], [0; 0]) in
  get (fst pot) 0 * get (fst pot) 0 + get (snd pot) 0 * get (snd pot) 0
  = 1 * 1 + 0 * 0.
Proof.
  cbv zeta.
  destruct (two_point_grid two_points eq_refl) as (Hset & Hn & _).
  fold free_solver in Hset, Hn.
  assert (Hg : (1 <= gridSize two_points)%nat) by (cbn; lia).
  assert (Hd : xMin two_points <> xMax two_points) by (cbn; lra).
  assert (Hh : hbar two_points <> 0) by (cbn; lra).
  assert (Hm : mass two_points <> 0) by (cbn; lra).
  destruct (operators_keep_density two_points [0; 0] _ free_solver [1; 0] [0; 0]
              Hg Hd Hh Hm (two_points_constructed two_points eq_refl) Hset)
    as (_ & _ & _ & _ & Hden).
  - rewrite Hn. reflexivity.
  - rewrite Hn. reflexivity.
  - destruct (Hden 0%nat) as [Hpot _]; [rewrite Hn; lia|]. exact Hpot.
Defined.

Lemma TDSESolver_new_kinetic_witness :
  exists this,
    TDSESolver_new two_points = Normal this /\ get (expT_real this) 0 = 1.
Proof.
  pose proof (two_points_constructed two_points eq_refl) as Hnew.
  assert (Hd : xMin two_points <> xMax two_points) by (cbn; lra).
  assert (Hm : mass two_points <> 0) by (cbn; lra).
  destruct (TDSESolver_new_kinetic two_points _ Hnew Hd Hm) as (_ & [H0 _] & _).
  exists (TDSESolver_fields two_points). split; [exact Hnew|exact H0].
Defined.

Lemma blank_wavefunction_expressions_witness :
  @parseComplexFunction _ witness_host " " "" 0 0 [] = Normal (0, 0).
Proof.
  destruct (@blank_wavefunction_expressions _ witness_host " " "" [] 0 0
              eq_refl eq_refl) as (_ & _ & Hs).
  exact Hs.
Defined.

End FurtherInstances.
